(** * The PDF page cache and the prefetch coordinator

    A shallow embedding of [src/lib/cache.ts] (the LRU page cache and the
    manifest store), of [prefetchPdf] and the direct load effect of
    [src/app/file-browser.tsx], and of their siblings in
    [src/app/file/[...path]/page.tsx].  The list of files and the
    thumbnails of [src/lib/cache.ts], the navigation of
    [src/lib/files-context.tsx] and of the two views, and what their
    prefetch effects schedule follow further down.

    JavaScript's [Map] keeps its entries in insertion order, and the cache
    relies on that order for recency, so a [Map] is an association list with
    the oldest entry first.  The in-flight [Set] is a [gset], the manifest
    object a [gmap].  Asynchronous functions are resumptions: a tree that is
    either settled or suspended at an [await], with a continuation that
    receives the settled value and the state of the world at resumption. *)

From stdpp Require Import gmap strings list pretty.

Open Scope string_scope.
Open Scope list_scope.
Open Scope nat_scope.

(** ** JavaScript [Map<string, V>] *)

Module JsMap.
Section JsMap.
Context {V : Type}.

(** Entries in insertion order, oldest first; keys are unique. *)
Definition t : Type := list (string * V).

Definition empty : t := [].

Definition size (m : t) : nat := length m.

Fixpoint get (k : string) (m : t) : option V :=
  match m with
  | [] => None
  | (k', v) :: m' => if decide (k' = k) then Some v else get k m'
  end.

Definition has (k : string) (m : t) : bool :=
  match get k m with Some _ => true | None => false end.

(** [Map.prototype.delete]: the entry leaves, the others keep their order. *)
Fixpoint delete (k : string) (m : t) : t :=
  match m with
  | [] => []
  | (k', v) :: m' => if decide (k' = k) then m' else (k', v) :: delete k m'
  end.

(** [Map.prototype.set]: an existing key keeps its position and takes the
    new value, a new key is appended. *)
Fixpoint set (k : string) (v : V) (m : t) : t :=
  match m with
  | [] => [(k, v)]
  | (k', v') :: m' =>
      if decide (k' = k) then (k, v) :: m' else (k', v') :: set k v m'
  end.

(** [m.keys().next().value]: the oldest key, [undefined] on an empty map. *)
Definition first_key (m : t) : option string :=
  match m with
  | [] => None
  | (k, _) :: _ => Some k
  end.

Definition keys (m : t) : list string := m.*1.

(** The representation invariant of a [Map]. *)
Definition wf (m : t) : Prop := NoDup (keys m).
End JsMap.
Arguments t : clear implicits.
End JsMap.

(** A string in a condition: only the empty string is falsy. *)
Definition truthy (s : string) : bool := bool_decide (s ≠ "").

(** ** [src/lib/cache.ts]: the page cache *)

Definition PDF_CACHE_MAX_SIZE : nat := 10.

(** The module-level [pdfPagesCache]. *)
Abbreviation PdfPagesCache := (JsMap.t (list string)).

(** [getPdfPages]: the value, and the cache after the call. *)
Definition getPdfPages (key : string) (pdfPagesCache : PdfPagesCache)
  : option (list string) * PdfPagesCache :=
  let value := JsMap.get key pdfPagesCache in
  match value with
  | Some v => (value, JsMap.set key v (JsMap.delete key pdfPagesCache))
  | None => (value, pdfPagesCache)
  end.

(** One pass through the body of the [while] loop of [setPdfPages]. *)
Definition evict_oldest (pdfPagesCache : PdfPagesCache) : PdfPagesCache :=
  match JsMap.first_key pdfPagesCache with
  | Some oldestKey =>
      if truthy oldestKey then JsMap.delete oldestKey pdfPagesCache
      else pdfPagesCache
  | None => pdfPagesCache
  end.

(** The [while] loop of [setPdfPages].  Each pass through the body costs one
    unit of fuel; [None] says that the loop was still running when the fuel
    ran out. *)
Fixpoint evict_loop (fuel : nat) (pdfPagesCache : PdfPagesCache)
  : option PdfPagesCache :=
  if decide (PDF_CACHE_MAX_SIZE ≤ JsMap.size pdfPagesCache)%nat then
    match fuel with
    | 0 => None
    | S fuel' => evict_loop fuel' (evict_oldest pdfPagesCache)
    end
  else Some pdfPagesCache.

Definition setPdfPages (fuel : nat) (key : string) (pages : list string)
    (pdfPagesCache : PdfPagesCache) : option PdfPagesCache :=
  let c1 :=
    if JsMap.has key pdfPagesCache then JsMap.delete key pdfPagesCache
    else pdfPagesCache in
  c2 ← evict_loop fuel c1;
  Some (JsMap.set key pages c2).

Definition clearPdfCache (pdfPagesCache : PdfPagesCache) : PdfPagesCache :=
  JsMap.empty.

(** A run of [setPdfPages] calls, one after the other; [None] as soon as one
    of them does not return. *)
Fixpoint setPdfPages_all (fuel : nat) (calls : list (string * list string))
    (c : PdfPagesCache) : option PdfPagesCache :=
  match calls with
  | [] => Some c
  | (key, pages) :: calls' =>
      c' ← setPdfPages fuel key pages c;
      setPdfPages_all fuel calls' c'
  end.

(** The states of the cache that the exported operations can produce. *)
Inductive reachable : PdfPagesCache → Prop :=
  | reachable_empty : reachable JsMap.empty
  | reachable_set fuel key pages c c' :
      reachable c → setPdfPages fuel key pages c = Some c' → reachable c'
  | reachable_get key c : reachable c → reachable (getPdfPages key c).2
  | reachable_clear c : reachable c → reachable (clearPdfCache c).

(** ** The manifest store of [src/lib/cache.ts] *)

(** [PdfManifestEntry]; [pages] is a JavaScript number that holds a count. *)
Record PdfManifestEntry : Type := { pages : Z }.

(** [PdfManifest = Record<string, PdfManifestEntry>] *)
Abbreviation PdfManifest := (gmap string PdfManifestEntry).

(** [getPageCount], on the module-level [pdfManifest]: [None] is [null]. *)
Definition getPageCount (pdfManifest : option PdfManifest) (pdfKey : string)
  : option Z :=
  match pdfManifest with
  | None => None
  | Some m => pages <$> m !! pdfKey
  end.

(** ** Strings *)

(** [s.replace(pat, rep)] with a string pattern: the first occurrence only. *)
Fixpoint replace_first (pat rep s : string) : string :=
  if String.prefix pat s then
    rep +:+ String.substring (String.length pat)
              (String.length s - String.length pat) s
  else
    match s with
    | EmptyString => EmptyString
    | String c s' => String c (replace_first pat rep s')
    end.

(** The first [n] characters of [padString] repeated; [cur] is what is left
    of the current copy. *)
Fixpoint pad_fill (n : nat) (cur padString : string) : string :=
  match n with
  | 0 => EmptyString
  | S n' =>
      match cur with
      | String c cur' => String c (pad_fill n' cur' padString)
      | EmptyString =>
          match padString with
          | String c pad' => String c (pad_fill n' pad' padString)
          | EmptyString => EmptyString
          end
      end
  end.

(** [Number.MAX_SAFE_INTEGER].  A page number is a JS number; up to this
    bound every integer is a number of its own and [String(n)] is its
    decimal numeral, which [pretty] gives. *)
Definition MAX_SAFE_INTEGER : Z := 2 ^ 53 - 1.

(** [s.padStart(targetLength, padString)] *)
Definition padStart (targetLength : nat) (padString s : string) : string :=
  if decide (targetLength ≤ String.length s)%nat then s
  else pad_fill (targetLength - String.length s) padString padString +:+ s.

(** ** The world the asynchronous code runs in *)

(** What a [catch] clause receives: an [Error] with its message, or any
    other thrown value. *)
Inductive JsError : Type :=
  | ErrorObj (message : string)
  | OtherThrown.

(** The operations the code awaits, indexed by the type of what they settle
    to.  [Microtask] is the await of an [async] function that has no await
    of its own; [LoadImages] is the [Promise.all] over the [Image] objects;
    [RenderPage] stands for [page.render] followed by [canvas.toDataURL]. *)
Inductive ExtCall : Type → Type :=
  | Microtask : ExtCall unit
  | LoadImages (urls : list string) : ExtCall unit
  | ImportPdfjs : ExtCall unit
  | GetDocument (fileUrl : string) : ExtCall Z
  | GetPage (pageNum : Z) : ExtCall unit
  | RenderPage (pageNum : Z) : ExtCall string.

Inductive Settled (X : Type) : Type :=
  | Fulfilled (x : X)
  | Rejected (err : JsError).
Arguments Fulfilled {X} x.
Arguments Rejected {X} err.

(** The state setters of the viewer component. *)
Inductive StateWrite : Type :=
  | SetPages (v : list string)
  | SetLoading (v : bool)
  | SetError (v : option string)
  | SetTotalPages (v : Z).

(** The trace is ghost state: it records, in order, what the code did to the
    outside and to the viewer. *)
Inductive Event : Type :=
  | Called {X : Type} (op : ExtCall X)
  | ManifestRead
  | CacheSet (key : string) (value : list string)
  | StateSet (wr : StateWrite)
  | TornDown.

Record World : Type := mkWorld {
  pdfPagesCache : PdfPagesCache;          (* cache.ts *)
  pdfManifest : option PdfManifest;       (* cache.ts, [null] before it loads *)
  prefetchingSet : gset string;           (* file-browser.tsx *)
  page_prefetchingSet : gset string;      (* file/[...path]/page.tsx *)
  st_pages : list string;                 (* useState of the viewer *)
  st_loading : bool;
  st_error : option string;
  st_totalPages : Z;
  cancelled : bool;                       (* the flag of the load effect *)
  trace : list Event
}.

Definition log (e : Event) (w : World) : World :=
  mkWorld (pdfPagesCache w) (pdfManifest w) (prefetchingSet w)
    (page_prefetchingSet w) (st_pages w) (st_loading w) (st_error w)
    (st_totalPages w) (cancelled w) (trace w ++ [e]).

Definition with_cache (c : PdfPagesCache) (w : World) : World :=
  mkWorld c (pdfManifest w) (prefetchingSet w) (page_prefetchingSet w)
    (st_pages w) (st_loading w) (st_error w) (st_totalPages w) (cancelled w)
    (trace w).

Definition with_prefetchingSet (s : gset string) (w : World) : World :=
  mkWorld (pdfPagesCache w) (pdfManifest w) s (page_prefetchingSet w)
    (st_pages w) (st_loading w) (st_error w) (st_totalPages w) (cancelled w)
    (trace w).

Definition with_page_prefetchingSet (s : gset string) (w : World) : World :=
  mkWorld (pdfPagesCache w) (pdfManifest w) (prefetchingSet w) s
    (st_pages w) (st_loading w) (st_error w) (st_totalPages w) (cancelled w)
    (trace w).

Definition with_cancelled (b : bool) (w : World) : World :=
  mkWorld (pdfPagesCache w) (pdfManifest w) (prefetchingSet w)
    (page_prefetchingSet w) (st_pages w) (st_loading w) (st_error w)
    (st_totalPages w) b (trace w).

(** A state setter takes effect and leaves its mark in the trace. *)
Definition apply_write (wr : StateWrite) (w : World) : World :=
  log (StateSet wr)
    match wr with
    | SetPages v =>
        mkWorld (pdfPagesCache w) (pdfManifest w) (prefetchingSet w)
          (page_prefetchingSet w) v (st_loading w) (st_error w)
          (st_totalPages w) (cancelled w) (trace w)
    | SetLoading v =>
        mkWorld (pdfPagesCache w) (pdfManifest w) (prefetchingSet w)
          (page_prefetchingSet w) (st_pages w) v (st_error w)
          (st_totalPages w) (cancelled w) (trace w)
    | SetError v =>
        mkWorld (pdfPagesCache w) (pdfManifest w) (prefetchingSet w)
          (page_prefetchingSet w) (st_pages w) (st_loading w) v
          (st_totalPages w) (cancelled w) (trace w)
    | SetTotalPages v =>
        mkWorld (pdfPagesCache w) (pdfManifest w) (prefetchingSet w)
          (page_prefetchingSet w) (st_pages w) (st_loading w) (st_error w)
          v (cancelled w) (trace w)
    end.

(** The cleanup function of the load effect: [cancelled = true]. *)
Definition teardown (w : World) : World :=
  log TornDown (with_cancelled true w).

(** What the trace holds after the first teardown, and the writes among it:
    to the viewer's state and to the page cache. *)
Fixpoint after_teardown (tr : list Event) : list Event :=
  match tr with
  | [] => []
  | TornDown :: tr' => tr'
  | _ :: tr' => after_teardown tr'
  end.

Definition is_write (e : Event) : bool :=
  match e with
  | CacheSet _ _ | StateSet _ => true
  | _ => false
  end.

Definition writes_after_teardown (tr : list Event) : list Event :=
  filter (λ e, is_write e = true) (after_teardown tr).

(** ** Asynchronous functions as resumptions *)

Inductive Susp (A : Type) : Type :=
  | Returned (w : World) (a : A)
  | Thrown (w : World) (err : JsError)
  | Hung
  | Suspended {X : Type} (w : World) (op : ExtCall X)
      (k : Settled X → World → Susp A).
Arguments Returned {A} w a.
Arguments Thrown {A} w err.
Arguments Hung {A}.
Arguments Suspended {A X} w op k.

(** Code that runs from a state of the world to its next suspension. *)
Definition Async (A : Type) : Type := World → Susp A.

Fixpoint susp_bind {A B : Type} (s : Susp A) (f : A → Async B) : Susp B :=
  match s with
  | Returned w a => f a w
  | Thrown w err => Thrown w err
  | Hung => Hung
  | Suspended w op k => Suspended w op (λ r w', susp_bind (k r w') f)
  end.

#[export] Instance async_ret : MRet Async := λ A a w, Returned w a.
#[export] Instance async_bind : MBind Async :=
  λ A B f m w, susp_bind (m w) f.

Definition gets {A : Type} (f : World → A) : Async A := λ w, Returned w (f w).

Definition modify (f : World → World) : Async unit := λ w, Returned (f w) tt.

(** [await op]: the call is made, the function is suspended, and it goes on
    with the value or throws the rejection. *)
Definition await {X : Type} (op : ExtCall X) : Async X :=
  λ w, Suspended (log (Called op) w) op
         (λ r w', match r with
                  | Fulfilled x => Returned w' x
                  | Rejected err => Thrown w' err
                  end).

(** The await of promises that resolve on success and on failure alike. *)
Definition await_settled {X : Type} (op : ExtCall X) : Async unit :=
  λ w, Suspended (log (Called op) w) op (λ _ w', Returned w' tt).

(** [try { body } catch (err) { handler err }] *)
Fixpoint susp_catch {A : Type} (s : Susp A) (handler : JsError → Async A)
  : Susp A :=
  match s with
  | Returned w a => Returned w a
  | Thrown w err => handler err w
  | Hung => Hung
  | Suspended w op k => Suspended w op (λ r w', susp_catch (k r w') handler)
  end.

Definition try_catch {A : Type} (body : Async A) (handler : JsError → Async A)
  : Async A := λ w, susp_catch (body w) handler.

(** [try { body } finally { final }] *)
Fixpoint susp_finally {A : Type} (s : Susp A) (final : Async unit) : Susp A :=
  match s with
  | Returned w a => susp_bind (final w) (λ _ w', Returned w' a)
  | Thrown w err => susp_bind (final w) (λ _ w', Thrown w' err)
  | Hung => Hung
  | Suspended w op k => Suspended w op (λ r w', susp_finally (k r w') final)
  end.

Definition try_finally {A : Type} (body : Async A) (final : Async unit)
  : Async A := λ w, susp_finally (body w) final.

(** ** The environment: how suspended code is resumed *)

(** One resumption: whether the owning view is torn down while the code is
    suspended, and how the awaited operation settles. *)
Record Reply : Type := mkReply {
  tears_down : bool;
  settle : ∀ X : Type, ExtCall X → Settled X
}.

Inductive Outcome (A : Type) : Type :=
  | Finished (w : World) (a : A)
  | Failed (w : World) (err : JsError)
  | NeverReturns
  | Pending (w : World).
Arguments Finished {A} w a.
Arguments Failed {A} w err.
Arguments NeverReturns {A}.
Arguments Pending {A} w.

(** The world a suspended function wakes up in. *)
Definition after_reply (r : Reply) (w : World) : World :=
  if tears_down r then teardown w else w.

(** Drive a resumption with the replies of the environment, in order, and
    return what is left of them.  [Pending]: the replies ran out while the
    function was suspended. *)
Fixpoint run_rest {A : Type} (s : Susp A) (env : list Reply)
  : Outcome A * list Reply :=
  match s with
  | Returned w a => (Finished w a, env)
  | Thrown w err => (Failed w err, env)
  | Hung => (NeverReturns, env)
  | Suspended w op k =>
      match env with
      | [] => (Pending w, [])
      | r :: env' => run_rest (k (settle r _ op) (after_reply r w)) env'
      end
  end.

Definition run {A : Type} (s : Susp A) (env : list Reply) : Outcome A :=
  (run_rest s env).1.

(** The world at the first suspension point, if there is one. *)
Definition suspended_at {A : Type} (s : Susp A) : option World :=
  match s with
  | Suspended w _ _ => Some w
  | _ => None
  end.

(** ** The event loop: several asynchronous calls in flight *)

(** A suspended call: what it awaits and how it goes on. *)
Record Task : Type := mkTask {
  task_type : Type;
  task_op : ExtCall task_type;
  task_k : Settled task_type → World → Susp unit
}.

(** One turn of the loop: a new call is made, or a suspended one is resumed
    with the reply of the environment. *)
Inductive Turn : Type :=
  | Call (f : Async unit)
  | Resume (i : nat) (r : Reply).

(** Where a call is when it gives the thread back.  A rejection nobody
    handles is reported and the loop goes on; a call that never returns
    takes the only thread with it ([None]). *)
Definition park (s : Susp unit) (pool : list Task)
  : option (World * list Task) :=
  match s with
  | Returned w _ => Some (w, pool)
  | Thrown w _ => Some (w, pool)
  | Hung => None
  | Suspended w op k => Some (w, pool ++ [mkTask _ op k])
  end.

Definition turn (t : Turn) (st : World * list Task)
  : option (World * list Task) :=
  match t with
  | Call f => park (f st.1) st.2
  | Resume i r =>
      match st.2 !! i with
      | Some task =>
          park (task_k task (settle r _ (task_op task)) (after_reply r st.1))
            (delete i st.2)
      | None => Some st
      end
  end.

Fixpoint event_loop (turns : list Turn) (st : World * list Task)
  : option (World * list Task) :=
  match turns with
  | [] => Some st
  | t :: turns' => st' ← turn t st; event_loop turns' st'
  end.

(** ** The cache operations, called from asynchronous code *)

Definition do_getPdfPages (key : string) : Async (option (list string)) :=
  λ w, let '(value, c) := getPdfPages key (pdfPagesCache w) in
       Returned (with_cache c w) value.

(** A call of [setPdfPages] whose loop does not end never returns, and so
    neither does its caller. *)
Definition do_setPdfPages (fuel : nat) (key : string) (value : list string)
  : Async unit :=
  λ w, match setPdfPages fuel key value (pdfPagesCache w) with
       | Some c => Returned (log (CacheSet key value) (with_cache c w)) tt
       | None => Hung
       end.

Definition do_getPdfManifest : Async (option PdfManifest) :=
  λ w, Returned (log ManifestRead w) (pdfManifest w).

Definition set_state (wr : StateWrite) : Async unit := modify (apply_write wr).

(** The await of an [async] function that has already computed its result:
    the caller is suspended until the next turn of the event loop. *)
Definition yield : Async unit :=
  λ w, Suspended w Microtask (λ _ w', Returned w' tt).

(** [for (pageNum = first; pageNum <= pdf.numPages; pageNum++)] of the
    prefetch functions; [remaining] counts the passes that are left. *)
Fixpoint render_pages (remaining : nat) (pageNum : Z)
    (renderedPages : list string) : Async (list string) :=
  match remaining with
  | 0 => mret renderedPages
  | S remaining' =>
      _ ← await (GetPage pageNum);
      dataUrl ← await (RenderPage pageNum);
      render_pages remaining' (pageNum + 1) (renderedPages ++ [dataUrl])%list
  end.

(** The same loop in the load effects; [None] is the [return] taken when the
    flag is set. *)
Fixpoint load_render_pages (remaining : nat) (pageNum : Z)
    (renderedPages : list string) : Async (option (list string)) :=
  match remaining with
  | 0 => mret (Some renderedPages)
  | S remaining' =>
      c ← gets cancelled;
      if c : bool then mret None
      else
        _ ← await (GetPage pageNum);
        dataUrl ← await (RenderPage pageNum);
        let renderedPages := (renderedPages ++ [dataUrl])%list in
        set_state (SetPages renderedPages);;
        load_render_pages remaining' (pageNum + 1) renderedPages
  end.

(** [err instanceof Error ? err.message : "Failed to load PDF"] *)
Definition error_message (err : JsError) : string :=
  match err with
  | ErrorObj message => message
  | OtherThrown => "Failed to load PDF"
  end.

(** ** [src/app/file-browser.tsx] *)

Module FileBrowser.
Section FileBrowser.
Variable NODE_ENV : string.
(** The budget of the eviction loop of [setPdfPages]. *)
Variable fuel : nat.

Definition WORKER_URL : string :=
  if decide (NODE_ENV = "development") then "http://localhost:8787"
  else "https://epstein-files.rhys-669.workers.dev".

(** [pageNum] is a JS number and [String(pageNum)] is printed by [pretty]:
    the two agree on the integers from 0 to [MAX_SAFE_INTEGER]. *)
Definition getPageImageUrl (pdfKey : string) (pageNum : Z) : string :=
  let basePath := replace_first ".pdf" "" pdfKey in
  let pageStr := padStart 3 "0" (pretty pageNum) in
  WORKER_URL +:+ "/pdfs-as-jpegs/" +:+ basePath +:+ "/page-" +:+ pageStr
    +:+ ".jpg".

(** [for (let i = 1; i <= pageCount; i++) urls.push(...)] *)
Fixpoint push_page_urls (remaining : nat) (filePath : string) (i : Z)
    (urls : list string) : list string :=
  match remaining with
  | 0 => urls
  | S remaining' =>
      push_page_urls remaining' filePath (i + 1)
        (urls ++ [getPageImageUrl filePath i])%list
  end.

Definition loadPagesFromImages (filePath : string) (pageCount : Z)
  : Async (list string) :=
  mret (push_page_urls (Z.to_nat pageCount) filePath 1 []).

(** The rendering fallback of [prefetchPdf]. *)
Definition prefetch_render (filePath : string) : Async unit :=
  let fileUrl := WORKER_URL +:+ "/" +:+ filePath in
  _ ← await ImportPdfjs;
  numPages ← await (GetDocument fileUrl);
  renderedPages ← render_pages (Z.to_nat numPages) 1 [];
  if decide (0 < length renderedPages)%nat
  then do_setPdfPages fuel filePath renderedPages
  else mret tt.

(** The [try] block of [prefetchPdf]. *)
Definition prefetch_body (filePath : string) : Async unit :=
  manifest ← do_getPdfManifest;
  let manifestEntry := manifest ≫= (.!! filePath) in
  match manifestEntry with
  | Some entry =>
      if decide (0 < pages entry)%Z then
        imageUrls ← loadPagesFromImages filePath (pages entry);
        yield;;
        await_settled (LoadImages imageUrls);;
        do_setPdfPages fuel filePath imageUrls
      else prefetch_render filePath
  | None => prefetch_render filePath
  end.

(** [prefetchingSet.add] and [prefetchingSet.delete] *)
Definition prefetchingSet_add (key : string) (w : World) : World :=
  with_prefetchingSet ({[key]} ∪ prefetchingSet w) w.

Definition prefetchingSet_delete (key : string) (w : World) : World :=
  with_prefetchingSet (prefetchingSet w ∖ {[key]}) w.

Definition prefetchPdf (filePath : string) : Async unit :=
  cached ← do_getPdfPages filePath;
  inflight ← gets prefetchingSet;
  if bool_decide (is_Some cached) || bool_decide (filePath ∈ inflight)
  then mret tt
  else
    modify (prefetchingSet_add filePath);;
    try_finally
      (try_catch (prefetch_body filePath) (λ _, mret tt))
      (modify (prefetchingSet_delete filePath)).

(** The rendering fallback of [loadPages]. *)
Definition loadPages_render (filePath : string) : Async unit :=
  let fileUrl := WORKER_URL +:+ "/" +:+ filePath in
  _ ← await ImportPdfjs;
  numPages ← await (GetDocument fileUrl);
  c ← gets cancelled;
  if c : bool then mret tt
  else
    rendered ← load_render_pages (Z.to_nat numPages) 1 [];
    match rendered with
    | None => mret tt
    | Some renderedPages =>
        c ← gets cancelled;
        if negb c && bool_decide (0 < length renderedPages)%nat
        then do_setPdfPages fuel filePath renderedPages
        else mret tt
    end.

(** The [try] block of [loadPages]. *)
Definition loadPages_body (filePath : string) : Async unit :=
  manifest ← do_getPdfManifest;
  let manifestEntry := manifest ≫= (.!! filePath) in
  match manifestEntry with
  | Some entry =>
      if decide (0 < pages entry)%Z then
        imageUrls ← loadPagesFromImages filePath (pages entry);
        yield;;
        c ← gets cancelled;
        if c : bool then mret tt
        else
          set_state (SetPages imageUrls);;
          do_setPdfPages fuel filePath imageUrls;;
          set_state (SetLoading false)
      else loadPages_render filePath
  | None => loadPages_render filePath
  end.

Definition loadPages (filePath : string) : Async unit :=
  try_finally
    (try_catch (loadPages_body filePath)
       (λ err,
          c ← gets cancelled;
          if c : bool then mret tt
          else set_state (SetError (Some (error_message err)))))
    (c ← gets cancelled;
     if c : bool then mret tt else set_state (SetLoading false)).

(** The load effect of [FileModal], up to the call of [loadPages]. *)
Definition load_effect (filePath : string) : Async unit :=
  set_state (SetError None);;
  cached ← do_getPdfPages filePath;
  let start :=
    set_state (SetPages []);;
    set_state (SetLoading true);;
    modify (with_cancelled false);;
    loadPages filePath in
  match cached with
  | Some c =>
      if decide (0 < length c)%nat
      then set_state (SetPages c);; set_state (SetLoading false)
      else start
  | None => start
  end.
End FileBrowser.
End FileBrowser.

(** ** [src/app/file/[...path]/page.tsx] *)

Module FilePage.
Section FilePage.
Variable NODE_ENV : string.
Variable fuel : nat.

Definition WORKER_URL : string :=
  if decide (NODE_ENV = "development") then "http://localhost:8787"
  else "https://epstein-files.rhys-669.workers.dev".

(** The [try] block of [prefetchPdf]. *)
Definition prefetch_body (filePath : string) : Async unit :=
  let fileUrl := WORKER_URL +:+ "/" +:+ filePath in
  _ ← await ImportPdfjs;
  numPages ← await (GetDocument fileUrl);
  renderedPages ← render_pages (Z.to_nat numPages) 1 [];
  if decide (0 < length renderedPages)%nat
  then do_setPdfPages fuel filePath renderedPages
  else mret tt.

(** [prefetchingSet.add] and [prefetchingSet.delete], on the set of this
    module. *)
Definition prefetchingSet_add (key : string) (w : World) : World :=
  with_page_prefetchingSet ({[key]} ∪ page_prefetchingSet w) w.

Definition prefetchingSet_delete (key : string) (w : World) : World :=
  with_page_prefetchingSet (page_prefetchingSet w ∖ {[key]}) w.

Definition prefetchPdf (filePath : string) : Async unit :=
  cached ← do_getPdfPages filePath;
  inflight ← gets page_prefetchingSet;
  if bool_decide (is_Some cached) || bool_decide (filePath ∈ inflight)
  then mret tt
  else
    modify (prefetchingSet_add filePath);;
    try_finally
      (try_catch (prefetch_body filePath) (λ _, mret tt))
      (modify (prefetchingSet_delete filePath)).

(** The [try] block of [loadPdf]. *)
Definition loadPdf_body (filePath : string) : Async unit :=
  let fileUrl := WORKER_URL +:+ "/" +:+ filePath in
  _ ← await ImportPdfjs;
  numPages ← await (GetDocument fileUrl);
  c ← gets cancelled;
  if c : bool then mret tt
  else
    set_state (SetTotalPages numPages);;
    rendered ← load_render_pages (Z.to_nat numPages) 1 [];
    match rendered with
    | None => mret tt
    | Some renderedPages =>
        c ← gets cancelled;
        if negb c && bool_decide (0 < length renderedPages)%nat
        then do_setPdfPages fuel filePath renderedPages
        else mret tt
    end.

Definition loadPdf (filePath : string) : Async unit :=
  try_finally
    (try_catch (loadPdf_body filePath)
       (λ err,
          c ← gets cancelled;
          if c : bool then mret tt
          else set_state (SetError (Some (error_message err)))))
    (c ← gets cancelled;
     if c : bool then mret tt else set_state (SetLoading false)).

(** The load effect of [FilePage], up to the call of [loadPdf]. *)
Definition load_effect (filePath : string) : Async unit :=
  set_state (SetError None);;
  cached ← do_getPdfPages filePath;
  let start :=
    set_state (SetPages []);;
    set_state (SetLoading true);;
    set_state (SetTotalPages 0);;
    modify (with_cancelled false);;
    loadPdf filePath in
  match cached with
  | Some c =>
      if decide (0 < length c)%nat
      then
        set_state (SetPages c);;
        set_state (SetTotalPages (Z.of_nat (length c)));;
        set_state (SetLoading false)
      else start
  | None => start
  end.
End FilePage.
End FilePage.


(** ** [src/lib/cache.ts]: the list of files, the thumbnails, the manifest *)

Module FileItem.
Record t : Type := mk { key : string; size : Z; uploaded : string }.
End FileItem.

Record FilesCache : Type := mkFilesCache {
  files : list FileItem.t;
  cursor : option string;
  hasMore : bool
}.

(** The value the module-level [filesCache] starts with. *)
Definition filesCache_initial : FilesCache := mkFilesCache [] None true.

Definition getFilesCache (filesCache : FilesCache) : FilesCache := filesCache.

Definition setFilesCache (data : FilesCache) (filesCache : FilesCache)
  : FilesCache := data.

Definition appendToFilesCache (newFiles : list FileItem.t)
    (cursor : option string) (hasMore : bool) (filesCache : FilesCache)
  : FilesCache :=
  let existingKeys : gset string :=
    list_to_set (FileItem.key <$> files filesCache) in
  let uniqueNewFiles :=
    filter (λ f, FileItem.key f ∉ existingKeys) newFiles in
  mkFilesCache (files filesCache ++ uniqueNewFiles) cursor hasMore.

Definition resetFilesCache (filesCache : FilesCache) : FilesCache :=
  mkFilesCache [] None true.

(** The module-level [thumbnailCache]. *)
Abbreviation ThumbnailCache := (JsMap.t string).

Definition getThumbnail (key : string) (thumbnailCache : ThumbnailCache)
  : option string := JsMap.get key thumbnailCache.

Definition setThumbnail (key dataUrl : string)
    (thumbnailCache : ThumbnailCache) : ThumbnailCache :=
  JsMap.set key dataUrl thumbnailCache.

(** A run of [setThumbnail] calls, one after the other. *)
Definition setThumbnail_all (calls : list (string * string))
    (thumbnailCache : ThumbnailCache) : ThumbnailCache :=
  foldl (λ c call, setThumbnail call.1 call.2 c) thumbnailCache calls.

Definition setPdfManifest (manifest : PdfManifest) (w : World) : World :=
  mkWorld (pdfPagesCache w) (Some manifest) (prefetchingSet w)
    (page_prefetchingSet w) (st_pages w) (st_loading w) (st_error w)
    (st_totalPages w) (cancelled w) (trace w).

(** ** Arrays and strings of the language *)

Module JsArray.
(** [xs.findIndex(p)], from index [i] on: the index of the first element
    that satisfies [p], or [-1]. *)
Fixpoint findIndex_from {A : Type} (p : A → bool) (xs : list A) (i : Z)
  : Z :=
  match xs with
  | [] => (-1)%Z
  | x :: xs' => if p x then i else findIndex_from p xs' (i + 1)%Z
  end.

Definition findIndex {A : Type} (p : A → bool) (xs : list A) : Z :=
  findIndex_from p xs 0.

(** [xs[i]] for an integer [i]: [None] is [undefined]. *)
Definition at_index {A : Type} (xs : list A) (i : Z) : option A :=
  if (i <? 0)%Z then None else xs !! Z.to_nat i.

(** How [slice] reads one of its bounds. *)
Definition slice_bound (len i : Z) : Z :=
  if (i <? 0)%Z then Z.max (len + i) 0 else Z.min i len.

(** [xs.slice(start, end)] *)
Definition slice {A : Type} (xs : list A) (start end_ : Z) : list A :=
  let len := Z.of_nat (length xs) in
  let from := slice_bound len start in
  let to := slice_bound len end_ in
  take (Z.to_nat (to - from)) (drop (Z.to_nat from) xs).

(** [xs.sort(cmp)]: the sort is stable.  An element goes in front of the
    first one it does not come after. *)
Fixpoint sort_insert {A : Type} (cmp : A → A → Z) (x : A) (sorted : list A)
  : list A :=
  match sorted with
  | [] => [x]
  | y :: sorted' =>
      if (cmp x y <=? 0)%Z then x :: sorted
      else y :: sort_insert cmp x sorted'
  end.

Definition sort {A : Type} (cmp : A → A → Z) (xs : list A) : list A :=
  foldr (sort_insert cmp) [] xs.

(** [xs.join(sep)] *)
Fixpoint join (sep : string) (xs : list string) : string :=
  match xs with
  | [] => ""
  | x :: xs' =>
      match xs' with
      | [] => x
      | _ :: _ => x +:+ sep +:+ join sep xs'
      end
  end.
End JsArray.

Module JsString.
Import Strings.Ascii.

(** The separator of [join(',')] and [split(',')]. *)
Definition comma : ascii := ","%char.

(** [s.split(c)] for a separator of one character. *)
Fixpoint split (c : ascii) (s : string) : list string :=
  match s with
  | EmptyString => [""]
  | String a s' =>
      if decide (a = c) then "" :: split c s'
      else
        match split c s' with
        | piece :: pieces => String a piece :: pieces
        | [] => [String a ""]
        end
  end.

(** [\d] *)
Definition is_digit (a : ascii) : bool :=
  (48 <=? nat_of_ascii a) && (nat_of_ascii a <=? 57).

(** The longest run of digits that [s] starts with. *)
Fixpoint digits (s : string) : string :=
  match s with
  | EmptyString => ""
  | String a s' => if is_digit a then String a (digits s') else ""
  end.

(** [/EFTA\d+/] tried at the start of [s]. *)
Definition match_EFTA_here (s : string) : option string :=
  if String.prefix "EFTA" s then
    let d := digits (String.substring 4 (String.length s - 4) s) in
    if decide (d = "") then None else Some ("EFTA" +:+ d)
  else None.

(** [s.match(/EFTA\d+/)]: the leftmost match; [None] is [null]. *)
Fixpoint match_EFTA (s : string) : option string :=
  match match_EFTA_here s with
  | Some m => Some m
  | None =>
      match s with
      | EmptyString => None
      | String _ s' => match_EFTA s'
      end
  end.
End JsString.

(** [getFileId], as [src/lib/files-context.tsx], [src/app/file-browser.tsx]
    and [src/app/file/[...path]/page.tsx] each define it. *)
Definition getFileId (key : string) : string :=
  match JsString.match_EFTA key with
  | Some m => m
  | None => key
  end.

(** [x && x !== "All"] for an optional filter: the value that filters. *)
Definition selected_filter (x : option string) : option string :=
  match x with
  | Some s => if truthy s && bool_decide (s ≠ "All") then Some s else None
  | None => None
  end.

(** ** [src/lib/files-context.tsx] *)

Module FilesContext.
Section FilesContext.
(** [a.localeCompare(b)]: the collation of the runtime. *)
Variable localeCompare : string → string → Z.
(** [getFilesForCelebrity] of [./celebrity-data]. *)
Variable getFilesForCelebrity : string → Z → list string.

(** [{ collection?: string; celebrity?: string }] *)
Record Filters : Type := mkFilters {
  collection : option string;
  celebrity : option string
}.

Definition getFilteredFileKeys (allFiles : list FileItem.t)
    (filters : Filters) : list string :=
  match selected_filter (celebrity filters) with
  | Some celebrity =>
      let celebrityFileKeys := getFilesForCelebrity celebrity 99 in
      match selected_filter (collection filters) with
      | Some collection =>
          filter (λ key, String.prefix collection key = true)
            celebrityFileKeys
      | None => celebrityFileKeys
      end
  | None =>
      match selected_filter (collection filters) with
      | Some collection =>
          FileItem.key <$>
            filter (λ f, String.prefix collection (FileItem.key f) = true)
              allFiles
      | None => FileItem.key <$> allFiles
      end
  end.

(** The comparator of both sorts: by file id. *)
Definition by_id (a b : string) : Z :=
  localeCompare (getFileId a) (getFileId b).

Definition sortedFiles (files : list FileItem.t) : list FileItem.t :=
  JsArray.sort (λ a b, by_id (FileItem.key a) (FileItem.key b)) files.

Definition fileIdToPath (files : list FileItem.t) : JsMap.t string :=
  foldl (λ map file,
           JsMap.set (getFileId (FileItem.key file)) (FileItem.key file) map)
    JsMap.empty (sortedFiles files).

Definition getFilePath (files : list FileItem.t) (fileId : string)
  : option string := JsMap.get fileId (fileIdToPath files).

(** The list [getAdjacentFile] moves in. *)
Definition fileKeys (files : list FileItem.t) (filters : option Filters)
  : list string :=
  match filters with
  | Some f =>
      if bool_decide (collection f ≠ Some "All")
         || bool_decide (celebrity f ≠ Some "All")
      then JsArray.sort by_id (getFilteredFileKeys (sortedFiles files) f)
      else FileItem.key <$> sortedFiles files
  | None => FileItem.key <$> sortedFiles files
  end.

Definition getAdjacentFile (files : list FileItem.t) (currentPath : string)
    (offset : Z) (filters : option Filters) : option string :=
  let fileKeys := fileKeys files filters in
  let currentIndex :=
    JsArray.findIndex (λ key, bool_decide (key = currentPath)) fileKeys in
  if (currentIndex =? -1)%Z then None
  else
    let newIndex := (currentIndex + offset)%Z in
    if (newIndex <? 0)%Z || (Z.of_nat (length fileKeys) <=? newIndex)%Z
    then None
    else JsArray.at_index fileKeys newIndex.
End FilesContext.
End FilesContext.

(** ** The [FilePage] component of [src/app/file/[...path]/page.tsx] *)

Module FilePageNav.
Section FilePageNav.
Variable localeCompare : string → string → Z.
Variable getFilesForCelebrity : string → Z → list string.
Variable files : list FileItem.t.

Abbreviation getAdjacentFile :=
  (FilesContext.getAdjacentFile localeCompare getFilesForCelebrity files).

(** [searchParams.get(name) ?? "All"] for both filters. *)
Definition filters (collectionParam celebrityParam : option string)
  : FilesContext.Filters :=
  FilesContext.mkFilters (Some (default "All" collectionParam))
    (Some (default "All" celebrityParam)).

Definition prevPath (filePath : string) (f : FilesContext.Filters)
  : option string := getAdjacentFile filePath (-1) (Some f).

Definition nextPath (filePath : string) (f : FilesContext.Filters)
  : option string := getAdjacentFile filePath 1 (Some f).

(** [for (let i = 1; i <= 5; i++)], with [if (path) paths.push(path)]. *)
Definition nextPaths (filePath : string) (f : FilesContext.Filters)
  : list string :=
  foldl (λ paths i,
           match getAdjacentFile filePath i (Some f) with
           | Some path => if truthy path then paths ++ [path] else paths
           | None => paths
           end)
    [] (seqZ 1 5).

(** The prefetch effect: the calls of [prefetchPdf] it schedules, each with
    its delay in milliseconds. *)
Definition prefetch_schedule (loading : bool) (nextPaths : list string)
    (prevPath : option string) : list (Z * string) :=
  let nextPathsKey := JsArray.join "," nextPaths in
  if loading || negb (truthy nextPathsKey) then []
  else
    let paths :=
      filter (λ s, truthy s = true) (JsString.split JsString.comma nextPathsKey) in
    imap (λ index path, ((Z.of_nat index * 100)%Z, path)) paths
      ++ match prevPath with
         | Some p => if truthy p then [(600%Z, p)] else []
         | None => []
         end.
End FilePageNav.
End FilePageNav.

(** ** The [FileBrowser] component of [src/app/file-browser.tsx] *)

Module Browser.
Section Browser.
Variable localeCompare : string → string → Z.
Variable getFilesForCelebrity : string → Z → list string.
(** [new Date(s).getTime()]: [None] is [NaN]. *)
Variable getTime : string → option Z.

(** The difference of two time values; a comparator that returns [NaN]
    says that the two are equal. *)
Definition time_diff (a b : string) : Z :=
  match getTime a, getTime b with
  | Some x, Some y => (x - y)%Z
  | _, _ => 0%Z
  end.

Definition compare_by (sortBy : string) (a b : FileItem.t) : Z :=
  if decide (sortBy = "date-desc")
  then time_diff (FileItem.uploaded b) (FileItem.uploaded a)
  else if decide (sortBy = "date-asc")
  then time_diff (FileItem.uploaded a) (FileItem.uploaded b)
  else if decide (sortBy = "size-desc")
  then (FileItem.size b - FileItem.size a)%Z
  else if decide (sortBy = "size-asc")
  then (FileItem.size a - FileItem.size b)%Z
  else localeCompare (getFileId (FileItem.key a))
         (getFileId (FileItem.key b)).

Definition filteredFiles (initialFiles : list FileItem.t)
    (collectionFilter celebrityFilter sortBy : string) : list FileItem.t :=
  let files := initialFiles in
  let files :=
    if decide (collectionFilter ≠ "All")
    then filter (λ f, String.prefix collectionFilter (FileItem.key f) = true)
           files
    else files in
  let files :=
    if decide (celebrityFilter ≠ "All")
    then
      let celebrityFileKeys : gset string :=
        list_to_set (getFilesForCelebrity celebrityFilter 99) in
      filter (λ f, FileItem.key f ∈ celebrityFileKeys) files
    else files in
  JsArray.sort (compare_by sortBy) files.
End Browser.

Section Modal.
(** What the modal is opened on. *)
Variable filteredFiles : list FileItem.t.

Definition selectedFileIndex (openFile : option string) : option Z :=
  match openFile with
  | Some k =>
      if truthy k then
        let index :=
          JsArray.findIndex (λ f, bool_decide (FileItem.key f = k))
            filteredFiles in
        if (0 <=? index)%Z then Some index else None
      else None
  | None => None
  end.

Definition selectedFile (openFile : option string) : option FileItem.t :=
  match selectedFileIndex openFile with
  | Some i => JsArray.at_index filteredFiles i
  | None => None
  end.

Definition hasPrev (openFile : option string) : bool :=
  match selectedFileIndex openFile with
  | Some i => (0 <? i)%Z
  | None => false
  end.

Definition hasNext (openFile : option string) : bool :=
  match selectedFileIndex openFile with
  | Some i => (i <? Z.of_nat (length filteredFiles) - 1)%Z
  | None => false
  end.

(** The handlers return the new value of [openFile]; [None] is the
    [TypeError] of reading [.key] of [undefined]. *)
Definition handlePrev (openFile : option string)
  : option (option string) :=
  match selectedFileIndex openFile with
  | Some i =>
      if (0 <? i)%Z then
        f ← JsArray.at_index filteredFiles (i - 1);
        Some (Some (FileItem.key f))
      else Some openFile
  | None => Some openFile
  end.

Definition handleNext (openFile : option string)
  : option (option string) :=
  match selectedFileIndex openFile with
  | Some i =>
      if (i <? Z.of_nat (length filteredFiles) - 1)%Z then
        f ← JsArray.at_index filteredFiles (i + 1);
        Some (Some (FileItem.key f))
      else Some openFile
  | None => Some openFile
  end.

Definition handleClose (openFile : option string) : option string := None.

(** The [nextFiles] the modal is given. *)
Definition nextFiles (openFile : option string) : list FileItem.t :=
  match selectedFileIndex openFile with
  | Some i => JsArray.slice filteredFiles (i + 1) (i + 6)
  | None => []
  end.
End Modal.

(** The prefetch effect of [FileModal]: the calls of [prefetchPdf] it
  schedules, each with its delay in milliseconds. *)
Definition prefetch_schedule (loading : bool) (nextFiles : list FileItem.t)
: list (Z * string) :=
let nextFileKeys := JsArray.join "," (FileItem.key <$> nextFiles) in
if loading || negb (truthy nextFileKeys) then []
else
  let keys :=
    filter (λ s, truthy s = true) (JsString.split JsString.comma nextFileKeys) in
  imap (λ index key, ((Z.of_nat index * 100)%Z, key)) keys.
End Browser.


(** ** Concrete inputs *)

(** An entry with one page, named after its key. *)
Definition one_page (key : string) : string * list string :=
  (key, [key +:+ "#1"]).

(** Eleven distinct keys; the first is the empty string. *)
Definition eleven_keys : list string :=
  [""; "B"; "C"; "D"; "E"; "F"; "G"; "H"; "I"; "J"; "K"].

(** A full cache whose oldest key is the empty string: what ten
    [setPdfPages] calls on the first ten of [eleven_keys] leave. *)
Definition stuck_cache : PdfPagesCache := one_page <$> take 10 eleven_keys.

(** The environment in which everything succeeds: documents have three
    pages, and page [n] renders to ["data:n"]. *)
Definition all_good : ∀ X : Type, ExtCall X → Settled X :=
  λ X op,
    match op in ExtCall T return Settled T with
    | Microtask => Fulfilled tt
    | LoadImages _ => Fulfilled tt
    | ImportPdfjs => Fulfilled tt
    | GetDocument _ => Fulfilled 3%Z
    | GetPage _ => Fulfilled tt
    | RenderPage n => Fulfilled ("data:" +:+ pretty n)
    end.

(** The environment in which the document cannot be fetched. *)
Definition fetch_fails : ∀ X : Type, ExtCall X → Settled X :=
  λ X op,
    match op in ExtCall T return Settled T with
    | GetDocument _ => Rejected (ErrorObj "Missing PDF")
    | op' => all_good _ op'
    end.

Definition ok : Reply := mkReply false all_good.
Definition ok_torn_down : Reply := mkReply true all_good.
Definition no_document : Reply := mkReply false fetch_fails.

(** A fresh session without a manifest. *)
Definition fresh_world : World :=
  mkWorld JsMap.empty None ∅ ∅ [] true None 0 false [].

(** A fresh session whose manifest records three pages for ["Z.pdf"]. *)
Definition manifest_world : World :=
  mkWorld JsMap.empty (Some {[ "Z.pdf" := {| pages := 3 |} ]}) ∅ ∅
    [] true None 0 false [].

(** A session with ["X.pdf"] and ["Y.pdf"] in the cache, ["X.pdf"] older. *)
Definition cached_world : World :=
  mkWorld [one_page "X.pdf"; one_page "Y.pdf"] None ∅ ∅
    [] true None 0 false [].

(** A full cache with ten one-page documents, ["A"] the oldest. *)
Definition ten_keys : list string :=
  ["A"; "B"; "C"; "D"; "E"; "F"; "G"; "H"; "I"; "J"].

Definition full_cache : PdfPagesCache := one_page <$> ten_keys.

(** A cache with two documents, ["A"] the older. *)
Definition two_documents : PdfPagesCache :=
  [("A", ["p1"]); ("B", ["q1"])].

(** Two pages of a listing that overlap in ["b.pdf"]. *)
Definition first_page : list FileItem.t :=
  [FileItem.mk "a.pdf" 10 "2024-01-01"; FileItem.mk "b.pdf" 20 "2024-01-02"].

Definition second_page : list FileItem.t :=
  [FileItem.mk "b.pdf" 25 "2024-02-02"; FileItem.mk "c.pdf" 30 "2024-01-03"].

(** A collation for the examples: the order of the code units. *)
Definition code_unit_order (a b : string) : Z :=
  match String.compare a b with
  | Lt => (-1)%Z
  | Eq => 0%Z
  | Gt => 1%Z
  end.

(** Celebrity data for the examples: one name, found in one file. *)
Definition celebrity_files (name : string) (minConfidence : Z)
  : list string :=
  if decide (name = "Jane Doe") then ["VOL00002/EFTA00000003.pdf"] else [].

(** Dates the examples do not read. *)
Definition no_dates (dateString : string) : option Z := None.

(** Three files, as the listing returns them. *)
Definition library : list FileItem.t :=
  [FileItem.mk "VOL00002/EFTA00000003.pdf" 300 "2025-01-03";
   FileItem.mk "VOL00001/EFTA00000001.pdf" 100 "2025-01-01";
   FileItem.mk "VOL00001/EFTA00000002.pdf" 200 "2025-01-02"].

(** The same files in the order of their ids. *)
Definition sorted_library : list FileItem.t :=
  [FileItem.mk "VOL00001/EFTA00000001.pdf" 100 "2025-01-01";
   FileItem.mk "VOL00001/EFTA00000002.pdf" 200 "2025-01-02";
   FileItem.mk "VOL00002/EFTA00000003.pdf" 300 "2025-01-03"].

(** Nine more one-page documents. *)
Definition nine_more_keys : list string :=
  ["K"; "L"; "M"; "N"; "O"; "P"; "Q"; "R"; "S"].

(** ** Predicates on asynchronous code *)

(** The stores of the page cache and of the coordinators. *)
Definition same_stores (w w' : World) : Prop :=
  pdfPagesCache w' = pdfPagesCache w ∧ pdfManifest w' = pdfManifest w ∧
  prefetchingSet w' = prefetchingSet w ∧
  page_prefetchingSet w' = page_prefetchingSet w.

(** However the code is resumed, it has not written to the stores when it
    returns, throws, or waits. *)
Definition keeps_stores {A : Type} (m : Async A) : Prop :=
  ∀ w env,
    match run (m w) env with
    | Finished w' _ | Failed w' _ | Pending w' => same_stores w w'
    | NeverReturns => True
    end.

(** It does not throw. *)
Definition never_throws {A : Type} (m : Async A) : Prop :=
  ∀ w env w' err, run (m w) env ≠ Failed w' err.

(** It writes to the stores only on its way out: when it throws and whenever
    it is suspended, the stores are as it found them. *)
Definition writes_last {A : Type} (m : Async A) : Prop :=
  ∀ w env,
    match run (m w) env with
    | Failed w' _ | Pending w' => same_stores w w'
    | Finished _ _ | NeverReturns => True
    end.

(** It has no suspension point and does not throw. *)
Definition settles_at_once {A : Type} (m : Async A) : Prop :=
  ∀ w env,
    match run (m w) env with
    | Finished _ _ | NeverReturns => True
    | Failed _ _ | Pending _ => False
    end.

(** ** Producers *)

(** A resumption, started with the in-flight set of the file browser at
    [inflight], that never changes the set: whatever the world it wakes up
    in, it passes the set on as it finds it. *)
Fixpoint keeps_set {A : Type} (inflight : gset string) (s : Susp A) : Prop :=
  match s with
  | Returned w _ | Thrown w _ => prefetchingSet w = inflight
  | Hung => True
  | Suspended w _ k =>
      prefetchingSet w = inflight ∧
      ∀ r w', keeps_set (prefetchingSet w') (k r w')
  end.

(** A resumption that does not change the set while it is suspended, does
    not throw, and takes [key] out of the set as it returns. *)
Fixpoint releases {A : Type} (key : string) (inflight : gset string)
    (s : Susp A) : Prop :=
  match s with
  | Returned w _ => prefetchingSet w = inflight ∖ {[key]}
  | Thrown _ _ => False
  | Hung => True
  | Suspended w _ k =>
      prefetchingSet w = inflight ∧
      ∀ r w', releases key (prefetchingSet w') (k r w')
  end.

(** A suspended call that is the producer of [key]. *)
Definition producer_of (key : string) (t : Task) : Prop :=
  ∀ r w, releases key (prefetchingSet w) (task_k t r w).

(** A state of the event loop in which the in-flight set holds exactly the
    keys of the suspended producers, one producer for each key. *)
Definition coordinated (st : World * list Task) : Prop :=
  ∃ keys : list string,
    NoDup keys ∧ Forall2 producer_of keys st.2 ∧
    ∀ key, key ∈ prefetchingSet st.1 ↔ key ∈ keys.

(** The turns of a loop that only prefetches. *)
Definition prefetch_turn (NODE_ENV : string) (fuel : nat) (t : Turn) : Prop :=
  match t with
  | Call f => ∃ X, f = FileBrowser.prefetchPdf NODE_ENV fuel X
  | Resume _ _ => True
  end.

(** ** Cancellation *)

Definition is_teardown (e : Event) : bool :=
  match e with
  | TornDown => true
  | _ => false
  end.

Definition torn_down (tr : list Event) : bool := existsb is_teardown tr.

(** Nothing has been written since the teardown, if there was one, and the
    flag is set if there was one. *)
Definition unwritten (w : World) : Prop :=
  writes_after_teardown (trace w) = [] ∧
  (cancelled w = false → torn_down (trace w) = false).

(** The flag is set, and since the teardown there has been one [setPages]
    and no other write. *)
Definition one_late_setPages (w : World) : Prop :=
  cancelled w = true ∧
  ∃ v, writes_after_teardown (trace w) = [StateSet (SetPages v)].

Definition at_most_one_late (w : World) : Prop :=
  unwritten w ∨ one_late_setPages w.

(** From a world in [P], the code returns in [Q], and it throws and is
    suspended in [R], however it is resumed. *)
Definition hoare {A : Type} (P : World → Prop) (m : Async A)
    (Q : A → World → Prop) (R : World → Prop) : Prop :=
  ∀ w env,
    P w →
    match run (m w) env with
    | Finished w' a => Q a w'
    | Failed w' _ | Pending w' => R w'
    | NeverReturns => True
    end.

(** ** Sessions of the page cache *)

(** The exported operations of the page cache. *)
Inductive CacheOp : Type :=
  | OpGet (key : string)
  | OpSet (key : string) (pages : list string)
  | OpClear.

Definition cache_op (fuel : nat) (op : CacheOp) (c : PdfPagesCache)
  : option PdfPagesCache :=
  match op with
  | OpGet key => Some (getPdfPages key c).2
  | OpSet key pages => setPdfPages fuel key pages c
  | OpClear => Some (clearPdfCache c)
  end.

(** A session: the operations one after the other, [None] as soon as one of
    them does not return. *)
Fixpoint cache_ops (fuel : nat) (ops : list CacheOp) (c : PdfPagesCache)
  : option PdfPagesCache :=
  match ops with
  | [] => Some c
  | op :: ops' => c' ← cache_op fuel op c; cache_ops fuel ops' c'
  end.

(** The operation stores under the empty key. *)
Definition sets_empty_key (op : CacheOp) : bool :=
  match op with
  | OpSet key _ => negb (truthy key)
  | _ => false
  end.

(** The states of a session that never stores under the empty key. *)
Definition truthy_keys (c : PdfPagesCache) : Prop :=
  JsMap.wf c ∧ JsMap.size c ≤ PDF_CACHE_MAX_SIZE ∧
  Forall (λ k, k ≠ "") (JsMap.keys c).

(** The entry of [key] has at most [n] entries after it. *)
Definition among_the_last (n : nat) (key : string) (pages : list string)
    (c : PdfPagesCache) : Prop :=
  JsMap.wf c ∧ JsMap.size c ≤ PDF_CACHE_MAX_SIZE ∧
  ∃ older newer, c = older ++ (key, pages) :: newer ∧ length newer ≤ n.

(** The value of the last call for [key] among [calls]. *)
Definition latest_thumbnail (key : string) (calls : list (string * string))
  : option string :=
  snd <$> last (filter (λ call, call.1 = key) calls).

(** A key that [split(',')] leaves in one piece. *)
Definition has_no_comma (s : string) : Prop :=
  JsString.comma ∉ String.list_ascii_of_string s.

(** A key the prefetch effects hand on as it is. *)
Definition plain_key (s : string) : Prop := s ≠ "" ∧ has_no_comma s.

(** ** The renderer *)

(** The calls of the render loop for [n] pages from [pageNum] on. *)
Fixpoint page_calls (n : nat) (pageNum : Z) : list Event :=
  match n with
  | 0 => []
  | S n' =>
      Called (GetPage pageNum) :: Called (RenderPage pageNum)
        :: page_calls n' (pageNum + 1)
  end.

(** What the code did between two worlds, in order, the teardowns of the
    environment aside. *)
Definition did_since (w w' : World) (evs : list Event) : Prop :=
  ∃ new,
    trace w' = trace w ++ new ∧
    filter (λ e, is_teardown e = false) new = evs.


(** ** The operations of a prefetch *)

(** The manifest lookup. *)
Definition is_manifest_read (e : Event) : bool :=
  match e with
  | ManifestRead => true
  | _ => false
  end.

(** The start of a path that produces pages: the batch of image loads of the
    manifest path, the import of the renderer on the rendering path. *)
Definition is_path_start (e : Event) : bool :=
  match e with
  | Called op =>
      match op with
      | LoadImages _ | ImportPdfjs => true
      | _ => false
      end
  | _ => false
  end.

(** The document is fetched and opened for rendering. *)
Definition is_document_open (e : Event) : bool :=
  match e with
  | Called op =>
      match op with
      | GetDocument _ => true
      | _ => false
      end
  | _ => false
  end.

Fixpoint count_events (f : Event → bool) (evs : list Event) : nat :=
  match evs with
  | [] => 0
  | e :: evs' => (if f e then 1 else 0) + count_events f evs'
  end.

(** What the code did between two worlds: [reads] manifest lookups, [starts]
    starts of a path that produces pages, and [opens] documents opened. *)
Definition performed (w w' : World) (reads starts opens : nat) : Prop :=
  ∃ new,
    trace w' = trace w ++ new ∧
    count_events is_manifest_read new = reads ∧
    count_events is_path_start new = starts ∧
    count_events is_document_open new = opens.

(** Since [w] the manifest was read once and the renderer was imported
    once, and at most one document was opened. *)
Definition rendering (w w' : World) : Prop :=
  ∃ opens, opens ≤ 1 ∧ performed w w' 1 1 opens.

(** ** Decimal numerals *)

(** The character of a decimal digit. *)
Definition decimal_digit (d : Z) : Strings.Ascii.ascii :=
  Strings.Ascii.ascii_of_nat (48 + Z.to_nat d).

(** The three decimal digits of a number below 1000. *)
Definition three_digits (n : Z) : string :=
  String (decimal_digit (n `div` 100))
    (String (decimal_digit ((n `div` 10) `mod` 10))
       (String (decimal_digit (n `mod` 10)) "")).

(** The number that a run of digits [s] writes after the digits of [v]. *)
Fixpoint numeral_from (v : Z) (s : string) : Z :=
  match s with
  | EmptyString => v
  | String a s' =>
      numeral_from (10 * v + (Z.of_nat (Strings.Ascii.nat_of_ascii a) - 48)) s'
  end.

(** [s] is the decimal numeral of [n]: digits only, no leading zero, and
    their value is [n]. *)
Definition decimal_numeral (s : string) (n : Z) : Prop :=
  JsString.digits s = s ∧ String.prefix "0" s = false ∧ numeral_from 0 s = n.

(** ** What [/EFTA\d+/] matches *)

(** A match of [/EFTA\d+/] can start in [key] where [before] ends: [EFTA]
    and a digit follow. *)
Definition EFTA_starts_at (key before : string) : Prop :=
  ∃ a rest,
    JsString.is_digit a = true ∧ key = before +:+ "EFTA" +:+ String a rest.

(** [m] is what [/EFTA\d+/] matches in [key] where [before] ends: [EFTA] and
    the digits that follow, one or more and as many as there are. *)
Definition EFTA_match_at (key before m : string) : Prop :=
  ∃ d rest,
    key = before +:+ m +:+ rest ∧ m = "EFTA" +:+ d ∧ d ≠ "" ∧
    JsString.digits d = d ∧ JsString.digits rest = "".

(** Decidable facts about concrete data, settled by evaluation. *)
Ltac by_compute := apply (bool_decide_unpack _); vm_compute; exact I.

(** * Properties *)

(** ** The [Map] operations *)

Module JsMapFacts.
Section JsMapFacts.
Context {V : Type}.
Implicit Types (m : JsMap.t V) (k : string) (v : V).

Lemma get_None_keys k m : JsMap.get k m = None ↔ k ∉ JsMap.keys m.
Proof.
  unfold JsMap.keys. induction m as [|[k' v'] m IH]; simpl.
  - split; [intros _; apply not_elem_of_nil | done].
  - rewrite not_elem_of_cons. destruct (decide (k' = k)) as [->|Hne].
    + split; [done | intros [? _]; done].
    + rewrite IH. split; [intros ?; split; [congruence | done] | tauto].
Qed.

Lemma get_Some_keys k m : is_Some (JsMap.get k m) ↔ k ∈ JsMap.keys m.
Proof.
  destruct (JsMap.get k m) eqn:E.
  - split; [intros _ | eauto].
    destruct (decide (k ∈ JsMap.keys m)) as [|Hn]; [done |].
    apply get_None_keys in Hn. congruence.
  - split; [intros [? ?]; done |].
    intros Hin. apply get_None_keys in E. done.
Qed.

Lemma has_true k m : JsMap.has k m = true ↔ k ∈ JsMap.keys m.
Proof.
  rewrite <- get_Some_keys. unfold JsMap.has.
  destruct (JsMap.get k m); split; eauto; try done.
Qed.

Lemma has_false k m : JsMap.has k m = false ↔ k ∉ JsMap.keys m.
Proof.
  rewrite <- has_true. destruct (JsMap.has k m); split; congruence.
Qed.

Lemma delete_absent k m : k ∉ JsMap.keys m → JsMap.delete k m = m.
Proof.
  unfold JsMap.keys. induction m as [|[k' v'] m IH]; simpl; [done |].
  rewrite not_elem_of_cons. intros [Hne Hin].
  destruct (decide (k' = k)); [congruence |]. by rewrite IH.
Qed.

Lemma set_absent k v m : k ∉ JsMap.keys m → JsMap.set k v m = m ++ [(k, v)].
Proof.
  unfold JsMap.keys. induction m as [|[k' v'] m IH]; simpl; [done |].
  rewrite not_elem_of_cons. intros [Hne Hin].
  destruct (decide (k' = k)); [congruence |]. by rewrite IH.
Qed.

Lemma keys_delete_subseteq k m : JsMap.keys (JsMap.delete k m) ⊆ JsMap.keys m.
Proof.
  unfold JsMap.keys. induction m as [|[k' v'] m IH]; simpl; [done |].
  destruct (decide (k' = k)).
  - intros x Hx. by apply list_elem_of_further.
  - simpl. intros x. rewrite !elem_of_cons. intros [->|Hx]; [by left |].
    right. by apply IH.
Qed.

Lemma delete_wf k m : JsMap.wf m → JsMap.wf (JsMap.delete k m).
Proof.
  unfold JsMap.wf. induction m as [|[k' v'] m IH]; simpl; [done |].
  intros Hnd. apply NoDup_cons in Hnd as [Hnin Hnd].
  destruct (decide (k' = k)); [done |].
  change (NoDup (k' :: JsMap.keys (JsMap.delete k m))).
  apply NoDup_cons. split; [| by apply IH].
  intros Hin. apply Hnin. by apply (keys_delete_subseteq k m).
Qed.

Lemma delete_not_in k m : JsMap.wf m → k ∉ JsMap.keys (JsMap.delete k m).
Proof.
  unfold JsMap.wf. induction m as [|[k' v'] m IH]; simpl.
  - intros _. apply not_elem_of_nil.
  - intros Hnd. apply NoDup_cons in Hnd as [Hnin Hnd].
    destruct (decide (k' = k)) as [->|Hne]; [done |].
    change (k ∉ k' :: JsMap.keys (JsMap.delete k m)).
    rewrite not_elem_of_cons. split; [congruence | by apply IH].
Qed.

Lemma length_delete_present k m :
  k ∈ JsMap.keys m → S (length (JsMap.delete k m)) = length m.
Proof.
  unfold JsMap.keys. induction m as [|[k' v'] m IH]; simpl.
  - intros Hin. by apply elem_of_nil in Hin.
  - rewrite elem_of_cons. intros Hin.
    destruct (decide (k' = k)) as [->|Hne]; [done |].
    simpl. f_equal. apply IH. destruct Hin; [congruence | done].
Qed.

Lemma get_delete_ne k k' m :
  k ≠ k' → JsMap.get k' (JsMap.delete k m) = JsMap.get k' m.
Proof.
  intros Hne. induction m as [|[k0 v0] m IH]; simpl; [done |].
  destruct (decide (k0 = k)) as [->|Hne0]; simpl.
  - destruct (decide (k = k')); [congruence | done].
  - destruct (decide (k0 = k')); [done | apply IH].
Qed.

Lemma get_set_eq k v m : JsMap.get k (JsMap.set k v m) = Some v.
Proof.
  induction m as [|[k0 v0] m IH]; simpl.
  - destruct (decide (k = k)); congruence.
  - destruct (decide (k0 = k)) as [->|Hne]; simpl.
    + destruct (decide (k = k)); congruence.
    + destruct (decide (k0 = k)); [congruence | apply IH].
Qed.

Lemma get_set_ne k k' v m :
  k ≠ k' → JsMap.get k' (JsMap.set k v m) = JsMap.get k' m.
Proof.
  intros Hne. induction m as [|[k0 v0] m IH]; simpl.
  - destruct (decide (k = k')); congruence.
  - destruct (decide (k0 = k)) as [->|Hne0]; simpl.
    + destruct (decide (k = k')); congruence.
    + destruct (decide (k0 = k')); [done | apply IH].
Qed.

Lemma get_app_absent k m m' :
  k ∉ JsMap.keys m → JsMap.get k (m ++ m') = JsMap.get k m'.
Proof.
  unfold JsMap.keys. induction m as [|[k0 v0] m IH]; simpl; [done |].
  rewrite not_elem_of_cons. intros [Hne Hin].
  destruct (decide (k0 = k)); [congruence | by apply IH].
Qed.

Lemma keys_app m m' : JsMap.keys (m ++ m') = JsMap.keys m ++ JsMap.keys m'.
Proof. unfold JsMap.keys. apply fmap_app. Qed.

(** Moving an entry to the end keeps the keys unique. *)
Lemma move_to_end_wf k v m :
  JsMap.wf m → JsMap.wf (JsMap.delete k m ++ [(k, v)]).
Proof.
  intros Hwf. unfold JsMap.wf. rewrite keys_app. apply NoDup_app.
  split; [by apply delete_wf |]. split; [| apply NoDup_singleton].
  intros x Hx Hx'. apply list_elem_of_singleton in Hx'. simpl in Hx'.
  subst x. by apply (delete_not_in k m).
Qed.
End JsMapFacts.
End JsMapFacts.


(** ** The page cache *)

Section CacheFacts.
Implicit Types (c : PdfPagesCache) (k key : string) (p : list string).
Import JsMapFacts.

Lemma truthy_spec k : truthy k = true ↔ k ≠ "".
Proof. unfold truthy. apply bool_decide_eq_true. Qed.

Lemma evict_loop_below fuel c :
  JsMap.size c < PDF_CACHE_MAX_SIZE → evict_loop fuel c = Some c.
Proof.
  intros Hlt. destruct fuel; simpl;
    destruct (decide (PDF_CACHE_MAX_SIZE ≤ JsMap.size c)); done || lia.
Qed.

Lemma evict_oldest_keys c : JsMap.keys (evict_oldest c) ⊆ JsMap.keys c.
Proof.
  unfold evict_oldest. destruct (JsMap.first_key c) as [k0|]; [| done].
  destruct (truthy k0); [apply keys_delete_subseteq | done].
Qed.

Lemma evict_oldest_wf c : JsMap.wf c → JsMap.wf (evict_oldest c).
Proof.
  intros Hwf. unfold evict_oldest.
  destruct (JsMap.first_key c) as [k0|]; [| done].
  destruct (truthy k0); [by apply delete_wf | done].
Qed.

(** When the loop ends, the cache is below its capacity, and it has only
    lost entries. *)
Lemma evict_loop_returns fuel c c' :
  evict_loop fuel c = Some c' →
  JsMap.size c' < PDF_CACHE_MAX_SIZE ∧ JsMap.keys c' ⊆ JsMap.keys c ∧
  (JsMap.wf c → JsMap.wf c').
Proof.
  revert c. induction fuel as [|fuel IH]; intros c; simpl;
    destruct (decide (PDF_CACHE_MAX_SIZE ≤ JsMap.size c)) as [Hge|Hlt];
    intros Heq; try discriminate.
  - injection Heq as <-. split; [lia | done].
  - apply IH in Heq as (Hsz & Hsub & Hwf). split; [done |]. split.
    + etrans; [exact Hsub | apply evict_oldest_keys].
    + intros Hc. apply Hwf. by apply evict_oldest_wf.
  - injection Heq as <-. split; [lia | done].
Qed.

(** The oldest key is the empty string and the cache is full: the body of
    the loop changes nothing, and the loop goes on for ever. *)
Lemma evict_loop_stuck fuel c :
  JsMap.first_key c = Some "" → PDF_CACHE_MAX_SIZE ≤ JsMap.size c →
  evict_loop fuel c = None.
Proof.
  intros Hfirst Hfull. induction fuel as [|fuel IH]; simpl;
    destruct (decide (PDF_CACHE_MAX_SIZE ≤ JsMap.size c)); try done.
  unfold evict_oldest. rewrite Hfirst. simpl. exact IH.
Qed.

Lemma length_set_le k p c : length (JsMap.set k p c) ≤ S (length c).
Proof.
  induction c as [|[k0 v0] c IH]; simpl; [lia |].
  destruct (decide (k0 = k)); simpl; lia.
Qed.

(** What [setPdfPages] does to a key that is present. *)
Lemma setPdfPages_present fuel k p c :
  JsMap.wf c → JsMap.size c ≤ PDF_CACHE_MAX_SIZE → k ∈ JsMap.keys c →
  setPdfPages fuel k p c = Some (JsMap.delete k c ++ [(k, p)]).
Proof.
  intros Hwf Hsz Hin. unfold setPdfPages.
  apply has_true in Hin as Hhas. rewrite Hhas.
  pose proof (length_delete_present k c Hin) as Hlen.
  rewrite evict_loop_below by (unfold JsMap.size in *; lia). simpl.
  f_equal. apply set_absent. by apply delete_not_in.
Qed.

(** A new key, with room left. *)
Lemma setPdfPages_absent_below fuel k p c :
  k ∉ JsMap.keys c → JsMap.size c < PDF_CACHE_MAX_SIZE →
  setPdfPages fuel k p c = Some (c ++ [(k, p)]).
Proof.
  intros Hnin Hsz. unfold setPdfPages.
  apply has_false in Hnin as Hhas. rewrite Hhas.
  rewrite evict_loop_below by done. simpl. f_equal. by apply set_absent.
Qed.

(** A new key into a full cache whose oldest key is not the empty string:
    one pass of the loop evicts the oldest entry. *)
Lemma setPdfPages_absent_full fuel k p k0 v0 c :
  JsMap.size ((k0, v0) :: c) = PDF_CACHE_MAX_SIZE → k0 ≠ "" →
  k ∉ JsMap.keys ((k0, v0) :: c) →
  setPdfPages (S fuel) k p ((k0, v0) :: c) = Some (c ++ [(k, p)]).
Proof.
  intros Hsz Hk0 Hnin. unfold setPdfPages.
  apply has_false in Hnin as Hhas. rewrite Hhas.
  cbn [evict_loop].
  destruct (decide (PDF_CACHE_MAX_SIZE ≤ JsMap.size ((k0, v0) :: c)));
    [| lia].
  unfold evict_oldest. cbn [JsMap.first_key].
  apply truthy_spec in Hk0. rewrite Hk0. cbn [JsMap.delete].
  destruct (decide (k0 = k0)); [| done].
  rewrite evict_loop_below by (unfold JsMap.size in *; simpl in Hsz; lia).
  simpl. f_equal. apply set_absent.
  unfold JsMap.keys in *. simpl in Hnin. apply not_elem_of_cons in Hnin.
  tauto.
Qed.

(** A new key into a full cache whose oldest key is the empty string. *)
Lemma setPdfPages_absent_stuck fuel k p c :
  JsMap.first_key c = Some "" → PDF_CACHE_MAX_SIZE ≤ JsMap.size c →
  k ∉ JsMap.keys c → setPdfPages fuel k p c = None.
Proof.
  intros Hfirst Hfull Hnin. unfold setPdfPages.
  apply has_false in Hnin as Hhas. rewrite Hhas.
  by rewrite evict_loop_stuck.
Qed.

Lemma keys_set_present k p c :
  k ∈ JsMap.keys c → JsMap.keys (JsMap.set k p c) = JsMap.keys c.
Proof.
  unfold JsMap.keys. induction c as [|[k0 v0] c IH]; simpl.
  - intros Hin. by apply elem_of_nil in Hin.
  - rewrite elem_of_cons. intros Hin.
    destruct (decide (k0 = k)) as [->|Hne]; simpl; [done |].
    f_equal. apply IH. destruct Hin; [congruence | done].
Qed.

Lemma set_wf k p c : JsMap.wf c → JsMap.wf (JsMap.set k p c).
Proof.
  intros Hwf. unfold JsMap.wf.
  destruct (decide (k ∈ JsMap.keys c)) as [Hin|Hnin].
  - by rewrite keys_set_present.
  - rewrite set_absent by done.
    rewrite <- (delete_absent k c) at 1 by done. by apply move_to_end_wf.
Qed.

Lemma getPdfPages_wf k c : JsMap.wf c → JsMap.wf (getPdfPages k c).2.
Proof.
  intros Hwf. unfold getPdfPages. destruct (JsMap.get k c); simpl; [| done].
  apply set_wf. by apply delete_wf.
Qed.

(** A hit moves the entry to the end of the order. *)
Lemma getPdfPages_present k v c :
  JsMap.wf c → JsMap.get k c = Some v →
  getPdfPages k c = (Some v, JsMap.delete k c ++ [(k, v)]).
Proof.
  intros Hwf Hget. unfold getPdfPages. rewrite Hget. f_equal.
  apply set_absent. by apply delete_not_in.
Qed.

Lemma getPdfPages_absent k c :
  k ∉ JsMap.keys c → getPdfPages k c = (None, c).
Proof.
  intros Hnin. apply get_None_keys in Hnin. unfold getPdfPages.
  by rewrite Hnin.
Qed.

Lemma getPdfPages_size k c :
  JsMap.wf c → JsMap.size (getPdfPages k c).2 = JsMap.size c.
Proof.
  intros Hwf. destruct (JsMap.get k c) as [v|] eqn:E.
  - rewrite (getPdfPages_present k v c) by done. simpl.
    assert (k ∈ JsMap.keys c) as Hin by (apply get_Some_keys; eauto).
    pose proof (length_delete_present k c Hin) as Hlen.
    unfold JsMap.size. rewrite length_app. simpl. lia.
  - apply get_None_keys in E. by rewrite getPdfPages_absent.
Qed.

(** When [setPdfPages] returns, the cache is within its capacity. *)
Lemma setPdfPages_returns fuel k p c c' :
  setPdfPages fuel k p c = Some c' →
  JsMap.size c' ≤ PDF_CACHE_MAX_SIZE ∧ (JsMap.wf c → JsMap.wf c').
Proof.
  unfold setPdfPages. intros Heq.
  destruct (evict_loop fuel _) as [c2|] eqn:Hloop; [| done].
  simpl in Heq. injection Heq as <-.
  apply evict_loop_returns in Hloop as (Hsz & _ & Hwf). split.
  - pose proof (length_set_le k p c2). unfold JsMap.size in *. lia.
  - intros Hc. apply set_wf, Hwf. destruct (JsMap.has k c); [| done].
    by apply delete_wf.
Qed.

(** Every state of the cache has unique keys and is within capacity. *)
Lemma reachable_inv c :
  reachable c → JsMap.wf c ∧ JsMap.size c ≤ PDF_CACHE_MAX_SIZE.
Proof.
  induction 1 as [|fuel key p c c' _ [Hwf Hsz] Hset|key c _ [Hwf Hsz]
                 |c _ _].
  - split; [apply NoDup_nil_2 | unfold PDF_CACHE_MAX_SIZE; simpl; lia].
  - apply setPdfPages_returns in Hset as [? Hwf']. split; [auto | done].
  - split; [by apply getPdfPages_wf | by rewrite getPdfPages_size].
  - split; [apply NoDup_nil_2 | unfold PDF_CACHE_MAX_SIZE; simpl; lia].
Qed.
End CacheFacts.


Section CacheClaims.
Implicit Types (c : PdfPagesCache) (k key : string) (p : list string).
Import JsMapFacts.

(** Calls with new, distinct keys that fit: the entries are appended. *)
Lemma setPdfPages_all_below fuel calls c :
  NoDup (JsMap.keys c ++ calls.*1) →
  length c + length calls ≤ PDF_CACHE_MAX_SIZE →
  setPdfPages_all fuel calls c = Some (c ++ calls).
Proof.
  revert c. induction calls as [|[k p] calls IH]; intros c Hnd Hlen; simpl.
  - by rewrite app_nil_r.
  - simpl in Hlen.
    apply NoDup_app in Hnd as Hnd'. destruct Hnd' as (_ & Hdisj & _).
    rewrite setPdfPages_absent_below; cycle 1.
    { intros Hin. apply (Hdisj k Hin). simpl. apply list_elem_of_here. }
    { unfold JsMap.size. lia. }
    simpl. rewrite IH.
    + by rewrite <- app_assoc.
    + rewrite keys_app. simpl. by rewrite <- app_assoc.
    + rewrite length_app. simpl. lia.
Qed.

(** After every call that returns, the cache holds at most
    [PDF_CACHE_MAX_SIZE] entries. *)
Lemma setPdfPages_all_capacity fuel calls c c' :
  reachable c → setPdfPages_all fuel calls c = Some c' →
  reachable c' ∧ JsMap.size c' ≤ PDF_CACHE_MAX_SIZE.
Proof.
  revert c. induction calls as [|[k p] calls IH]; intros c Hc; simpl.
  - intros [= <-]. split; [done | by apply reachable_inv].
  - destruct (setPdfPages fuel k p c) as [c1|] eqn:Hset; [| done]. simpl.
    apply IH. by eapply reachable_set.
Qed.

(** Calls with distinct keys, none of them the empty string, on a cache
    they are new to: every call returns, and the cache ends with the
    [PDF_CACHE_MAX_SIZE] most recent entries, oldest first. *)
Lemma setPdfPages_all_distinct fuel calls c :
  NoDup (JsMap.keys c ++ calls.*1) →
  Forall (λ k, k ≠ "") (JsMap.keys c ++ calls.*1) →
  JsMap.size c ≤ PDF_CACHE_MAX_SIZE →
  setPdfPages_all (S fuel) calls c
  = Some (drop (length (c ++ calls) - PDF_CACHE_MAX_SIZE) (c ++ calls)).
Proof.
  revert c. induction calls as [|[k p] calls IH]; intros c Hnd Hne Hsz; simpl.
  - rewrite app_nil_r. unfold JsMap.size in Hsz.
    by replace (length c - PDF_CACHE_MAX_SIZE) with 0 by lia.
  - apply NoDup_app in Hnd as Hnd'. destruct Hnd' as (Hndc & Hdisj & _).
    assert (k ∉ JsMap.keys c) as Hnin.
    { intros Hin. apply (Hdisj k Hin). simpl. apply list_elem_of_here. }
    assert (∀ c1, JsMap.keys c1 ⊆ JsMap.keys c → NoDup (JsMap.keys c1) →
              NoDup (JsMap.keys (c1 ++ [(k, p)]) ++ calls.*1) ∧
              Forall (λ k, k ≠ "") (JsMap.keys (c1 ++ [(k, p)]) ++ calls.*1))
      as Hstep.
    { intros c1 Hsub Hnd1. rewrite keys_app. simpl. rewrite <- app_assoc.
      simpl. split.
      - apply NoDup_app in Hnd as (_ & Hd & Hcalls). simpl in Hcalls.
        apply NoDup_app. split; [done |]. split; [| done].
        intros x Hx. apply Hd. by apply Hsub.
      - apply Forall_app in Hne as [Hc Hcalls]. apply Forall_app.
        split; [| done]. eapply Forall_forall. intros x Hx.
        eapply Forall_forall in Hc; [exact Hc | by apply Hsub]. }
    destruct (decide (JsMap.size c < PDF_CACHE_MAX_SIZE)) as [Hlt|Hge].
    + rewrite setPdfPages_absent_below by done. simpl.
      destruct (Hstep c) as [Hnd1 Hne1]; [done | done |].
      rewrite IH; [| done | done |].
      * by rewrite <- app_assoc.
      * unfold JsMap.size in *. rewrite length_app. simpl. lia.
    + destruct c as [|[k0 v0] c0];
        [unfold PDF_CACHE_MAX_SIZE in *; simpl in *; lia |].
      assert (JsMap.size ((k0, v0) :: c0) = PDF_CACHE_MAX_SIZE) as Hfull by lia.
      rewrite setPdfPages_absent_full; [| done | | done]; cycle 1.
      { apply Forall_app in Hne as [Hc _]. unfold JsMap.keys in Hc.
        simpl in Hc. by apply Forall_cons in Hc as [? _]. }
      simpl. destruct (Hstep c0) as [Hnd1 Hne1].
      { unfold JsMap.keys. simpl. intros x Hx. by apply list_elem_of_further. }
      { unfold JsMap.keys in Hndc. simpl in Hndc.
        by apply NoDup_cons in Hndc as [_ ?]. }
      rewrite IH; [| done | done |].
      * unfold JsMap.size in Hfull. simpl in Hfull. f_equal.
        rewrite <- !app_assoc. simpl. rewrite !length_app. simpl.
        replace (length c0 + S (length calls) - 9)
          with (S (length c0 + S (length calls) - PDF_CACHE_MAX_SIZE))
          by (unfold PDF_CACHE_MAX_SIZE in *; lia).
        done.
      * unfold JsMap.size in *. rewrite length_app. simpl in *. lia.
Qed.
End CacheClaims.


Section CacheTheorems.
Implicit Types (c : PdfPagesCache) (k key : string) (p : list string).
Import JsMapFacts.

Lemma stuck_cache_reachable : reachable stuck_cache.
Proof.
  destruct (setPdfPages_all_capacity 0 (one_page <$> take 10 eleven_keys)
              JsMap.empty stuck_cache) as [Hr _]; [constructor | | done].
  vm_compute. reflexivity.
Qed.

(** C1 (after each [setPdfPages] call the cache holds at most ten entries,
    and eleven distinct keys leave the ten most recent) fails when the
    empty string is among the keys.  [eleven_keys] are eleven distinct
    keys; the first ten calls return and fill the cache; the eleventh call
    never returns, whatever the budget of its loop, so that no state
    follows it.  For other keys [setPdfPages_all_capacity] and
    [setPdfPages_all_distinct] above give what C1 says. *)
Theorem setPdfPages_eleven_keys_never_returns :
  NoDup eleven_keys ∧ length eleven_keys = 11 ∧
  (∀ fuel,
     setPdfPages_all fuel (one_page <$> take 10 eleven_keys) JsMap.empty
     = Some stuck_cache) ∧
  (∀ fuel,
     setPdfPages_all fuel (one_page <$> eleven_keys) JsMap.empty = None).
Proof.
  split; [by_compute |].
  split; [done |].
  assert (∀ fuel,
     setPdfPages_all fuel (one_page <$> take 10 eleven_keys) JsMap.empty
     = Some stuck_cache) as Hten.
  { intros fuel. rewrite setPdfPages_all_below.
    - done.
    - by_compute.
    - unfold PDF_CACHE_MAX_SIZE. simpl. lia. }
  split; [exact Hten |]. intros fuel.
  change (one_page <$> eleven_keys)
    with ((one_page <$> take 10 eleven_keys) ++ [one_page "K"]).
  assert (∀ calls calls' c,
            setPdfPages_all fuel (calls ++ calls') c
            = setPdfPages_all fuel calls c ≫= setPdfPages_all fuel calls')
    as Happ.
  { induction calls as [|[k p] calls IH]; intros calls' c; simpl; [done |].
    destruct (setPdfPages fuel k p c); simpl; [apply IH | done]. }
  rewrite Happ, Hten. simpl.
  rewrite setPdfPages_absent_stuck; [done | done | | ].
  - unfold PDF_CACHE_MAX_SIZE. simpl. lia.
  - by_compute.
Qed.

(** C9 ([setPdfPages] terminates in every state, also when the cache is
    full and its oldest key is the empty string) fails in that very
    state.  [stuck_cache] is a state the cache can be in: it is full and
    its oldest key is the empty string.  There [setPdfPages] with a new
    key never returns: [if (oldestKey)] takes the empty string for a
    missing key, nothing is deleted, and the condition of the loop stays
    true. *)
Theorem setPdfPages_diverges_on_empty_oldest_key :
  reachable stuck_cache ∧
  JsMap.first_key stuck_cache = Some "" ∧
  JsMap.size stuck_cache = PDF_CACHE_MAX_SIZE ∧
  (∀ fuel pages, setPdfPages fuel "K" pages stuck_cache = None).
Proof.
  split; [apply stuck_cache_reachable |]. split; [done |]. split; [done |].
  intros fuel pages. apply setPdfPages_absent_stuck; [done | | ].
  - unfold PDF_CACHE_MAX_SIZE. simpl. lia.
  - by_compute.
Qed.



(** C6.  Setting a key that is present: the call returns (whatever the
    budget of the loop), the size is unchanged, every other key keeps its
    value and its place relative to the others, the key reads back the new
    pages, and it is the most recently used. *)
Theorem setPdfPages_existing_key fuel A p2 c :
  reachable c → A ∈ JsMap.keys c →
  ∃ c',
    setPdfPages fuel A p2 c = Some c' ∧
    JsMap.size c' = JsMap.size c ∧
    (∀ k, k ≠ A → JsMap.get k c' = JsMap.get k c) ∧
    (getPdfPages A c').1 = Some p2 ∧
    last c' = Some (A, p2) ∧
    c' = JsMap.delete A c ++ [(A, p2)].
Proof.
  intros Hc Hin. apply reachable_inv in Hc as [Hwf Hsz].
  exists (JsMap.delete A c ++ [(A, p2)]).
  pose proof (delete_not_in A c Hwf) as Hnin.
  split; [by apply setPdfPages_present |]. split.
  { unfold JsMap.size. rewrite length_app. simpl.
    pose proof (length_delete_present A c Hin). lia. }
  split.
  { intros k Hk. rewrite <- (set_absent A p2) by done.
    rewrite get_set_ne by done. by apply get_delete_ne. }
  split.
  { unfold getPdfPages. rewrite get_app_absent by done. simpl.
    destruct (decide (A = A)); done. }
  split; [apply last_snoc | done].
Qed.

Lemma setPdfPages_existing_key_witness :
  ∃ c',
    setPdfPages 0 "A" ["p2"] [("A", ["p1"]); ("B", ["q1"])] = Some c' ∧
    JsMap.size c' = 2 ∧
    (∀ k, k ≠ "A" →
          JsMap.get k c' = JsMap.get k [("A", ["p1"]); ("B", ["q1"])]) ∧
    (getPdfPages "A" c').1 = Some ["p2"] ∧
    last c' = Some ("A", ["p2"]) ∧
    c' = [("B", ["q1"]); ("A", ["p2"])].
Proof.
  apply (setPdfPages_existing_key 0 "A" ["p2"]
           [("A", ["p1"]); ("B", ["q1"])]).
  - apply (reachable_set 0 "B" ["q1"] [("A", ["p1"])]); [| reflexivity].
    apply (reachable_set 0 "A" ["p1"] JsMap.empty); [| reflexivity].
    apply reachable_empty.
  - apply list_elem_of_here.
Defined.

(** C10.  A miss returns [undefined] and the cache is the one it was: the
    same entries in the same order. *)
Theorem getPdfPages_miss_is_pure key c :
  key ∉ JsMap.keys c → getPdfPages key c = (None, c).
Proof. apply getPdfPages_absent. Qed.

Lemma getPdfPages_miss_is_pure_witness :
  getPdfPages "Q" [("A", ["p1"]); ("B", ["q1"])]
  = (None, [("A", ["p1"]); ("B", ["q1"])]).
Proof.
  apply (getPdfPages_miss_is_pure "Q" [("A", ["p1"]); ("B", ["q1"])]).
  by_compute.
Defined.
End CacheTheorems.


(** ** Running asynchronous code *)

Section RunFacts.
Context {A B : Type}.

Lemma run_rest_bind (s : Susp A) (f : A → Async B) env :
  run_rest (susp_bind s f) env
  = match run_rest s env with
    | (Finished w a, env') => run_rest (f a w) env'
    | (Failed w err, env') => (Failed w err, env')
    | (NeverReturns, env') => (NeverReturns, env')
    | (Pending w, env') => (Pending w, env')
    end.
Proof.
  revert env. induction s as [w a|w err| |X w op k IH]; intros env; simpl.
  - by destruct (run_rest (f a w) env).
  - done.
  - done.
  - destruct env as [|r env]; [done | apply IH].
Qed.

Lemma run_rest_mbind (m : Async A) (f : A → Async B) w env :
  run_rest ((m ≫= f) w) env
  = match run_rest (m w) env with
    | (Finished w' a, env') => run_rest (f a w') env'
    | (Failed w' err, env') => (Failed w' err, env')
    | (NeverReturns, env') => (NeverReturns, env')
    | (Pending w', env') => (Pending w', env')
    end.
Proof. apply run_rest_bind. Qed.

Lemma run_rest_catch (s : Susp A) (handler : JsError → Async A) env :
  run_rest (susp_catch s handler) env
  = match run_rest s env with
    | (Failed w err, env') => run_rest (handler err w) env'
    | other => other
    end.
Proof.
  revert env. induction s as [w a|w err| |X w op k IH]; intros env; simpl.
  - done.
  - by destruct (run_rest (handler err w) env).
  - done.
  - destruct env as [|r env]; [done | apply IH].
Qed.

Lemma run_rest_finally (s : Susp A) (final : Async unit) env :
  run_rest (susp_finally s final) env
  = match run_rest s env with
    | (Finished w a, env') =>
        run_rest (susp_bind (final w) (λ _ w', Returned w' a)) env'
    | (Failed w err, env') =>
        run_rest (susp_bind (final w) (λ _ w', Thrown w' err)) env'
    | other => other
    end.
Proof.
  revert env. induction s as [w a|w err| |X w op k IH]; intros env; simpl.
  - by destruct (run_rest _ env).
  - by destruct (run_rest _ env).
  - done.
  - destruct env as [|r env]; [done | apply IH].
Qed.
End RunFacts.

(** [try { body } catch { } finally { release }] as the prefetch functions
    have it: an error of the body is swallowed and the release always runs. *)
Lemma run_swallowed (body : Async unit) (release : World → World) w env :
  run (try_finally (try_catch body (λ _, mret tt)) (modify release) w) env
  = match run (body w) env with
    | Finished w' _ => Finished (release w') tt
    | Failed w' _ => Finished (release w') tt
    | NeverReturns => NeverReturns
    | Pending w' => Pending w'
    end.
Proof.
  unfold run, try_finally, try_catch. rewrite run_rest_finally, run_rest_catch.
  destruct (run_rest (body w) env) as [[w' []|w' err| |w'] env']; done.
Qed.

(** ** What asynchronous code leaves alone *)

Section Frames.
Context {A B : Type}.

Lemma same_stores_refl w : same_stores w w.
Proof. done. Qed.

Lemma same_stores_trans w1 w2 w3 :
  same_stores w1 w2 → same_stores w2 w3 → same_stores w1 w3.
Proof.
  unfold same_stores. intros (? & ? & ? & ?) (? & ? & ? & ?).
  repeat split; congruence.
Qed.

Lemma same_stores_log e w : same_stores w (log e w).
Proof. done. Qed.

Lemma same_stores_after_reply r w : same_stores w (after_reply r w).
Proof. unfold after_reply. by destruct (tears_down r). Qed.

Lemma keeps_mret (a : A) : keeps_stores (mret a).
Proof. intros w env. apply same_stores_refl. Qed.

Lemma keeps_await (op : ExtCall A) : keeps_stores (await op).
Proof.
  intros w [|r env]; unfold run; simpl; [done |].
  destruct (settle r A op); simpl;
    (eapply same_stores_trans; [apply same_stores_log |
                                apply same_stores_after_reply]).
Qed.

Lemma keeps_bind (m : Async A) (f : A → Async B) :
  keeps_stores m → (∀ a, keeps_stores (f a)) → keeps_stores (m ≫= f).
Proof.
  intros Hm Hf w env. unfold run. rewrite run_rest_mbind.
  specialize (Hm w env). unfold run in Hm.
  destruct (run_rest (m w) env) as [[w' a|w' err| |w'] env']; simpl in *;
    try done.
  specialize (Hf a w' env'). unfold run in Hf.
  destruct (run_rest (f a w') env') as [[w'' b|w'' err| |w''] env''];
    simpl in *; try done; by eapply same_stores_trans.
Qed.

Lemma writes_last_settles (m : Async A) :
  settles_at_once m → writes_last m.
Proof.
  intros Hm w env. specialize (Hm w env). by destruct (run (m w) env).
Qed.

(** Code that keeps the stores, followed by code that writes last. *)
Lemma writes_last_bind (m : Async A) (f : A → Async B) :
  keeps_stores m → (∀ a, writes_last (f a)) → writes_last (m ≫= f).
Proof.
  intros Hm Hf w env. unfold run. rewrite run_rest_mbind.
  specialize (Hm w env). unfold run in Hm.
  destruct (run_rest (m w) env) as [[w1 a|w1 err1| |w1] env1]; simpl in *;
    try done.
  specialize (Hf a w1 env1). unfold run in Hf.
  destruct (run_rest (f a w1) env1) as [[w2 b|w2 err2| |w2] env2];
    simpl in *; try done; by eapply same_stores_trans.
Qed.
End Frames.

Lemma keeps_await_settled {X : Type} (op : ExtCall X) :
  keeps_stores (await_settled op).
Proof.
  intros w [|r env]; unfold run; simpl; [done |].
  eapply same_stores_trans; [apply same_stores_log |
                             apply same_stores_after_reply].
Qed.

Lemma keeps_yield : keeps_stores yield.
Proof.
  intros w [|r env]; unfold run; simpl; [done |].
  apply same_stores_after_reply.
Qed.

Lemma keeps_getPdfManifest : keeps_stores do_getPdfManifest.
Proof. intros w env. apply same_stores_log. Qed.

Lemma keeps_render_pages remaining pageNum renderedPages :
  keeps_stores (render_pages remaining pageNum renderedPages).
Proof.
  revert pageNum renderedPages.
  induction remaining as [|n IH]; intros pageNum renderedPages; simpl.
  - apply keeps_mret.
  - apply keeps_bind; [apply keeps_await | intros _].
    apply keeps_bind; [apply keeps_await | intros dataUrl]. apply IH.
Qed.

Lemma settles_at_once_mret {A : Type} (a : A) : settles_at_once (mret a).
Proof. intros w env. done. Qed.

Lemma settles_at_once_setPdfPages fuel key value :
  settles_at_once (do_setPdfPages fuel key value).
Proof.
  intros w env. unfold run, do_setPdfPages.
  by destruct (setPdfPages fuel key value (pdfPagesCache w)).
Qed.


(** ** The prefetch coordinators *)

Lemma with_cache_same w : with_cache (pdfPagesCache w) w = w.
Proof. by destruct w. Qed.

Lemma prefetchingSet_after_reply r w :
  prefetchingSet (after_reply r w) = prefetchingSet w.
Proof. unfold after_reply. by destruct (tears_down r). Qed.

Section Prefetch.
Variable NODE_ENV : string.
Variable fuel : nat.
Import JsMapFacts.

Lemma fb_prefetch_hit X v w :
  JsMap.get X (pdfPagesCache w) = Some v →
  FileBrowser.prefetchPdf NODE_ENV fuel X w
  = Returned
      (with_cache (JsMap.set X v (JsMap.delete X (pdfPagesCache w))) w) tt.
Proof.
  intros Hget. unfold FileBrowser.prefetchPdf, mbind, async_bind.
  unfold do_getPdfPages, getPdfPages. rewrite Hget. done.
Qed.

Lemma fb_prefetch_in_flight X w :
  JsMap.get X (pdfPagesCache w) = None → X ∈ prefetchingSet w →
  FileBrowser.prefetchPdf NODE_ENV fuel X w = Returned w tt.
Proof.
  intros Hget Hin. unfold FileBrowser.prefetchPdf, mbind, async_bind.
  unfold do_getPdfPages, getPdfPages. rewrite Hget. simpl.
  rewrite with_cache_same. by rewrite bool_decide_eq_true_2.
Qed.

Lemma fb_prefetch_claims X w :
  JsMap.get X (pdfPagesCache w) = None → X ∉ prefetchingSet w →
  FileBrowser.prefetchPdf NODE_ENV fuel X w
  = try_finally
      (try_catch (FileBrowser.prefetch_body NODE_ENV fuel X) (λ _, mret tt))
      (modify (FileBrowser.prefetchingSet_delete X))
      (FileBrowser.prefetchingSet_add X w).
Proof.
  intros Hget Hin. unfold FileBrowser.prefetchPdf, mbind, async_bind.
  unfold do_getPdfPages, getPdfPages. rewrite Hget. simpl.
  rewrite with_cache_same. by rewrite bool_decide_eq_false_2.
Qed.

Lemma page_prefetch_hit X v w :
  JsMap.get X (pdfPagesCache w) = Some v →
  FilePage.prefetchPdf NODE_ENV fuel X w
  = Returned
      (with_cache (JsMap.set X v (JsMap.delete X (pdfPagesCache w))) w) tt.
Proof.
  intros Hget. unfold FilePage.prefetchPdf, mbind, async_bind.
  unfold do_getPdfPages, getPdfPages. rewrite Hget. done.
Qed.

Lemma page_prefetch_claims X w :
  JsMap.get X (pdfPagesCache w) = None → X ∉ page_prefetchingSet w →
  FilePage.prefetchPdf NODE_ENV fuel X w
  = try_finally
      (try_catch (FilePage.prefetch_body NODE_ENV fuel X) (λ _, mret tt))
      (modify (FilePage.prefetchingSet_delete X))
      (FilePage.prefetchingSet_add X w).
Proof.
  intros Hget Hin. unfold FilePage.prefetchPdf, mbind, async_bind.
  unfold do_getPdfPages, getPdfPages. rewrite Hget. simpl.
  rewrite with_cache_same. by rewrite bool_decide_eq_false_2.
Qed.

(** A call that finds the key neither cached nor in flight claims it
    before it is suspended for the first time, and by then it has asked
    for the manifest and, without a usable entry, for the renderer. *)
Lemma fb_first_suspension X w :
  JsMap.get X (pdfPagesCache w) = None → X ∉ prefetchingSet w →
  ∃ w1,
    suspended_at (FileBrowser.prefetchPdf NODE_ENV fuel X w) = Some w1 ∧
    prefetchingSet w1 = {[X]} ∪ prefetchingSet w ∧
    pdfPagesCache w1 = pdfPagesCache w ∧
    (trace w1 = trace w ++ [ManifestRead] ∨
     trace w1 = trace w ++ [ManifestRead; Called ImportPdfjs]).
Proof.
  intros Hget Hin. rewrite fb_prefetch_claims by done.
  unfold try_finally, try_catch, FileBrowser.prefetch_body.
  unfold mbind, async_bind, do_getPdfManifest. simpl.
  destruct (option_bind _ _ _ _) as [entry|];
    [destruct (decide (0 < pages entry)%Z) |]; simpl;
    eexists; (split; [reflexivity |]); simpl;
    (split; [done |]); (split; [done |]).
  - by left.
  - right. by rewrite <- app_assoc.
  - right. by rewrite <- app_assoc.
Qed.

Lemma page_first_suspension X w :
  JsMap.get X (pdfPagesCache w) = None → X ∉ page_prefetchingSet w →
  ∃ w1,
    suspended_at (FilePage.prefetchPdf NODE_ENV fuel X w) = Some w1 ∧
    page_prefetchingSet w1 = {[X]} ∪ page_prefetchingSet w ∧
    pdfPagesCache w1 = pdfPagesCache w ∧
    trace w1 = trace w ++ [Called ImportPdfjs].
Proof.
  intros Hget Hin. rewrite page_prefetch_claims by done.
  unfold try_finally, try_catch, FilePage.prefetch_body.
  unfold mbind, async_bind. simpl. eexists. done.
Qed.

Lemma writes_last_stored (filePath : string) (renderedPages : list string) :
  writes_last
    (if decide (0 < length renderedPages)
     then do_setPdfPages fuel filePath renderedPages else mret tt).
Proof.
  apply writes_last_settles.
  destruct (decide (0 < length renderedPages));
    [apply settles_at_once_setPdfPages | apply settles_at_once_mret].
Qed.

(** The [try] blocks of the prefetch functions write to the cache as
    their last step: when they throw, and at each of their suspension
    points, they have written nothing. *)
Lemma fb_prefetch_render_writes_last X :
  writes_last (FileBrowser.prefetch_render NODE_ENV fuel X).
Proof.
  unfold FileBrowser.prefetch_render.
  apply writes_last_bind; [apply keeps_await | intros _].
  apply writes_last_bind; [apply keeps_await | intros numPages].
  apply writes_last_bind; [apply keeps_render_pages | intros pages].
  apply writes_last_stored.
Qed.

Lemma fb_prefetch_body_writes_last X :
  writes_last (FileBrowser.prefetch_body NODE_ENV fuel X).
Proof.
  unfold FileBrowser.prefetch_body.
  apply writes_last_bind; [apply keeps_getPdfManifest | intros manifest].
  destruct (manifest ≫= (.!! X)) as [entry|];
    [destruct (decide (0 < pages entry)%Z) |];
    try apply fb_prefetch_render_writes_last.
  unfold FileBrowser.loadPagesFromImages.
  apply writes_last_bind; [apply keeps_mret | intros urls].
  apply writes_last_bind; [apply keeps_yield | intros _].
  apply writes_last_bind; [apply keeps_await_settled | intros _].
  apply writes_last_settles, settles_at_once_setPdfPages.
Qed.

Lemma page_prefetch_body_writes_last X :
  writes_last (FilePage.prefetch_body NODE_ENV fuel X).
Proof.
  unfold FilePage.prefetch_body.
  apply writes_last_bind; [apply keeps_await | intros _].
  apply writes_last_bind; [apply keeps_await | intros numPages].
  apply writes_last_bind; [apply keeps_render_pages | intros pages].
  apply writes_last_stored.
Qed.

(** While a prefetch is suspended, its key is in the in-flight set and
    the cache is the one it found. *)
Lemma fb_prefetch_pending X w env w' :
  JsMap.get X (pdfPagesCache w) = None → X ∉ prefetchingSet w →
  run (FileBrowser.prefetchPdf NODE_ENV fuel X w) env = Pending w' →
  X ∈ prefetchingSet w' ∧ pdfPagesCache w' = pdfPagesCache w.
Proof.
  intros Hget Hfree. rewrite fb_prefetch_claims, run_swallowed by done.
  pose proof (fb_prefetch_body_writes_last X
                (FileBrowser.prefetchingSet_add X w) env) as Hbody.
  destruct (run _ env) as [w1 []|w1 err| |w1]; try done.
  intros [= <-]. destruct Hbody as (Hcache & _ & Hset & _).
  split; [| exact Hcache]. rewrite Hset. simpl.
  apply elem_of_union_l, elem_of_singleton. done.
Qed.
End Prefetch.


Section Refresh.
Variable NODE_ENV : string.
Variable fuel : nat.
Import JsMapFacts.

Lemma delete_app_absent {V : Type} k (m m' : JsMap.t V) :
  k ∉ JsMap.keys m → JsMap.delete k (m ++ m') = m ++ JsMap.delete k m'.
Proof.
  unfold JsMap.keys. induction m as [|[k0 v0] m IH]; simpl; [done |].
  rewrite not_elem_of_cons. intros [Hne Hnin].
  destruct (decide (k0 = k)); [congruence |]. by rewrite IH.
Qed.

(** Reading a key twice in a row: the second read changes nothing. *)
Lemma refresh_twice X v (c : PdfPagesCache) :
  JsMap.wf c →
  let c' := JsMap.set X v (JsMap.delete X c) in
  JsMap.get X c' = Some v ∧ JsMap.set X v (JsMap.delete X c') = c'.
Proof.
  intros Hwf c'. split; [apply get_set_eq |]. unfold c'.
  pose proof (delete_not_in X c Hwf) as Hnin.
  rewrite (set_absent X v (JsMap.delete X c)) by done.
  rewrite delete_app_absent by done. simpl.
  destruct (decide (X = X)); [| done]. rewrite app_nil_r.
  by apply set_absent.
Qed.
End Refresh.


Section PrefetchHit.
Variable NODE_ENV : string.
Variable fuel : nat.
Import JsMapFacts.

(** C7, as the code has it.  A call for a cached key returns at once, in
    either module; it asks nothing of the manifest or of the renderer and
    leaves both in-flight sets alone.  The cache keeps its entries, with
    the same values, and the other keys keep their order; the key itself
    becomes the most recently used, because the test of [prefetchPdf] is a
    call of [getPdfPages]. *)
Theorem prefetch_hit_only_refreshes_recency X v w :
  JsMap.wf (pdfPagesCache w) → JsMap.get X (pdfPagesCache w) = Some v →
  ∃ w',
    FileBrowser.prefetchPdf NODE_ENV fuel X w = Returned w' tt ∧
    FilePage.prefetchPdf NODE_ENV fuel X w = Returned w' tt ∧
    trace w' = trace w ∧
    prefetchingSet w' = prefetchingSet w ∧
    page_prefetchingSet w' = page_prefetchingSet w ∧
    (∀ k, JsMap.get k (pdfPagesCache w') = JsMap.get k (pdfPagesCache w)) ∧
    JsMap.size (pdfPagesCache w') = JsMap.size (pdfPagesCache w) ∧
    pdfPagesCache w' = JsMap.delete X (pdfPagesCache w) ++ [(X, v)].
Proof.
  intros Hwf Hget. eexists.
  split; [by apply fb_prefetch_hit |].
  split; [by apply page_prefetch_hit |]. simpl.
  split; [done |]. split; [done |]. split; [done |].
  pose proof (delete_not_in X (pdfPagesCache w) Hwf) as Hnin.
  assert (X ∈ JsMap.keys (pdfPagesCache w)) as Hin
    by (apply get_Some_keys; eauto).
  split; [| split].
  - intros k. destruct (decide (X = k)) as [<-|Hne].
    + by rewrite get_set_eq.
    + rewrite get_set_ne by done. by apply get_delete_ne.
  - rewrite set_absent by done. unfold JsMap.size. rewrite length_app.
    simpl. pose proof (length_delete_present X _ Hin). lia.
  - by apply set_absent.
Qed.
End PrefetchHit.

Lemma prefetch_hit_only_refreshes_recency_witness :
  ∃ w',
    FileBrowser.prefetchPdf "production" 1 "X.pdf" cached_world
    = Returned w' tt ∧
    FilePage.prefetchPdf "production" 1 "X.pdf" cached_world
    = Returned w' tt ∧
    trace w' = trace cached_world ∧
    prefetchingSet w' = prefetchingSet cached_world ∧
    page_prefetchingSet w' = page_prefetchingSet cached_world ∧
    (∀ k, JsMap.get k (pdfPagesCache w')
          = JsMap.get k (pdfPagesCache cached_world)) ∧
    JsMap.size (pdfPagesCache w') = JsMap.size (pdfPagesCache cached_world) ∧
    pdfPagesCache w'
    = JsMap.delete "X.pdf" (pdfPagesCache cached_world)
        ++ [("X.pdf", ["X.pdf#1"])].
Proof.
  apply (prefetch_hit_only_refreshes_recency "production" 1 "X.pdf"
           ["X.pdf#1"] cached_world).
  - by_compute.
  - reflexivity.
Defined.

(** C7 as it is stated fails: ["X.pdf"] is cached and older than ["Y.pdf"];
    after [prefetchPdf] it is the younger of the two. *)
Lemma prefetch_hit_changes_recency :
  ∃ w',
    FileBrowser.prefetchPdf "production" 1 "X.pdf" cached_world
    = Returned w' tt ∧
    JsMap.keys (pdfPagesCache cached_world) = ["X.pdf"; "Y.pdf"] ∧
    JsMap.keys (pdfPagesCache w') = ["Y.pdf"; "X.pdf"] ∧
    pdfPagesCache w' ≠ pdfPagesCache cached_world.
Proof. eexists. split; [reflexivity |]. done. Qed.

Section PrefetchFailure.
Variable NODE_ENV : string.
Variable fuel : nat.
Import JsMapFacts.

(** The error of a prefetch never reaches the caller. *)
Lemma fb_prefetch_never_throws X :
  never_throws (FileBrowser.prefetchPdf NODE_ENV fuel X).
Proof.
  intros w env w' err.
  destruct (JsMap.get X (pdfPagesCache w)) as [v|] eqn:Hget.
  { by rewrite (fb_prefetch_hit _ _ X v). }
  destruct (decide (X ∈ prefetchingSet w)) as [Hin|Hnin].
  { by rewrite fb_prefetch_in_flight. }
  rewrite fb_prefetch_claims, run_swallowed by done.
  by destruct (run _ env).
Qed.

Lemma page_prefetch_never_throws X :
  never_throws (FilePage.prefetchPdf NODE_ENV fuel X).
Proof.
  intros w env w' err.
  destruct (JsMap.get X (pdfPagesCache w)) as [v|] eqn:Hget.
  { by rewrite (page_prefetch_hit _ _ X v). }
  destruct (decide (X ∈ page_prefetchingSet w)) as [Hin|Hnin].
  { unfold FilePage.prefetchPdf, mbind, async_bind.
    unfold do_getPdfPages, getPdfPages. rewrite Hget. simpl.
    by rewrite bool_decide_eq_true_2. }
  rewrite page_prefetch_claims, run_swallowed by done.
  by destruct (run _ env).
Qed.

(** C4.  [Y] is neither cached nor in flight, and the [try] block of
    [prefetchPdf] throws (the import, the fetch of the document, or the
    rendering of a page is rejected).  Then the call finishes without an
    error; [Y] is not in the in-flight set; the cache is the one the call
    found, so [getPdfPages] still misses; and the next call for [Y] claims
    the key and starts the work again.  This holds for the function of
    the file browser and for the one of the file page; neither ever
    passes an error on to its caller. *)
Theorem prefetch_failure_is_swallowed Y w env wb err :
  Y ∉ JsMap.keys (pdfPagesCache w) →
  (never_throws (FileBrowser.prefetchPdf NODE_ENV fuel Y) ∧
   never_throws (FilePage.prefetchPdf NODE_ENV fuel Y)) ∧
  (Y ∉ prefetchingSet w →
   run (FileBrowser.prefetch_body NODE_ENV fuel Y
          (FileBrowser.prefetchingSet_add Y w)) env = Failed wb err →
   ∃ w',
     run (FileBrowser.prefetchPdf NODE_ENV fuel Y w) env = Finished w' tt ∧
     (Y ∉ prefetchingSet w') ∧
     pdfPagesCache w' = pdfPagesCache w ∧
     (getPdfPages Y (pdfPagesCache w')).1 = None ∧
     ∃ w'' evs,
       suspended_at (FileBrowser.prefetchPdf NODE_ENV fuel Y w') = Some w'' ∧
       Y ∈ prefetchingSet w'' ∧
       trace w'' = trace w' ++ ManifestRead :: evs) ∧
  (Y ∉ page_prefetchingSet w →
   run (FilePage.prefetch_body NODE_ENV fuel Y
          (FilePage.prefetchingSet_add Y w)) env = Failed wb err →
   ∃ w',
     run (FilePage.prefetchPdf NODE_ENV fuel Y w) env = Finished w' tt ∧
     (Y ∉ page_prefetchingSet w') ∧
     pdfPagesCache w' = pdfPagesCache w ∧
     (getPdfPages Y (pdfPagesCache w')).1 = None ∧
     ∃ w'',
       suspended_at (FilePage.prefetchPdf NODE_ENV fuel Y w') = Some w'' ∧
       Y ∈ page_prefetchingSet w'' ∧
       trace w'' = trace w' ++ [Called ImportPdfjs]).
Proof.
  intros Hnin. apply get_None_keys in Hnin as Hget.
  split; [split; [apply fb_prefetch_never_throws
                 | apply page_prefetch_never_throws] |].
  split.
  - intros Hfree Hbody.
    pose proof (fb_prefetch_body_writes_last NODE_ENV fuel Y
                  (FileBrowser.prefetchingSet_add Y w) env) as Hlast.
    rewrite Hbody in Hlast. destruct Hlast as (Hcache & _ & Hset & _).
    simpl in Hcache, Hset.
    exists (FileBrowser.prefetchingSet_delete Y wb).
    split; [by rewrite fb_prefetch_claims, run_swallowed, Hbody |].
    assert (Y ∉ prefetchingSet (FileBrowser.prefetchingSet_delete Y wb))
      as Hgone by (simpl; apply not_elem_of_difference; right;
                  by apply elem_of_singleton).
    split; [exact Hgone |]. split; [done |].
    split; [simpl; rewrite Hcache; by rewrite getPdfPages_absent |].
    destruct (fb_first_suspension NODE_ENV fuel Y
                (FileBrowser.prefetchingSet_delete Y wb))
      as (w'' & Hsusp & Hset' & _ & Htrace);
      [simpl; by rewrite Hcache | exact Hgone |].
    exists w''. destruct Htrace as [Htr|Htr]; eexists;
      (split; [exact Hsusp |]);
      (split; [| exact Htr]);
      rewrite Hset'; by apply elem_of_union_l, elem_of_singleton.
  - intros Hfree Hbody.
    pose proof (page_prefetch_body_writes_last NODE_ENV fuel Y
                  (FilePage.prefetchingSet_add Y w) env) as Hlast.
    rewrite Hbody in Hlast. destruct Hlast as (Hcache & _ & _ & Hset).
    simpl in Hcache, Hset.
    exists (FilePage.prefetchingSet_delete Y wb).
    split; [by rewrite page_prefetch_claims, run_swallowed, Hbody |].
    assert (Y ∉ page_prefetchingSet (FilePage.prefetchingSet_delete Y wb))
      as Hgone by (simpl; apply not_elem_of_difference; right;
                  by apply elem_of_singleton).
    split; [exact Hgone |]. split; [done |].
    split; [simpl; rewrite Hcache; by rewrite getPdfPages_absent |].
    destruct (page_first_suspension NODE_ENV fuel Y
                (FilePage.prefetchingSet_delete Y wb))
      as (w'' & Hsusp & Hset' & _ & Htrace);
      [simpl; by rewrite Hcache | exact Hgone |].
    exists w''. split; [exact Hsusp |].
    split; [| exact Htrace].
    rewrite Hset'. by apply elem_of_union_l, elem_of_singleton.
Qed.
End PrefetchFailure.


Lemma prefetch_failure_is_swallowed_witness :
  (∃ w',
     run (FileBrowser.prefetchPdf "production" 1 "Y.pdf" fresh_world)
       [ok; no_document] = Finished w' tt ∧
     ("Y.pdf" ∉ prefetchingSet w') ∧
     pdfPagesCache w' = pdfPagesCache fresh_world ∧
     (getPdfPages "Y.pdf" (pdfPagesCache w')).1 = None ∧
     ∃ w'' evs,
       suspended_at (FileBrowser.prefetchPdf "production" 1 "Y.pdf" w')
       = Some w'' ∧
       "Y.pdf" ∈ prefetchingSet w'' ∧
       trace w'' = trace w' ++ ManifestRead :: evs) ∧
  (∃ w',
     run (FilePage.prefetchPdf "production" 1 "Y.pdf" fresh_world)
       [ok; no_document] = Finished w' tt ∧
     ("Y.pdf" ∉ page_prefetchingSet w') ∧
     pdfPagesCache w' = pdfPagesCache fresh_world ∧
     (getPdfPages "Y.pdf" (pdfPagesCache w')).1 = None ∧
     ∃ w'',
       suspended_at (FilePage.prefetchPdf "production" 1 "Y.pdf" w')
       = Some w'' ∧
       "Y.pdf" ∈ page_prefetchingSet w'' ∧
       trace w'' = trace w' ++ [Called ImportPdfjs]).
Proof.
  split.
  - eapply (prefetch_failure_is_swallowed "production" 1 "Y.pdf" fresh_world
              [ok; no_document]).
    + apply not_elem_of_nil.
    + apply not_elem_of_empty.
    + reflexivity.
  - eapply (prefetch_failure_is_swallowed "production" 1 "Y.pdf" fresh_world
              [ok; no_document]).
    + apply not_elem_of_nil.
    + apply not_elem_of_empty.
    + reflexivity.
Defined.

(** ** Page numbers *)

Section PageNumbers.
Import Strings.Ascii.

(** A number is not written with a leading zero. *)
Lemma pretty_N_go_head (x : N) (s : string) :
  (0 < x)%N →
  ∃ a rest, pretty_N_go x s = String a rest ∧ a ≠ "0"%char.
Proof.
  revert s. induction (N.lt_wf_0 x) as [x _ IH]; intros s Hx.
  rewrite pretty_N_go_step by done.
  destruct (decide (x `div` 10 = 0)%N) as [Hd|Hd].
  - rewrite Hd, pretty_N_go_0. eexists _, _. split; [done|].
    apply N.div_small_iff in Hd; [|done].
    rewrite N.mod_small by done.
    assert (x = 1 ∨ x = 2 ∨ x = 3 ∨ x = 4 ∨ x = 5 ∨ x = 6 ∨ x = 7
            ∨ x = 8 ∨ x = 9)%N as Hcases by lia.
    by repeat (destruct Hcases as [->|Hcases]; [done|]); subst.
  - apply IH; [by apply N.div_lt|by apply N.neq_0_lt_0].
Qed.

Lemma pretty_page_head (pageNum : Z) :
  (1 ≤ pageNum)%Z →
  ∃ a rest, pretty pageNum = String a rest ∧ a ≠ "0"%char.
Proof.
  intros Hp. destruct pageNum as [|p|p]; [lia| |lia].
  unfold pretty, pretty_Z, pretty, pretty_positive, pretty, pretty_N.
  rewrite decide_False by done. by apply pretty_N_go_head.
Qed.

Lemma is_digit_pretty_N_char (d : N) :
  JsString.is_digit (pretty_N_char d) = true.
Proof. unfold pretty_N_char. by repeat case_match. Qed.

Lemma digits_pretty_N_go (x : N) (s : string) :
  JsString.digits s = s →
  JsString.digits (pretty_N_go x s) = pretty_N_go x s.
Proof.
  revert s. induction (N.lt_wf_0 x) as [x _ IH]; intros s Hs.
  destruct (decide (x = 0)%N) as [->|Hx]; [by rewrite pretty_N_go_0|].
  rewrite pretty_N_go_step by lia.
  apply IH; [apply N.div_lt; lia|].
  simpl. by rewrite is_digit_pretty_N_char, Hs.
Qed.

Lemma digit_value_pretty_N_char (d : N) :
  (d < 10)%N →
  (Z.of_nat (nat_of_ascii (pretty_N_char d)) - 48)%Z = Z.of_N d.
Proof.
  intros Hd.
  assert (d = 0 ∨ d = 1 ∨ d = 2 ∨ d = 3 ∨ d = 4 ∨ d = 5 ∨ d = 6 ∨ d = 7
          ∨ d = 8 ∨ d = 9)%N as Hcases by lia.
  by repeat (destruct Hcases as [->|Hcases]; [done|]); subst.
Qed.

(** Read back, the digits of a number give the number. *)
Lemma numeral_from_pretty_N_go (x : N) (s : string) :
  numeral_from 0 (pretty_N_go x s) = numeral_from (Z.of_N x) s.
Proof.
  revert s. induction (N.lt_wf_0 x) as [x _ IH]; intros s.
  destruct (decide (x = 0)%N) as [->|Hx]; [by rewrite pretty_N_go_0|].
  rewrite pretty_N_go_step by lia.
  rewrite IH by (apply N.div_lt; lia). cbn [numeral_from].
  rewrite digit_value_pretty_N_char by (apply N.mod_lt; lia).
  f_equal. rewrite (N.div_mod x 10) at 3 by lia. lia.
Qed.

Lemma length_pretty_N_go (x : N) (s : string) :
  String.length s ≤ String.length (pretty_N_go x s).
Proof.
  revert s. induction (N.lt_wf_0 x) as [x _ IH]; intros s.
  destruct (decide (x = 0)%N) as [->|Hx]; [by rewrite pretty_N_go_0|].
  rewrite pretty_N_go_step by lia.
  etrans; [|apply IH; apply N.div_lt; lia]. simpl. lia.
Qed.

Lemma pretty_page_unfold (pageNum : Z) :
  (1 ≤ pageNum)%Z → pretty pageNum = pretty_N_go (Z.to_N pageNum) "".
Proof.
  intros Hp. destruct pageNum as [|p|p]; [lia| |lia].
  unfold pretty, pretty_Z, pretty, pretty_positive, pretty, pretty_N.
  by rewrite decide_False.
Qed.

(** [pretty] writes a page number as its decimal numeral. *)
Lemma pretty_page_numeral (pageNum : Z) :
  (1 ≤ pageNum)%Z → decimal_numeral (pretty pageNum) pageNum.
Proof.
  intros Hp. split; [|split].
  - rewrite pretty_page_unfold by done. by apply digits_pretty_N_go.
  - destruct (pretty_page_head pageNum Hp) as (a & rest & -> & Ha).
    cbn [String.prefix]. by destruct (ascii_dec "0" a) as [<-|].
  - rewrite pretty_page_unfold, numeral_from_pretty_N_go by done.
    simpl. lia.
Qed.

(** Pages 1 to 999 are written with their three digits. *)
Lemma pageStr_below_1000 (pageNum : Z) :
  (1 ≤ pageNum ≤ 999)%Z →
  padStart 3 "0" (pretty pageNum) = three_digits pageNum.
Proof.
  intros Hp.
  assert (forallb (λ p, String.eqb (padStart 3 "0" (pretty p))
                          (three_digits p))
            (seqZ 1 999) = true) as Hall by (vm_compute; reflexivity).
  rewrite forallb_forall in Hall. apply String.eqb_eq, Hall.
  apply list_elem_of_In, elem_of_seqZ. lia.
Qed.

(** From page 1000 on nothing is padded. *)
Lemma pageStr_from_1000 (pageNum : Z) :
  (1000 ≤ pageNum)%Z →
  padStart 3 "0" (pretty pageNum) = pretty pageNum ∧
  3 < String.length (pretty pageNum).
Proof.
  intros Hp.
  assert (3 < String.length (pretty pageNum)) as Hlen.
  { rewrite pretty_page_unfold by lia.
    assert (1000 ≤ Z.to_N pageNum)%N as Hx by lia.
    revert Hx. generalize (Z.to_N pageNum). intros x Hx.
    assert (0 < x `div` 10)%N by (apply N.div_str_pos; lia).
    assert (0 < (x `div` 10) `div` 10)%N.
    { apply N.div_str_pos. split; [lia|].
      apply N.div_le_lower_bound; lia. }
    assert (0 < ((x `div` 10) `div` 10) `div` 10)%N.
    { apply N.div_str_pos. split; [lia|].
      apply N.div_le_lower_bound; [lia|].
      apply N.div_le_lower_bound; lia. }
    rewrite (pretty_N_go_step x) by lia.
    rewrite (pretty_N_go_step (x `div` 10)) by lia.
    rewrite (pretty_N_go_step ((x `div` 10) `div` 10)) by lia.
    rewrite (pretty_N_go_step (((x `div` 10) `div` 10) `div` 10)) by lia.
    eapply Nat.lt_le_trans; [|apply length_pretty_N_go]. simpl. lia. }
  split; [|done]. unfold padStart. rewrite decide_True; [done|lia].
Qed.
End PageNumbers.

(** ** The manifest path *)

Section Manifest.
Variable NODE_ENV : string.
Variable fuel : nat.

Lemma push_page_urls_seqZ n filePath i urls :
  FileBrowser.push_page_urls NODE_ENV n filePath i urls
  = urls ++ (FileBrowser.getPageImageUrl NODE_ENV filePath
               <$> seqZ i (Z.of_nat n)).
Proof.
  revert i urls. induction n as [|n IH]; intros i urls.
  - simpl. by rewrite app_nil_r.
  - cbn [FileBrowser.push_page_urls]. rewrite IH, <- app_assoc. simpl.
    rewrite (seqZ_cons i (Z.of_nat (S n))) by lia.
    replace (Z.pred (Z.of_nat (S n))) with (Z.of_nat n) by lia.
    by replace (Z.succ i) with (i + 1)%Z by lia.
Qed.

(** The URLs of a document with [pageCount] pages: one for each page from
    1 to [pageCount], in that order. *)
Lemma loadPagesFromImages_urls filePath pageCount w :
  (0 < pageCount)%Z →
  FileBrowser.loadPagesFromImages NODE_ENV filePath pageCount w
  = Returned w (FileBrowser.getPageImageUrl NODE_ENV filePath
                  <$> seqZ 1 pageCount).
Proof.
  intros Hpos. unfold FileBrowser.loadPagesFromImages.
  rewrite push_page_urls_seqZ. simpl. by rewrite Z2Nat.id by lia.
Qed.

(** Pages 1 to 999 are written with three digits. *)
Lemma pageStr_three_digits (pageNum : Z) :
  (1 ≤ pageNum ≤ 999)%Z →
  String.length (padStart 3 "0" (pretty pageNum)) = 3.
Proof.
  intros Hp.
  assert (forallb (λ p, String.length (padStart 3 "0" (pretty p)) =? 3)
            (seqZ 1 999) = true) as Hall by (vm_compute; reflexivity).
  rewrite forallb_forall in Hall. apply Nat.eqb_eq, Hall.
  apply list_elem_of_In, elem_of_seqZ. lia.
Qed.
End Manifest.


Section ManifestTheorems.
Variable NODE_ENV : string.
Variable fuel : nat.

Lemma pdfPagesCache_after_reply r w :
  pdfPagesCache (after_reply r w) = pdfPagesCache w.
Proof. unfold after_reply. by destruct (tears_down r). Qed.

Lemma trace_after_reply r w :
  trace (after_reply r w)
  = trace w ++ (if tears_down r then [TornDown] else []).
Proof.
  unfold after_reply. destruct (tears_down r); simpl; [done |].
  by rewrite app_nil_r.
Qed.

(** The [try] block on the manifest path, resumed twice. *)
Lemma fb_manifest_body_run Z N m w r1 r2 env :
  pdfManifest w = Some m → m !! Z = Some {| pages := N |} → (0 < N)%Z →
  let urls := FileBrowser.getPageImageUrl NODE_ENV Z <$> seqZ 1 N in
  run (FileBrowser.prefetch_body NODE_ENV fuel Z w) (r1 :: r2 :: env)
  = match setPdfPages fuel Z urls (pdfPagesCache w) with
    | Some c =>
        Finished
          (log (CacheSet Z urls)
             (with_cache c
                (after_reply r2
                   (log (Called (LoadImages urls))
                      (after_reply r1 (log ManifestRead w)))))) tt
    | None => NeverReturns
    end.
Proof.
  intros Hm Hentry HN urls.
  unfold FileBrowser.prefetch_body, mbind, async_bind, do_getPdfManifest.
  unfold run. cbn [susp_bind]. rewrite Hm. cbn [option_bind].
  rewrite Hentry. cbn [pages].
  destruct (decide (0 < N)%Z); [| lia].
  rewrite loadPagesFromImages_urls by done. fold urls.
  cbn [susp_bind yield run_rest await_settled]. unfold do_setPdfPages.
  rewrite !pdfPagesCache_after_reply. cbn [pdfPagesCache log].
  rewrite !pdfPagesCache_after_reply. cbn [pdfPagesCache log].
  by destruct (setPdfPages fuel Z urls (pdfPagesCache w)).
Qed.

(** C5, as the code has it.  In the file browser, a key with a manifest
    entry of [N > 0] pages that is neither cached nor in flight is
    prefetched without the renderer: the pages are the [N] URLs that
    [getPageImageUrl] gives for pages 1 to [N], in that order, and what
    the call does to the outside is one manifest lookup, one batch of
    image loads, and the cache write (which ends the call, or never
    returns when the eviction loop does not).  The URL of a page is the
    worker's address, [/pdfs-as-jpegs/], the key without its first
    [.pdf], [/page-], the page string and [.jpg], and the page string is
    the page number padded with zeros to three characters: page 7 is
    [page-007].  For page numbers from 1 to [MAX_SAFE_INTEGER] the number
    is written as its decimal numeral; for pages 1 to 999 the page string
    is exactly the three decimal digits of the number, hundreds, tens and
    units; from page 1000 on it is the numeral itself, four characters or
    more, with no padding.  In the file page the same key goes straight
    to the renderer: the first thing [prefetchPdf] does there is to
    import it, and the manifest is not read. *)
Theorem prefetch_prefers_manifest Z N m w r1 r2 env :
  pdfManifest w = Some m → m !! Z = Some {| pages := N |} → (0 < N)%Z →
  JsMap.get Z (pdfPagesCache w) = None → Z ∉ prefetchingSet w →
  let urls := FileBrowser.getPageImageUrl NODE_ENV Z <$> seqZ 1 N in
  length urls = Z.to_nat N ∧
  (∀ i : nat, (Z.of_nat i < N)%Z →
     urls !! i
     = Some (FileBrowser.getPageImageUrl NODE_ENV Z (Z.of_nat i + 1))) ∧
  match run (FileBrowser.prefetchPdf NODE_ENV fuel Z w) (r1 :: r2 :: env)
  with
  | Finished w' _ =>
      setPdfPages fuel Z urls (pdfPagesCache w) = Some (pdfPagesCache w') ∧
      (Z ∉ prefetchingSet w') ∧
      trace w'
      = trace w ++ [ManifestRead]
          ++ (if tears_down r1 then [TornDown] else [])
          ++ [Called (LoadImages urls)]
          ++ (if tears_down r2 then [TornDown] else [])
          ++ [CacheSet Z urls]
  | NeverReturns => setPdfPages fuel Z urls (pdfPagesCache w) = None
  | Failed _ _ | Pending _ => False
  end ∧
  FileBrowser.getPageImageUrl NODE_ENV Z 7
  = FileBrowser.WORKER_URL NODE_ENV +:+ "/pdfs-as-jpegs/"
      +:+ replace_first ".pdf" "" Z +:+ "/page-007.jpg" ∧
  (∀ pageNum, (1 ≤ pageNum ≤ 999)%Z →
     ∃ pageStr,
       String.length pageStr = 3 ∧
       FileBrowser.getPageImageUrl NODE_ENV Z pageNum
       = FileBrowser.WORKER_URL NODE_ENV +:+ "/pdfs-as-jpegs/"
           +:+ replace_first ".pdf" "" Z +:+ "/page-" +:+ pageStr
           +:+ ".jpg") ∧
  (∀ pageNum, (1 ≤ pageNum ≤ MAX_SAFE_INTEGER)%Z →
     FileBrowser.getPageImageUrl NODE_ENV Z pageNum
     = FileBrowser.WORKER_URL NODE_ENV +:+ "/pdfs-as-jpegs/"
         +:+ replace_first ".pdf" "" Z +:+ "/page-"
         +:+ padStart 3 "0" (pretty pageNum) +:+ ".jpg") ∧
  (∀ pageNum, (1 ≤ pageNum ≤ MAX_SAFE_INTEGER)%Z →
     decimal_numeral (pretty pageNum) pageNum) ∧
  (∀ pageNum, (1 ≤ pageNum ≤ 999)%Z →
     padStart 3 "0" (pretty pageNum) = three_digits pageNum) ∧
  (∀ pageNum, (1000 ≤ pageNum ≤ MAX_SAFE_INTEGER)%Z →
     padStart 3 "0" (pretty pageNum) = pretty pageNum ∧
     3 < String.length (pretty pageNum)) ∧
  (Z ∉ page_prefetchingSet w →
   ∃ w1,
     suspended_at (FilePage.prefetchPdf NODE_ENV fuel Z w) = Some w1 ∧
     trace w1 = trace w ++ [Called ImportPdfjs]).
Proof.
  intros Hm Hentry HN Hget Hfree urls.
  split; [unfold urls; rewrite length_fmap, length_seqZ; done |].
  split.
  { intros i Hi. unfold urls. rewrite list_lookup_fmap.
    rewrite lookup_seqZ_lt by lia. simpl. do 2 f_equal. lia. }
  split.
  { rewrite fb_prefetch_claims, run_swallowed by done.
    rewrite (fb_manifest_body_run Z N m) by done. fold urls.
    cbn [pdfPagesCache FileBrowser.prefetchingSet_add with_prefetchingSet].
    destruct (setPdfPages fuel Z urls (pdfPagesCache w)) as [c|]; [| done].
    split; [done |]. split.
    - cbn [FileBrowser.prefetchingSet_delete prefetchingSet
             with_prefetchingSet].
      apply not_elem_of_difference. right. by apply elem_of_singleton.
    - cbn [trace FileBrowser.prefetchingSet_delete with_prefetchingSet log
             with_cache].
      rewrite trace_after_reply. cbn [trace log].
      rewrite trace_after_reply. cbn [trace log].
      by rewrite <- !app_assoc. }
  split; [done |]. split.
  { intros pageNum Hp. exists (padStart 3 "0" (pretty pageNum)).
    split; [by apply pageStr_three_digits | done]. }
  split; [done |].
  split; [intros pageNum [Hp _]; by apply pretty_page_numeral |].
  split; [apply pageStr_below_1000 |].
  split; [intros pageNum [Hp _]; by apply pageStr_from_1000 |].
  intros Hpage.
  destruct (page_first_suspension NODE_ENV fuel Z w Hget Hpage)
    as (w1 & Hsusp & _ & _ & Htrace).
  by exists w1.
Qed.
End ManifestTheorems.

Lemma prefetch_prefers_manifest_witness :
  let urls := FileBrowser.getPageImageUrl "production" "Z.pdf" <$> seqZ 1 3 in
  match run (FileBrowser.prefetchPdf "production" 1 "Z.pdf" manifest_world)
          [ok; ok]
  with
  | Finished w' _ =>
      setPdfPages 1 "Z.pdf" urls (pdfPagesCache manifest_world)
      = Some (pdfPagesCache w') ∧
      ("Z.pdf" ∉ prefetchingSet w') ∧
      trace w'
      = trace manifest_world ++ [ManifestRead]
          ++ (if tears_down ok then [TornDown] else [])
          ++ [Called (LoadImages urls)]
          ++ (if tears_down ok then [TornDown] else [])
          ++ [CacheSet "Z.pdf" urls]
  | NeverReturns =>
      setPdfPages 1 "Z.pdf" urls (pdfPagesCache manifest_world) = None
  | Failed _ _ | Pending _ => False
  end ∧
  FileBrowser.getPageImageUrl "production" "Z.pdf" 42
  = FileBrowser.WORKER_URL "production" +:+ "/pdfs-as-jpegs/"
      +:+ replace_first ".pdf" "" "Z.pdf" +:+ "/page-"
      +:+ padStart 3 "0" (pretty 42%Z) +:+ ".jpg" ∧
  padStart 3 "0" (pretty 42%Z) = three_digits 42 ∧
  decimal_numeral (pretty 1234%Z) 1234 ∧
  padStart 3 "0" (pretty 1234%Z) = pretty 1234%Z.
Proof.
  intros urls.
  destruct (prefetch_prefers_manifest "production" 1 "Z.pdf" 3
              {[ "Z.pdf" := {| pages := 3 |} ]} manifest_world ok ok [])
    as (_ & _ & Hrun & _ & _ & Hurl & Hnumeral & Hthree & Hlong & _).
  - reflexivity.
  - vm_compute. reflexivity.
  - reflexivity.
  - reflexivity.
  - apply not_elem_of_empty.
  - split; [exact Hrun|]. split; [apply Hurl; by_compute|].
    split; [apply Hthree; lia|].
    split; [apply Hnumeral; by_compute|apply Hlong; by_compute].
Defined.

(** The three URLs of ["Z.pdf"]. *)
Example urls_of_Z :
  FileBrowser.getPageImageUrl "production" "Z.pdf" <$> seqZ 1 3
  = ["https://epstein-files.rhys-669.workers.dev/pdfs-as-jpegs/Z/page-001.jpg";
     "https://epstein-files.rhys-669.workers.dev/pdfs-as-jpegs/Z/page-002.jpg";
     "https://epstein-files.rhys-669.workers.dev/pdfs-as-jpegs/Z/page-003.jpg"].
Proof. vm_compute. reflexivity. Qed.

(** C5 as it is stated fails for the file page: the manifest records three
    pages for ["Z.pdf"], and [prefetchPdf] fetches the document and renders
    its pages; the manifest is not read and the cache receives the rendered
    pages instead of the three URLs.  It also fails for long documents:
    [padStart] only pads, and page 1000 has four digits. *)
Lemma page_prefetch_ignores_manifest :
  getPageCount (pdfManifest manifest_world) "Z.pdf" = Some 3%Z ∧
  FileBrowser.getPageImageUrl "production" "Z.pdf" 1000
  = "https://epstein-files.rhys-669.workers.dev/pdfs-as-jpegs/Z/page-1000.jpg" ∧
  match run (FilePage.prefetchPdf "production" 1 "Z.pdf" manifest_world)
          [ok; ok; ok; ok; ok; ok; ok; ok]
  with
  | Finished w' _ =>
      trace w'
      = [Called ImportPdfjs;
         Called
           (GetDocument "https://epstein-files.rhys-669.workers.dev/Z.pdf");
         Called (GetPage 1); Called (RenderPage 1);
         Called (GetPage 2); Called (RenderPage 2);
         Called (GetPage 3); Called (RenderPage 3);
         CacheSet "Z.pdf" ["data:1"; "data:2"; "data:3"]] ∧
      pdfPagesCache w' = [("Z.pdf", ["data:1"; "data:2"; "data:3"])]
  | _ => False
  end.
Proof. vm_compute. done. Qed.

(** ** The load effects *)

(** C8 (once the flag is set, the load writes neither the cache nor the
    state of the view) fails for the pages of the view.  A document without
    a manifest entry is opened, and the view is torn down while its first
    page is being rendered.  When the rendering completes, the loop pushes
    the page and calls [setPages] without looking at the flag: one write to
    the state of the view after the cancellation, in the file browser and
    in the file page alike.  The tests before the next page, before the
    cache write, and in [catch] and [finally] hold everything else back
    ([load_writes_at_most_one_late_setPages] below). *)
Theorem load_writes_pages_after_teardown :
  match run (FileBrowser.load_effect "production" 1 "Y.pdf" fresh_world)
          [ok; ok; ok; ok_torn_down]
  with
  | Finished w' _ =>
      cancelled w' = true ∧
      writes_after_teardown (trace w') = [StateSet (SetPages ["data:1"])] ∧
      st_pages w' = ["data:1"]
  | _ => False
  end ∧
  match run (FilePage.load_effect "production" 1 "Y.pdf" fresh_world)
          [ok; ok; ok; ok_torn_down]
  with
  | Finished w' _ =>
      cancelled w' = true ∧
      writes_after_teardown (trace w') = [StateSet (SetPages ["data:1"])] ∧
      st_pages w' = ["data:1"]
  | _ => False
  end.
Proof. vm_compute. done. Qed.


(** ** Cancellation of the load effects *)

Section Cancellation.
Context {A B : Type}.

Lemma hoare_bind (P : World → Prop) (m : Async A) (Q : A → World → Prop)
    (f : A → Async B) (Q' : B → World → Prop) (R : World → Prop) :
  hoare P m Q R → (∀ a, hoare (Q a) (f a) Q' R) → hoare P (m ≫= f) Q' R.
Proof.
  intros Hm Hf w env HP. unfold run. rewrite run_rest_mbind.
  specialize (Hm w env HP). unfold run in Hm.
  destruct (run_rest (m w) env) as [[w1 a|w1 err1| |w1] env1]; simpl in *;
    try done.
  apply (Hf a w1 env1 Hm).
Qed.

Lemma hoare_weaken (P P' : World → Prop) (m : Async A)
    (Q Q' : A → World → Prop) (R : World → Prop) :
  hoare P' m Q' R → (∀ w, P w → P' w) → (∀ a w, Q' a w → Q a w) →
  hoare P m Q R.
Proof.
  intros Hm HP HQ w env Hw. specialize (Hm w env (HP w Hw)).
  destruct (run (m w) env); auto.
Qed.

Lemma hoare_mret (P : World → Prop) (a : A) (R : World → Prop) :
  hoare P (mret a) (λ _, P) R.
Proof. intros w env HP. exact HP. Qed.

Lemma hoare_gets (P : World → Prop) (f : World → A) (R : World → Prop) :
  hoare P (gets f) (λ a w, P w ∧ a = f w) R.
Proof. intros w env HP. done. Qed.

Lemma hoare_catch (P : World → Prop) (body : Async A)
    (handler : JsError → Async A) (Q : A → World → Prop)
    (R : World → Prop) :
  hoare P body Q R → (∀ err, hoare R (handler err) Q R) →
  hoare P (try_catch body handler) Q R.
Proof.
  intros Hbody Hh w env HP. unfold run, try_catch. rewrite run_rest_catch.
  specialize (Hbody w env HP). unfold run in Hbody.
  destruct (run_rest (body w) env) as [[w1 a|w1 err1| |w1] env1];
    simpl in *; try done.
  apply (Hh err1 w1 env1 Hbody).
Qed.

Lemma hoare_finally (P : World → Prop) (body : Async A)
    (final : Async unit) (R : World → Prop) :
  hoare P body (λ _, R) R → hoare R final (λ _, R) R →
  hoare P (try_finally body final) (λ _, R) R.
Proof.
  intros Hbody Hfinal w env HP. unfold run, try_finally.
  rewrite run_rest_finally.
  specialize (Hbody w env HP). unfold run in Hbody.
  destruct (run_rest (body w) env) as [[w1 a|w1 err1| |w1] env1];
    simpl in *; try done.
  - rewrite run_rest_bind. specialize (Hfinal w1 env1 Hbody).
    unfold run in Hfinal.
    by destruct (run_rest (final w1) env1) as [[w2 []|w2 err2| |w2] env2].
  - rewrite run_rest_bind. specialize (Hfinal w1 env1 Hbody).
    unfold run in Hfinal.
    by destruct (run_rest (final w1) env1) as [[w2 []|w2 err2| |w2] env2].
Qed.
End Cancellation.

Section LateWrites.
Variable NODE_ENV : string.
Variable fuel : nat.

Lemma after_teardown_app tr evs :
  after_teardown (tr ++ evs)
  = if torn_down tr then after_teardown tr ++ evs else after_teardown evs.
Proof.
  induction tr as [|e tr IH]; [done |].
  destruct e; simpl; try exact IH. done.
Qed.

Lemma torn_down_app tr evs :
  torn_down (tr ++ evs) = torn_down tr || torn_down evs.
Proof. apply existsb_app. Qed.

Lemma writes_after_teardown_snoc tr e :
  writes_after_teardown (tr ++ [e])
  = if torn_down tr && is_write e
    then writes_after_teardown tr ++ [e] else writes_after_teardown tr.
Proof.
  unfold writes_after_teardown. rewrite after_teardown_app.
  destruct (torn_down tr) eqn:Htorn; simpl.
  - rewrite filter_app. destruct (is_write e) eqn:He.
    + by rewrite filter_cons_True.
    + rewrite filter_cons_False by (by rewrite He). by rewrite app_nil_r.
  - assert (after_teardown tr = []) as ->.
    { clear -Htorn. induction tr as [|x tr IH]; [done |].
      simpl in Htorn. apply orb_false_iff in Htorn as [Hx Htr].
      destruct x; simpl; try by apply IH. done. }
    by destruct e.
Qed.

(** Events that are not writes leave the state as it is. *)
Lemma unwritten_log e w :
  is_write e = false → is_teardown e = false → unwritten w →
  unwritten (log e w).
Proof.
  intros He Ht [Hw Hflag]. split; simpl.
  - rewrite writes_after_teardown_snoc, He. by rewrite andb_false_r.
  - intros Hc. rewrite torn_down_app, (Hflag Hc). simpl. by rewrite Ht.
Qed.


Lemma unwritten_after_reply r w : unwritten w → unwritten (after_reply r w).
Proof.
  intros [Hw Hflag]. unfold after_reply.
  destruct (tears_down r); [| done]. split; simpl; [| done].
  rewrite writes_after_teardown_snoc. simpl. by rewrite andb_false_r.
Qed.



(** A write while the flag is not set: there has been no teardown. *)
Lemma live_write e w :
  at_most_one_late w → cancelled w = false →
  writes_after_teardown (trace w ++ [e]) = [] ∧
  torn_down (trace w ++ [e]) = is_teardown e.
Proof.
  intros [[Hw Hflag]|[Hc _]] Hlive; [| congruence].
  rewrite writes_after_teardown_snoc, torn_down_app, (Hflag Hlive).
  simpl. by rewrite orb_false_r.
Qed.

Lemma hoare_await {X : Type} (op : ExtCall X) :
  hoare unwritten (await op) (λ _, unwritten) at_most_one_late.
Proof.
  intros w [|r env] Hw; unfold run; simpl.
  - left. by apply unwritten_log.
  - destruct (settle r X op); simpl;
      [| left]; by apply unwritten_after_reply, unwritten_log.
Qed.

Lemma hoare_yield :
  hoare unwritten yield (λ _, unwritten) at_most_one_late.
Proof.
  intros w [|r env] Hw; unfold run; simpl; [by left |].
  by apply unwritten_after_reply.
Qed.

Lemma hoare_getPdfManifest :
  hoare unwritten do_getPdfManifest (λ _, unwritten)
    at_most_one_late.
Proof. intros w env Hw. by apply unwritten_log. Qed.

(** A state setter behind a test of the flag. *)
Lemma hoare_set_state_live wr :
  hoare (λ w, at_most_one_late w ∧ cancelled w = false)
    (set_state wr) (λ _ w, unwritten w ∧ cancelled w = false)
    at_most_one_late.
Proof.
  intros w env [Hw Hlive]. unfold run. simpl.
  destruct (live_write (StateSet wr) w Hw Hlive) as [Hwr Htorn].
  split; [split |]; by destruct wr.
Qed.

(** [setPdfPages] behind a test of the flag. *)
Lemma hoare_setPdfPages_live key value :
  hoare (λ w, at_most_one_late w ∧ cancelled w = false)
    (do_setPdfPages fuel key value)
    (λ _ w, unwritten w ∧ cancelled w = false) at_most_one_late.
Proof.
  intros w env [Hw Hlive]. unfold run, do_setPdfPages.
  destruct (setPdfPages fuel key value (pdfPagesCache w)); [| done].
  simpl. destruct (live_write (CacheSet key value) w Hw Hlive) as [Hwr Ht].
  split; [split |]; done.
Qed.

(** [setPages] without a test of the flag, when nothing has been written
    since the teardown: this is the one late write. *)
Lemma hoare_setPages_untested v :
  hoare unwritten (set_state (SetPages v))
    (λ _, at_most_one_late) at_most_one_late.
Proof.
  intros w env [Hw Hflag]. unfold run. simpl.
  destruct (cancelled w) eqn:Hc.
  - destruct (torn_down (trace w)) eqn:Htorn.
    + right. split; [done |]. exists v. simpl.
      by rewrite writes_after_teardown_snoc, Htorn, Hw.
    + left. split; simpl; [| congruence].
      by rewrite writes_after_teardown_snoc, Htorn.
  - left. split; simpl.
    + by rewrite writes_after_teardown_snoc, (Hflag eq_refl).
    + intros _. by rewrite torn_down_app, (Hflag eq_refl).
Qed.

(** With the flag not set, nothing has been written late. *)
Lemma live_unwritten (c : bool) w :
  at_most_one_late w ∧ c = cancelled w → c = false →
  unwritten w ∧ cancelled w = false.
Proof. intros [[Hw|[Hc _]] ->] Hlive; [done | congruence]. Qed.

(** The [return] behind a test of the flag. *)
Lemma hoare_return (P : World → Prop) (c : bool) :
  (∀ w, P w → at_most_one_late w) →
  hoare (λ w, P w ∧ c = cancelled w) (mret tt) (λ _, at_most_one_late)
    at_most_one_late.
Proof. intros HP w env [Hw _]. by apply HP. Qed.

(** The rendering loop of the load effects: the test at the top of the
    loop stops it after the one late [setPages]. *)
Lemma hoare_load_render_pages remaining pageNum renderedPages :
  hoare at_most_one_late
    (load_render_pages remaining pageNum renderedPages)
    (λ _, at_most_one_late) at_most_one_late.
Proof.
  revert pageNum renderedPages.
  induction remaining as [|n IH]; intros pageNum renderedPages; simpl.
  - apply hoare_mret.
  - eapply hoare_bind; [apply hoare_gets | intros c].
    destruct c.
    + eapply hoare_weaken;
        [apply (hoare_mret at_most_one_late) | by intros w [Hw ?] | done].
    + eapply hoare_weaken
        with (P' := unwritten) (Q' := λ _, at_most_one_late);
        [| intros w Hw; by destruct (live_unwritten false w Hw) | done].
      eapply hoare_bind; [apply hoare_await | intros ?].
      eapply hoare_bind; [apply hoare_await | intros dataUrl].
      eapply hoare_bind; [apply hoare_setPages_untested | intros ?].
      apply IH.
Qed.

(** What follows the loop: the cache write behind its test. *)
Lemma hoare_store_rendered filePath (rendered : option (list string)) :
  hoare at_most_one_late
    (match rendered with
     | None => mret tt
     | Some renderedPages =>
         c ← gets cancelled;
         if negb c && bool_decide (0 < length renderedPages)
         then do_setPdfPages fuel filePath renderedPages
         else mret tt
     end) (λ _, at_most_one_late) at_most_one_late.
Proof.
  destruct rendered as [renderedPages|]; [| apply hoare_mret].
  eapply hoare_bind; [apply hoare_gets | intros c].
  destruct c; simpl; [by apply hoare_return |].
  destruct (bool_decide (0 < length renderedPages));
    [| by apply hoare_return].
  eapply hoare_weaken; [apply hoare_setPdfPages_live | |].
  - intros w [Hw <-]. done.
  - intros _ w [Hw _]. by left.
Qed.

(** The [catch] and [finally] clauses: a write behind a test. *)
Lemma hoare_guarded_write wr :
  hoare at_most_one_late
    (c ← gets cancelled; if c : bool then mret tt else set_state wr)
    (λ _, at_most_one_late) at_most_one_late.
Proof.
  eapply hoare_bind; [apply hoare_gets | intros c].
  destruct c; [by apply hoare_return |].
  eapply hoare_weaken; [apply hoare_set_state_live | |].
  - intros w [Hw <-]. done.
  - intros _ w [Hw _]. by left.
Qed.

(** The loop and the cache write, entered behind a test of the flag. *)
Lemma hoare_render_and_store filePath numPages :
  hoare at_most_one_late
    (rendered ← load_render_pages (Z.to_nat numPages) 1 [];
     match rendered with
     | None => mret tt
     | Some renderedPages =>
         c ← gets cancelled;
         if negb c && bool_decide (0 < length renderedPages)
         then do_setPdfPages fuel filePath renderedPages
         else mret tt
     end) (λ _, at_most_one_late) at_most_one_late.
Proof.
  eapply hoare_bind; [apply hoare_load_render_pages | intros rendered].
  apply hoare_store_rendered.
Qed.

Lemma hoare_fb_loadPages_render filePath :
  hoare unwritten (FileBrowser.loadPages_render NODE_ENV fuel filePath)
    (λ _, at_most_one_late) at_most_one_late.
Proof.
  unfold FileBrowser.loadPages_render.
  eapply hoare_bind; [apply hoare_await | intros ?].
  eapply hoare_bind; [apply hoare_await | intros numPages].
  eapply hoare_bind; [apply hoare_gets | intros c].
  destruct c; [apply hoare_return; by left |].
  eapply hoare_weaken; [apply hoare_render_and_store | | done].
  intros w [Hw _]. by left.
Qed.

Lemma hoare_fb_loadPages_body filePath :
  hoare unwritten (FileBrowser.loadPages_body NODE_ENV fuel filePath)
    (λ _, at_most_one_late) at_most_one_late.
Proof.
  unfold FileBrowser.loadPages_body.
  eapply hoare_bind; [apply hoare_getPdfManifest | intros manifest].
  destruct (manifest ≫= (.!! filePath)) as [entry|];
    [destruct (decide (0 < pages entry)%Z) |];
    try apply hoare_fb_loadPages_render.
  unfold FileBrowser.loadPagesFromImages.
  eapply hoare_bind; [apply (hoare_mret unwritten) | intros urls].
  eapply hoare_bind; [apply hoare_yield | intros ?].
  eapply hoare_bind; [apply hoare_gets | intros c].
  destruct c; [apply hoare_return; by left |].
  eapply hoare_weaken
    with (P' := λ w, at_most_one_late w ∧ cancelled w = false)
         (Q' := λ _, at_most_one_late);
    [| intros w [Hw <-]; split; [by left | done] | done].
  eapply hoare_bind; [apply hoare_set_state_live | intros ?].
  eapply hoare_bind.
  { eapply hoare_weaken; [apply hoare_setPdfPages_live | | done].
    intros w [Hw Hc]. split; [by left | done]. }
  intros ?. eapply hoare_weaken; [apply hoare_set_state_live | |].
  - intros w [Hw Hc]. split; [by left | done].
  - intros _ w [Hw _]. by left.
Qed.

Lemma hoare_page_loadPdf_body filePath :
  hoare unwritten (FilePage.loadPdf_body NODE_ENV fuel filePath)
    (λ _, at_most_one_late) at_most_one_late.
Proof.
  unfold FilePage.loadPdf_body.
  eapply hoare_bind; [apply hoare_await | intros ?].
  eapply hoare_bind; [apply hoare_await | intros numPages].
  eapply hoare_bind; [apply hoare_gets | intros c].
  destruct c; [apply hoare_return; by left |].
  eapply hoare_weaken
    with (P' := λ w, at_most_one_late w ∧ cancelled w = false)
         (Q' := λ _, at_most_one_late);
    [| intros w [Hw <-]; split; [by left | done] | done].
  eapply hoare_bind; [apply hoare_set_state_live | intros ?].
  eapply hoare_weaken; [apply hoare_render_and_store | | done].
  intros w [Hw _]. by left.
Qed.

(** [try { body } catch { ... } finally { ... }] of the load functions,
    with both clauses behind a test of the flag. *)
Lemma hoare_guarded_try (body : Async unit) :
  hoare unwritten body (λ _, at_most_one_late) at_most_one_late →
  hoare unwritten
    (try_finally
       (try_catch body
          (λ err,
             c ← gets cancelled;
             if c : bool then mret tt
             else set_state (SetError (Some (error_message err)))))
       (c ← gets cancelled;
        if c : bool then mret tt else set_state (SetLoading false)))
    (λ _, at_most_one_late) at_most_one_late.
Proof.
  intros Hbody. apply hoare_finally; [| apply hoare_guarded_write].
  apply hoare_catch; [exact Hbody | intros err].
  apply hoare_guarded_write.
Qed.

(** Whatever the environment does and whenever the view is torn down,
    [loadPages] and [loadPdf] write nothing after the teardown except, at
    most once, the pages of the view: never the cache, the loading flag,
    the error, or the page count. *)
Lemma load_writes_at_most_one_late_setPages filePath w env :
  cancelled w = false → torn_down (trace w) = false →
  match run (FileBrowser.loadPages NODE_ENV fuel filePath w) env with
  | Finished w' _ | Failed w' _ | Pending w' => at_most_one_late w'
  | NeverReturns => True
  end ∧
  match run (FilePage.loadPdf NODE_ENV fuel filePath w) env with
  | Finished w' _ | Failed w' _ | Pending w' => at_most_one_late w'
  | NeverReturns => True
  end.
Proof.
  intros Hlive Htorn.
  assert (unwritten w) as Hw.
  { split; [| done]. unfold writes_after_teardown.
    pose proof (after_teardown_app (trace w) []) as Happ.
    rewrite app_nil_r, Htorn in Happ. by rewrite Happ. }
  split.
  - pose proof (hoare_guarded_try _ (hoare_fb_loadPages_body filePath)
                  w env Hw) as Hrun.
    unfold FileBrowser.loadPages. by destruct (run _ env).
  - pose proof (hoare_guarded_try _ (hoare_page_loadPdf_body filePath)
                  w env Hw) as Hrun.
    unfold FilePage.loadPdf. by destruct (run _ env).
Qed.
End LateWrites.


(** ** One producer for each key *)

Section Producers.
Variable NODE_ENV : string.
Variable fuel : nat.

Lemma keeps_set_bind {A B : Type} inflight (s : Susp A) (f : A → Async B) :
  keeps_set inflight s →
  (∀ a w, keeps_set (prefetchingSet w) (f a w)) →
  keeps_set inflight (susp_bind s f).
Proof.
  intros Hs Hf. revert inflight Hs.
  induction s as [w a|w err| |X w op k IH]; intros inflight Hs; simpl in *.
  - rewrite <- Hs. apply Hf.
  - done.
  - done.
  - destruct Hs as [Hw Hk]. split; [done |]. intros r w'. by apply IH.
Qed.

Lemma keeps_set_mbind {A B : Type} (m : Async A) (f : A → Async B) :
  (∀ w, keeps_set (prefetchingSet w) (m w)) →
  (∀ a w, keeps_set (prefetchingSet w) (f a w)) →
  ∀ w, keeps_set (prefetchingSet w) ((m ≫= f) w).
Proof. intros Hm Hf w. by apply keeps_set_bind. Qed.

Lemma keeps_set_await {X : Type} (op : ExtCall X) w :
  keeps_set (prefetchingSet w) (await op w).
Proof. split; [done |]. intros [x|err] w'; done. Qed.

Lemma keeps_set_setPdfPages key value w :
  keeps_set (prefetchingSet w) (do_setPdfPages fuel key value w).
Proof.
  unfold do_setPdfPages.
  by destruct (setPdfPages fuel key value (pdfPagesCache w)).
Qed.

Lemma keeps_set_render_pages remaining pageNum renderedPages w :
  keeps_set (prefetchingSet w)
    (render_pages remaining pageNum renderedPages w).
Proof.
  revert pageNum renderedPages w.
  induction remaining as [|n IH]; intros pageNum renderedPages w; [done |].
  cbn [render_pages].
  apply keeps_set_mbind; [apply keeps_set_await | intros ? ?].
  apply keeps_set_mbind; [apply keeps_set_await | intros ? ?]. apply IH.
Qed.

Lemma keeps_set_prefetch_body X w :
  keeps_set (prefetchingSet w) (FileBrowser.prefetch_body NODE_ENV fuel X w).
Proof.
  assert (∀ w, keeps_set (prefetchingSet w)
                 (FileBrowser.prefetch_render NODE_ENV fuel X w)) as Hrender.
  { unfold FileBrowser.prefetch_render.
    apply keeps_set_mbind; [apply keeps_set_await | intros ? ?].
    apply keeps_set_mbind; [apply keeps_set_await | intros numPages ?].
    apply keeps_set_mbind; [apply keeps_set_render_pages | intros pages w'].
    destruct (decide (0 < length pages));
      [apply keeps_set_setPdfPages | done]. }
  revert w. unfold FileBrowser.prefetch_body.
  apply keeps_set_mbind; [done | intros manifest w].
  destruct (manifest ≫= (.!! X)) as [entry|];
    [destruct (decide (0 < pages entry)%Z) |]; try apply Hrender.
  revert w. unfold FileBrowser.loadPagesFromImages.
  apply keeps_set_mbind; [done | intros urls].
  apply keeps_set_mbind; [by split | intros ?].
  apply keeps_set_mbind; [by split | intros ? ?].
  apply keeps_set_setPdfPages.
Qed.

(** [try { body } catch { } finally { prefetchingSet.delete(key) }] around
    a body that keeps the set. *)
Lemma releases_swallowed {A : Type} key inflight (s : Susp A) (a : A) :
  keeps_set inflight s →
  releases key inflight
    (susp_finally (susp_catch s (λ _, mret a))
       (modify (FileBrowser.prefetchingSet_delete key))).
Proof.
  revert inflight.
  induction s as [w a'|w err| |X w op k IH]; intros inflight Hs; simpl in *.
  - by rewrite Hs.
  - by rewrite Hs.
  - done.
  - destruct Hs as [Hw Hk]. split; [done |]. intros r w'. by apply IH.
Qed.

(** A call of [prefetchPdf]: it returns at once and leaves the set alone,
    or it is the producer of a key that was not in the set. *)
Lemma prefetchPdf_call X w :
  match FileBrowser.prefetchPdf NODE_ENV fuel X w with
  | Returned w' _ => prefetchingSet w' = prefetchingSet w
  | Suspended w' op k =>
      (X ∉ prefetchingSet w) ∧
      prefetchingSet w' = {[X]} ∪ prefetchingSet w ∧
      producer_of X (mkTask _ op k)
  | Thrown _ _ | Hung => False
  end.
Proof.
  destruct (JsMap.get X (pdfPagesCache w)) as [v|] eqn:Hget.
  { by rewrite (fb_prefetch_hit _ _ X v). }
  destruct (decide (X ∈ prefetchingSet w)) as [Hin|Hnin].
  { by rewrite fb_prefetch_in_flight. }
  rewrite fb_prefetch_claims by done. unfold try_finally, try_catch.
  pose proof (releases_swallowed X _ _ tt
                (keeps_set_prefetch_body X
                   (FileBrowser.prefetchingSet_add X w))) as Hrel.
  pose proof (fb_first_suspension NODE_ENV fuel X w Hget Hnin)
    as (w1 & Hsusp & _).
  rewrite fb_prefetch_claims in Hsusp by done.
  unfold try_finally, try_catch in Hsusp.
  by destruct (susp_finally _ _) as [| | |T w' op k].
Qed.

Lemma coordinated_turn t st st' :
  prefetch_turn NODE_ENV fuel t → coordinated st → turn t st = Some st' →
  coordinated st'.
Proof.
  destruct st as [w pool]. intros Ht (keys & Hnd & Hprod & Hset).
  simpl in Hprod, Hset. destruct t as [f|i r]; simpl.
  - destruct Ht as [X ->]. pose proof (prefetchPdf_call X w) as Hcall.
    destruct (FileBrowser.prefetchPdf NODE_ENV fuel X w)
      as [w' []| | |T w' op k]; try done; simpl; intros [= <-].
    + exists keys. simpl. rewrite Hcall. done.
    + destruct Hcall as (Hfree & Hclaim & Hk). exists (keys ++ [X]).
      simpl. split; [| split].
      * apply NoDup_app. split; [done |]. split; [| apply NoDup_singleton].
        intros x Hx ->%list_elem_of_singleton. by apply Hfree, Hset.
      * apply Forall2_app; [done | by constructor].
      * intros key. rewrite Hclaim, elem_of_union, elem_of_singleton.
        rewrite elem_of_app, list_elem_of_singleton, Hset. tauto.
  - destruct (pool !! i) as [task|] eqn:Htask; [| by intros [= <-]; exists keys].
    destruct (Forall2_lookup_r _ _ _ _ _ Hprod Htask) as (ki & Hki & Hrel).
    pose proof (delete_Permutation keys i ki Hki) as Hperm.
    assert (NoDup (ki :: delete i keys)) as Hnd' by by rewrite <- Hperm.
    apply NoDup_cons in Hnd' as [Hfresh Hnd'].
    assert (∀ key, key ∈ prefetchingSet w ↔ key = ki ∨ key ∈ delete i keys)
      as Hset'.
    { intros key. rewrite Hset, <- elem_of_cons.
      split; intros Hkey; [by rewrite <- Hperm | by rewrite Hperm]. }
    specialize (Hrel (settle r _ (task_op task)) (after_reply r w)).
    rewrite (prefetchingSet_after_reply r w) in Hrel.
    destruct (task_k task _ _) as [w' []| | |T w' op k]; try done; simpl;
      intros [= <-]; simpl in Hrel.
    + exists (delete i keys). simpl. split; [done |].
      split; [by apply Forall2_delete |]. intros key.
      rewrite Hrel, elem_of_difference, elem_of_singleton, Hset'.
      split; [intros [[?|?] ?]; done | intros ?; split; [by right |]].
      intros ->. done.
    + destruct Hrel as [Hw' Hk]. exists (delete i keys ++ [ki]). simpl.
      split; [| split].
      * apply NoDup_app. split; [done |]. split; [| apply NoDup_singleton].
        intros x Hx ->%list_elem_of_singleton. done.
      * apply Forall2_app; [by apply Forall2_delete |].
        constructor; [| done]. intros r' w''. apply Hk.
      * intros key. rewrite Hw', Hset', elem_of_app, list_elem_of_singleton.
        tauto.
Qed.

(** In a loop that only prefetches, however the calls and the replies of
    the environment are interleaved, each key in the in-flight set has
    exactly one suspended producer, and each suspended producer has its
    key in the set. *)
Lemma prefetch_loop_coordinated turns st st' :
  Forall (prefetch_turn NODE_ENV fuel) turns → coordinated st →
  event_loop turns st = Some st' → coordinated st'.
Proof.
  intros Hturns. revert st.
  induction Hturns as [|t turns Ht _ IH]; intros st Hst; simpl.
  - by intros [= <-].
  - destruct (turn t st) as [st1|] eqn:Hturn; [| done]. simpl.
    apply IH. by eapply coordinated_turn.
Qed.

Lemma coordinated_start w :
  prefetchingSet w = ∅ → coordinated (w, []).
Proof.
  intros Hw. exists []. split; [apply NoDup_nil_2 |]. split; [done |].
  intros key. simpl. rewrite Hw. split; [| by intros ?%elem_of_nil].
  by intros ?%not_elem_of_empty.
Qed.
End Producers.

(** ** More of the page cache *)

Section CacheExtras.
Implicit Types (c : PdfPagesCache) (k key : string) (p : list string).
Import JsMapFacts.

Lemma get_app_present {V : Type} k (v : V) (m m' : JsMap.t V) :
  JsMap.get k m = Some v → JsMap.get k (m ++ m') = Some v.
Proof.
  induction m as [|[k0 v0] m IH]; simpl; [done|].
  destruct (decide (k0 = k)); auto.
Qed.

Lemma get_suffix {V : Type} k (v : V) (m m' : JsMap.t V) :
  JsMap.wf (m ++ m') → JsMap.get k m' = Some v →
  JsMap.get k (m ++ m') = Some v.
Proof.
  intros Hwf Hget. rewrite get_app_absent; [done|].
  unfold JsMap.wf in Hwf. rewrite keys_app in Hwf.
  apply NoDup_app in Hwf as (_ & Hdisj & _).
  intros Hin. apply (Hdisj _ Hin).
  apply get_Some_keys. by rewrite Hget.
Qed.

(** The eviction loop drops entries from the old end only. *)
Lemma evict_oldest_suffix c : ∃ n, evict_oldest c = drop n c.
Proof.
  destruct c as [|[k0 v0] c]; [by exists 0|].
  unfold evict_oldest; simpl. destruct (truthy k0).
  - exists 1. by rewrite decide_True.
  - by exists 0.
Qed.

Lemma evict_loop_suffix fuel c c' :
  evict_loop fuel c = Some c' → ∃ n, c' = drop n c.
Proof.
  revert c. induction fuel as [|fuel IH]; intros c; simpl.
  - case_decide; [done|]. intros [= <-]. by exists 0.
  - case_decide; [|intros [= <-]; by exists 0].
    intros Hloop. destruct (IH _ Hloop) as [n ->].
    destruct (evict_oldest_suffix c) as [n' ->].
    exists (n' + n). by rewrite drop_drop.
Qed.

Lemma setPdfPages_unfold fuel k p c c' :
  JsMap.wf c → setPdfPages fuel k p c = Some c' →
  ∃ n, c' = drop n (JsMap.delete k c) ++ [(k, p)] ∧
       k ∉ JsMap.keys (drop n (JsMap.delete k c)).
Proof.
  intros Hwf. unfold setPdfPages.
  assert (Hc1 : (if JsMap.has k c then JsMap.delete k c else c)
                = JsMap.delete k c).
  { destruct (JsMap.has k c) eqn:Hhas; [done|].
    symmetry. by apply delete_absent, has_false. }
  rewrite Hc1.
  destruct (evict_loop fuel (JsMap.delete k c)) as [c2|] eqn:Hloop; [|done].
  simpl. intros [= <-].
  destruct (evict_loop_suffix _ _ _ Hloop) as [n ->].
  assert (Hk : k ∉ JsMap.keys (drop n (JsMap.delete k c))).
  { intros Hin. apply (delete_not_in k c Hwf).
    unfold JsMap.keys in *. rewrite fmap_drop in Hin.
    by eapply subseteq_drop. }
  exists n. split; [by apply set_absent|done].
Qed.

(** X1.  On a state of the cache that the exported operations can produce,
    [setPdfPages] fails to return in exactly one situation: the key is new,
    the cache is full, and its oldest key is the empty string.  In every
    other situation one pass through the loop is enough. *)
Theorem setPdfPages_hangs_iff fuel k p c :
  reachable c →
  setPdfPages (S fuel) k p c = None ↔
  (k ∉ JsMap.keys c) ∧ JsMap.size c = PDF_CACHE_MAX_SIZE ∧
  JsMap.first_key c = Some "".
Proof.
  intros Hreach. destruct (reachable_inv c Hreach) as [Hwf Hsize].
  destruct (decide (k ∈ JsMap.keys c)) as [Hin|Hout].
  { rewrite (setPdfPages_present _ _ _ _ Hwf Hsize Hin).
    split; [done|]. by intros (Hout & _). }
  destruct (decide (JsMap.size c < PDF_CACHE_MAX_SIZE)) as [Hlt|Hge].
  { rewrite (setPdfPages_absent_below _ _ _ _ Hout Hlt).
    split; [done|]. intros (_ & Heq & _). lia. }
  assert (Hfull : JsMap.size c = PDF_CACHE_MAX_SIZE) by lia.
  destruct c as [|[k0 v0] c]; [done|].
  destruct (decide (k0 = "")) as [->|Hk0].
  - rewrite setPdfPages_absent_stuck; [done|done| |done].
    by rewrite Hfull.
  - rewrite (setPdfPages_absent_full _ _ _ _ _ _ Hfull Hk0 Hout).
    split; [done|]. intros (_ & _ & [= ?]). done.
Qed.

(** X2.  What [setPdfPages] stores can be read back: when the call
    returns, the key is the most recently used entry, [getPdfPages] gives
    the stored pages and leaves the cache as it is, and every other entry
    of the new cache was in the old one with the same pages. *)
Theorem setPdfPages_then_getPdfPages fuel k p c c' :
  JsMap.wf c → setPdfPages fuel k p c = Some c' →
  getPdfPages k c' = (Some p, c') ∧
  last c' = Some (k, p) ∧
  (∀ k' v, k' ≠ k → JsMap.get k' c' = Some v → JsMap.get k' c = Some v).
Proof.
  intros Hwf Hset.
  destruct (setPdfPages_unfold _ _ _ _ _ Hwf Hset) as (n & -> & Hk).
  assert (Hget : JsMap.get k (drop n (JsMap.delete k c) ++ [(k, p)])
                 = Some p).
  { rewrite get_app_absent by done. simpl. by rewrite decide_True. }
  split; [|split].
  - unfold getPdfPages. rewrite Hget. f_equal.
    rewrite delete_app_absent by done. simpl. rewrite decide_True by done.
    rewrite app_nil_r. by apply set_absent.
  - by rewrite last_snoc.
  - intros k' v Hne Hget'.
    rewrite <- (get_delete_ne k k' c) by done.
    assert (Hin : JsMap.get k' (drop n (JsMap.delete k c)) = Some v).
    { destruct (JsMap.get k' (drop n (JsMap.delete k c))) as [v'|] eqn:E.
      - by rewrite (get_app_present _ _ _ _ E) in Hget'.
      - rewrite get_app_absent in Hget' by by apply get_None_keys.
        simpl in Hget'. by rewrite decide_False in Hget'. }
    rewrite <- (take_drop n (JsMap.delete k c)).
    apply get_suffix; [|done].
    rewrite take_drop. by apply delete_wf.
Qed.

Lemma setPdfPages_new_key fuel k p c c' :
  JsMap.wf c → JsMap.size c ≤ PDF_CACHE_MAX_SIZE → k ∉ JsMap.keys c →
  setPdfPages fuel k p c = Some c' →
  (JsMap.size c < PDF_CACHE_MAX_SIZE ∧ c' = c ++ [(k, p)]) ∨
  (JsMap.size c = PDF_CACHE_MAX_SIZE ∧
   ∃ oldest rest,
     c = oldest :: rest ∧ oldest.1 ≠ "" ∧ c' = rest ++ [(k, p)]).
Proof.
  intros Hwf Hsize Hout Hset.
  destruct (decide (JsMap.size c < PDF_CACHE_MAX_SIZE)) as [Hlt|Hge].
  { left. rewrite (setPdfPages_absent_below _ _ _ _ Hout Hlt) in Hset.
    by injection Hset as <-. }
  assert (Hfull : JsMap.size c = PDF_CACHE_MAX_SIZE) by lia.
  right. split; [done|].
  destruct c as [|[k0 v0] c]; [done|].
  destruct (decide (k0 = "")) as [->|Hk0].
  { rewrite setPdfPages_absent_stuck in Hset; [done|done| |done].
    by rewrite Hfull. }
  destruct fuel as [|fuel].
  { unfold setPdfPages in Hset.
    rewrite (proj2 (has_false k _) Hout) in Hset. simpl in Hset.
    rewrite decide_True in Hset; [done|]. unfold JsMap.size in Hfull.
    simpl in Hfull. unfold JsMap.size. simpl. lia. }
  rewrite (setPdfPages_absent_full _ _ _ _ _ _ Hfull Hk0 Hout) in Hset.
  injection Hset as <-. by exists (k0, v0), c.
Qed.

(** X3.  A new key costs at most one entry, and that entry is the least
    recently used one: below capacity the entry is appended and nothing is
    dropped, at capacity the oldest entry leaves and all the others keep
    their pages and their order. *)
Theorem setPdfPages_evicts_only_the_oldest fuel k p c c' :
  reachable c → k ∉ JsMap.keys c → setPdfPages fuel k p c = Some c' →
  (JsMap.size c < PDF_CACHE_MAX_SIZE ∧ c' = c ++ [(k, p)]) ∨
  (JsMap.size c = PDF_CACHE_MAX_SIZE ∧
   ∃ oldest rest,
     c = oldest :: rest ∧ oldest.1 ≠ "" ∧ c' = rest ++ [(k, p)]).
Proof.
  intros [Hwf Hsize]%reachable_inv. by apply setPdfPages_new_key.
Qed.

Lemma truthy_keys_set fuel k p c :
  truthy_keys c → k ≠ "" →
  ∃ c', setPdfPages (S fuel) k p c = Some c' ∧ truthy_keys c'.
Proof.
  intros (Hwf & Hsize & Hkeys) Hk.
  assert (Hdel : Forall (λ k, k ≠ "") (JsMap.keys (JsMap.delete k c))).
  { rewrite Forall_forall in Hkeys |- *. intros k' Hin.
    by apply Hkeys, (keys_delete_subseteq k c). }
  assert (Hnew : ∀ c0, Forall (λ k, k ≠ "") (JsMap.keys c0) →
                       Forall (λ k, k ≠ "") (JsMap.keys (c0 ++ [(k, p)]))).
  { intros c0 H0. rewrite keys_app. apply Forall_app. split; [done|].
    by apply Forall_singleton. }
  destruct (decide (k ∈ JsMap.keys c)) as [Hin|Hout].
  { rewrite (setPdfPages_present _ _ _ _ Hwf Hsize Hin).
    eexists. split; [done|]. split; [by apply move_to_end_wf|].
    split; [|by apply Hnew].
    unfold JsMap.size in *. rewrite length_app. simpl.
    pose proof (length_delete_present k c Hin). lia. }
  destruct (decide (JsMap.size c < PDF_CACHE_MAX_SIZE)) as [Hlt|Hge].
  { rewrite (setPdfPages_absent_below _ _ _ _ Hout Hlt).
    eexists. split; [done|]. split; [|split; [|by apply Hnew]].
    - rewrite <- (delete_absent k c Hout). by apply move_to_end_wf.
    - unfold JsMap.size in *. rewrite length_app. simpl. lia. }
  assert (Hfull : JsMap.size c = PDF_CACHE_MAX_SIZE) by lia.
  destruct c as [|[k0 v0] c]; [done|].
  assert (Hk0 : k0 ≠ "") by by inversion Hkeys.
  rewrite (setPdfPages_absent_full _ _ _ _ _ _ Hfull Hk0 Hout).
  eexists. split; [done|]. split; [|split].
  - unfold JsMap.wf in *. rewrite keys_app. simpl in *.
    apply NoDup_app. split; [by inversion Hwf|]. split.
    + intros k' Hin' ->%list_elem_of_singleton. apply Hout. by right.
    + apply NoDup_singleton.
  - unfold JsMap.size in *. rewrite length_app. simpl in *. lia.
  - apply Hnew. by inversion Hkeys.
Qed.

Lemma truthy_keys_get k c : truthy_keys c → truthy_keys (getPdfPages k c).2.
Proof.
  intros (Hwf & Hsize & Hkeys).
  split; [by apply getPdfPages_wf|].
  split; [by rewrite getPdfPages_size|].
  destruct (JsMap.get k c) as [v|] eqn:Hget.
  - rewrite (getPdfPages_present _ _ _ Hwf Hget). simpl.
    rewrite keys_app. apply Forall_app. split.
    + rewrite Forall_forall in Hkeys |- *. intros k' Hin.
      by apply Hkeys, (keys_delete_subseteq k c).
    + apply Forall_singleton. simpl. rewrite Forall_forall in Hkeys.
      apply Hkeys, get_Some_keys. by rewrite Hget.
  - rewrite getPdfPages_absent; [done|]. by apply get_None_keys.
Qed.

Lemma truthy_keys_ops fuel ops c :
  Forall (λ op, sets_empty_key op = false) ops → truthy_keys c →
  ∃ c', cache_ops (S fuel) ops c = Some c' ∧ truthy_keys c'.
Proof.
  intros Hops. revert c.
  induction Hops as [|op ops Hop Hops IH]; intros c Hc; simpl.
  { by exists c. }
  destruct op as [key|key pages|]; simpl.
  - apply IH. by apply truthy_keys_get.
  - destruct (truthy_keys_set fuel key pages c Hc) as (c1 & -> & Hc1).
    { simpl in Hop. apply truthy_spec. by destruct (truthy key). }
    simpl. by apply IH.
  - apply IH. repeat split; [apply NoDup_nil_2|simpl; lia|done].
Qed.

(** X4.  A session that never stores under the empty key never hangs:
    whatever the reads, writes and clears and their order, every call
    returns after at most one pass through the eviction loop, and the
    cache ends with at most ten entries. *)
Theorem session_without_empty_key_returns fuel ops :
  Forall (λ op, sets_empty_key op = false) ops →
  ∃ c,
    cache_ops (S fuel) ops JsMap.empty = Some c ∧
    JsMap.size c ≤ PDF_CACHE_MAX_SIZE ∧ JsMap.wf c ∧
    Forall (λ k, k ≠ "") (JsMap.keys c).
Proof.
  intros Hops.
  destruct (truthy_keys_ops fuel ops JsMap.empty Hops)
    as (c & Hrun & Hwf & Hsize & Hkeys).
  { repeat split; [apply NoDup_nil_2|simpl; lia|done]. }
  by exists c.
Qed.

(** X5.  Reading is idempotent and loses nothing: [getPdfPages] returns
    what the map holds for the key, every key reads the same before and
    after, the size is the same, and a second read of the same key returns
    the same value and leaves the cache as the first read left it. *)
Theorem getPdfPages_twice k c :
  JsMap.wf c →
  (getPdfPages k c).1 = JsMap.get k c ∧
  (∀ k', JsMap.get k' (getPdfPages k c).2 = JsMap.get k' c) ∧
  JsMap.size (getPdfPages k c).2 = JsMap.size c ∧
  getPdfPages k (getPdfPages k c).2 = getPdfPages k c.
Proof.
  intros Hwf.
  destruct (JsMap.get k c) as [v|] eqn:Hget.
  - rewrite (getPdfPages_present _ _ _ Hwf Hget). simpl.
    assert (Hk : k ∉ JsMap.keys (JsMap.delete k c)) by by apply delete_not_in.
    assert (Hget' : JsMap.get k (JsMap.delete k c ++ [(k, v)]) = Some v).
    { rewrite get_app_absent by done. simpl. by rewrite decide_True. }
    split; [done|]. split; [|split].
    + intros k'. destruct (decide (k = k')) as [<-|Hne]; [congruence|].
      rewrite <- (get_delete_ne k k' c) by done.
      destruct (JsMap.get k' (JsMap.delete k c)) as [v'|] eqn:E.
      * by apply get_app_present.
      * rewrite get_app_absent by by apply get_None_keys.
        simpl. by rewrite decide_False.
    + unfold JsMap.size. rewrite length_app. simpl.
      assert (Hin : k ∈ JsMap.keys c).
      { apply get_Some_keys. by rewrite Hget. }
      pose proof (length_delete_present k c Hin). lia.
    + unfold getPdfPages at 1. rewrite Hget'. f_equal.
      rewrite delete_app_absent by done. simpl.
      rewrite decide_True by done. rewrite app_nil_r.
      by apply set_absent.
  - assert (Hk : k ∉ JsMap.keys c) by by apply get_None_keys.
    rewrite (getPdfPages_absent _ _ Hk). simpl.
    by rewrite (getPdfPages_absent _ _ Hk).
Qed.
End CacheExtras.

Lemma full_cache_reachable : reachable full_cache.
Proof.
  apply (setPdfPages_all_capacity 0 (one_page <$> ten_keys) JsMap.empty).
  - apply reachable_empty.
  - by vm_compute.
Qed.

Lemma two_documents_wf : JsMap.wf two_documents.
Proof. unfold JsMap.wf. by_compute. Qed.

Lemma setPdfPages_hangs_iff_witness :
  setPdfPages 1 "K" ["k1"] stuck_cache = None ↔
  ("K" ∉ JsMap.keys stuck_cache) ∧
  JsMap.size stuck_cache = PDF_CACHE_MAX_SIZE ∧
  JsMap.first_key stuck_cache = Some "".
Proof.
  apply (setPdfPages_hangs_iff 0 "K" ["k1"] stuck_cache).
  apply stuck_cache_reachable.
Defined.

Lemma setPdfPages_then_getPdfPages_witness :
  getPdfPages "A" [("B", ["q1"]); ("A", ["p2"])]
  = (Some ["p2"], [("B", ["q1"]); ("A", ["p2"])]) ∧
  last [("B", ["q1"]); ("A", ["p2"])] = Some ("A", ["p2"]) ∧
  (∀ k' v, k' ≠ "A" →
     JsMap.get k' [("B", ["q1"]); ("A", ["p2"])] = Some v →
     JsMap.get k' two_documents = Some v).
Proof.
  apply (setPdfPages_then_getPdfPages 0 "A" ["p2"] two_documents).
  - apply two_documents_wf.
  - reflexivity.
Defined.

Lemma setPdfPages_evicts_only_the_oldest_witness :
  (JsMap.size full_cache < PDF_CACHE_MAX_SIZE ∧
   drop 1 full_cache ++ [("K", ["k1"])] = full_cache ++ [("K", ["k1"])]) ∨
  (JsMap.size full_cache = PDF_CACHE_MAX_SIZE ∧
   ∃ oldest rest,
     full_cache = oldest :: rest ∧ oldest.1 ≠ "" ∧
     drop 1 full_cache ++ [("K", ["k1"])] = rest ++ [("K", ["k1"])]).
Proof.
  apply (setPdfPages_evicts_only_the_oldest 1 "K" ["k1"] full_cache).
  - apply full_cache_reachable.
  - by_compute.
  - reflexivity.
Defined.

Lemma session_without_empty_key_returns_witness :
  ∃ c,
    cache_ops 1
      [OpSet "A" ["p1"]; OpGet "A"; OpSet "B" ["q1"]; OpClear;
       OpSet "A" ["p2"]] JsMap.empty = Some c ∧
    JsMap.size c ≤ PDF_CACHE_MAX_SIZE ∧ JsMap.wf c ∧
    Forall (λ k, k ≠ "") (JsMap.keys c).
Proof.
  apply (session_without_empty_key_returns 0).
  repeat constructor.
Defined.

Lemma getPdfPages_twice_witness :
  (getPdfPages "A" two_documents).1 = JsMap.get "A" two_documents ∧
  (∀ k', JsMap.get k' (getPdfPages "A" two_documents).2
         = JsMap.get k' two_documents) ∧
  JsMap.size (getPdfPages "A" two_documents).2 = JsMap.size two_documents ∧
  getPdfPages "A" (getPdfPages "A" two_documents).2
  = getPdfPages "A" two_documents.
Proof. apply (getPdfPages_twice "A" two_documents), two_documents_wf. Defined.

(** ** How long an entry stays *)

Section Recency.
Implicit Types (c : PdfPagesCache) (k key : string) (p : list string).
Import JsMapFacts.

Lemma delete_app_present {V : Type} k (m m' : JsMap.t V) :
  k ∈ JsMap.keys m → JsMap.delete k (m ++ m') = JsMap.delete k m ++ m'.
Proof.
  induction m as [|[k0 v0] m IH]; [by intros ?%elem_of_nil|]. simpl.
  destruct (decide (k0 = k)); [done|].
  intros [?|Hin]%elem_of_cons; [done|]. by rewrite IH.
Qed.

Lemma among_the_last_set fuel n D v k p c c' :
  among_the_last n D v c → n ≤ 8 → k ≠ D →
  setPdfPages fuel k p c = Some c' → among_the_last (S n) D v c'.
Proof.
  intros (Hwf & Hsize & older & newer & -> & Hn) Hn8 Hk Hset.
  destruct (setPdfPages_returns _ _ _ _ _ Hset) as [Hsize' Hwf'].
  split; [by apply Hwf'|]. split; [done|].
  destruct (decide (k ∈ JsMap.keys (older ++ (D, v) :: newer)))
    as [Hin|Hout].
  - rewrite (setPdfPages_present _ _ _ _ Hwf Hsize Hin) in Hset.
    injection Hset as <-.
    destruct (decide (k ∈ JsMap.keys older)) as [Hold|Hold].
    + exists (JsMap.delete k older), (newer ++ [(k, p)]).
      rewrite delete_app_present by done. rewrite <- app_assoc.
      split; [done|]. rewrite length_app. simpl. lia.
    + exists older, (JsMap.delete k newer ++ [(k, p)]).
      rewrite delete_app_absent by done. simpl.
      rewrite decide_False by done. rewrite <- app_assoc.
      split; [done|]. rewrite length_app. simpl.
      assert (Hnew : k ∈ JsMap.keys newer).
      { rewrite keys_app in Hin. apply elem_of_app in Hin as [?|Hin];
          [done|].
        simpl in Hin. by apply elem_of_cons in Hin as [?|?]. }
      pose proof (length_delete_present k newer Hnew). lia.
  - destruct (setPdfPages_new_key _ _ _ _ _ Hwf Hsize Hout Hset)
      as [[_ ->]|(Hfull & oldest & rest & Heq & _ & ->)].
    + exists older, (newer ++ [(k, p)]). rewrite <- app_assoc.
      split; [done|]. rewrite length_app. simpl. lia.
    + destruct older as [|e older].
      { unfold JsMap.size in Hfull. simpl in Hfull.
        unfold PDF_CACHE_MAX_SIZE in Hfull. lia. }
      simpl in Heq. injection Heq as <- <-.
      exists older, (newer ++ [(k, p)]). rewrite <- app_assoc.
      split; [done|]. rewrite length_app. simpl. lia.
Qed.

Lemma among_the_last_all fuel n D v calls c c' :
  among_the_last n D v c → n + length calls ≤ 9 → D ∉ calls.*1 →
  setPdfPages_all fuel calls c = Some c' →
  among_the_last (n + length calls) D v c'.
Proof.
  revert n c. induction calls as [|[k p] calls IH]; intros n c Hc Hn HD.
  { simpl. intros [= <-]. by rewrite Nat.add_0_r. }
  simpl in *. apply not_elem_of_cons in HD as [HkD HD].
  destruct (setPdfPages fuel k p c) as [c1|] eqn:Hset; [|done]. simpl.
  intros Hall. replace (n + S (length calls)) with (S n + length calls)
    by lia.
  apply (IH (S n) c1); [|lia|done|done].
  apply (among_the_last_set fuel n D v k p c); [done|lia|done|done].
Qed.

(** X25.  What was used last is safe for the next nine writes: the most
    recently used entry of the cache is still there, with its pages,
    after any nine or fewer [setPdfPages] calls for other keys that
    return. *)
Theorem most_recent_survives_nine_writes fuel D v calls c c' :
  reachable c → last c = Some (D, v) → length calls ≤ 9 →
  D ∉ calls.*1 → setPdfPages_all fuel calls c = Some c' →
  JsMap.get D c' = Some v.
Proof.
  intros [Hwf Hsize]%reachable_inv [older ->]%last_Some Hlen HD Hall.
  destruct (among_the_last_all fuel 0 D v calls (older ++ [(D, v)]) c')
    as (Hwf' & _ & older' & newer & -> & _); [|simpl; lia|done|done|].
  { split; [done|]. split; [done|]. by exists older, []. }
  rewrite get_app_absent; [simpl; by rewrite decide_True|].
  unfold JsMap.wf in Hwf'. rewrite keys_app in Hwf'.
  apply NoDup_app in Hwf' as (_ & Hdisj & _).
  intros Hin. apply (Hdisj _ Hin). simpl. by left.
Qed.
End Recency.

Lemma most_recent_survives_nine_writes_witness :
  ∃ c',
    setPdfPages_all 1 (one_page <$> nine_more_keys) full_cache = Some c' ∧
    JsMap.get "J" c' = Some ["J#1"].
Proof.
  destruct (setPdfPages_all 1 (one_page <$> nine_more_keys) full_cache)
    as [c'|] eqn:Hall; [|by vm_compute in Hall].
  exists c'. split; [done|].
  apply (most_recent_survives_nine_writes 1 "J" ["J#1"]
           (one_page <$> nine_more_keys) full_cache c').
  - apply full_cache_reachable.
  - reflexivity.
  - simpl. lia.
  - by_compute.
  - exact Hall.
Defined.

(** ** The list of files and the thumbnails *)

Lemma filter_none {A : Type} (P : A → Prop) `{∀ x, Decision (P x)}
    (l : list A) :
  (∀ x, x ∈ l → ¬ P x) → filter P l = [].
Proof.
  induction l as [|x l IH]; [done|]. intros Hl.
  rewrite filter_cons_False by (apply Hl; left).
  apply IH. intros y Hy. apply Hl. by right.
Qed.

Lemma filter_all {A : Type} (P : A → Prop) `{∀ x, Decision (P x)}
    (l : list A) :
  (∀ x, x ∈ l → P x) → filter P l = l.
Proof.
  induction l as [|x l IH]; [done|]. intros Hl.
  rewrite filter_cons_True by (apply Hl; left).
  f_equal. apply IH. intros y Hy. apply Hl. by right.
Qed.

Section FilesCacheFacts.
Implicit Types (fc : FilesCache) (newFiles : list FileItem.t).
Import JsMapFacts.

Lemma appendToFilesCache_files newFiles cur more fc :
  files (appendToFilesCache newFiles cur more fc)
  = files fc
      ++ filter (λ f, FileItem.key f ∉ FileItem.key <$> files fc) newFiles.
Proof.
  unfold appendToFilesCache. simpl. f_equal.
  apply list_filter_iff. intros f. by rewrite elem_of_list_to_set.
Qed.

Lemma appendToFilesCache_eq newFiles cur more fc :
  appendToFilesCache newFiles cur more fc
  = mkFilesCache
      (files fc
         ++ filter (λ f, FileItem.key f ∉ FileItem.key <$> files fc)
              newFiles) cur more.
Proof.
  by rewrite <- (appendToFilesCache_files newFiles cur more fc).
Qed.

(** X6.  [appendToFilesCache] keeps what it has and adds only files whose
    key it does not have yet: the old list is a prefix of the new one, a
    key is listed afterwards exactly if it was listed or is in the batch,
    the first file with a given key is the one that was there before, and
    appending the same batch a second time adds nothing. *)
Theorem appendToFilesCache_dedupes newFiles cur more fc :
  let fc' := appendToFilesCache newFiles cur more fc in
  files fc `prefix_of` files fc' ∧
  (∀ k, k ∈ FileItem.key <$> files fc' ↔
        k ∈ FileItem.key <$> files fc ∨ k ∈ FileItem.key <$> newFiles) ∧
  (∀ k f, list_find (λ f, FileItem.key f = k) (files fc) = Some f →
          list_find (λ f, FileItem.key f = k) (files fc') = Some f) ∧
  cursor fc' = cur ∧ hasMore fc' = more ∧
  appendToFilesCache newFiles cur more fc' = fc'.
Proof.
  intros fc'. subst fc'.
  split; [|split; [|split; [|split; [done|split; [done|]]]]].
  - rewrite appendToFilesCache_files. by eexists.
  - intros k. rewrite appendToFilesCache_files, fmap_app, elem_of_app.
    split.
    + intros [?|Hin]; [by left|]. right.
      apply list_elem_of_fmap in Hin as (f & -> & Hf).
      apply list_elem_of_filter in Hf as [_ Hf].
      apply list_elem_of_fmap. by exists f.
    + intros [?|Hin]; [by left|].
      destruct (decide (k ∈ FileItem.key <$> files fc)); [by left|].
      right. apply list_elem_of_fmap in Hin as (f & -> & Hf).
      apply list_elem_of_fmap. exists f. split; [done|].
      by apply list_elem_of_filter.
  - intros k [i f] Hfind. rewrite appendToFilesCache_files.
    by apply list_find_app_Some; left.
  - rewrite (appendToFilesCache_eq newFiles cur more
               (appendToFilesCache _ _ _ _)).
    rewrite appendToFilesCache_files.
    rewrite (appendToFilesCache_eq newFiles cur more fc).
    f_equal. rewrite <- (app_nil_r (files fc ++ _)) at 2. f_equal.
    apply filter_none. intros f Hf Hnot.
    apply Hnot. rewrite fmap_app, elem_of_app.
    destruct (decide (FileItem.key f ∈ FileItem.key <$> files fc));
      [by left|].
    right. apply list_elem_of_fmap. exists f. split; [done|].
    by apply list_elem_of_filter.
Qed.

Lemma new_keys_NoDup newFiles (old : list string) :
  NoDup (FileItem.key <$> newFiles) →
  NoDup (FileItem.key <$> filter (λ f, FileItem.key f ∉ old) newFiles).
Proof.
  induction newFiles as [|f newFiles IH]; simpl; [constructor|].
  intros [Hf Hnew]%NoDup_cons. rewrite filter_cons.
  case_decide; [|by apply IH]. rewrite fmap_cons. apply NoDup_cons.
  split; [|by apply IH]. intros Hin. apply Hf.
  apply list_elem_of_fmap in Hin as (g & -> & Hg).
  apply list_elem_of_filter in Hg as [_ Hg].
  apply list_elem_of_fmap. by exists g.
Qed.

Lemma appended_keys_NoDup newFiles cur more fc :
  NoDup (FileItem.key <$> files fc) →
  NoDup (FileItem.key <$> files (appendToFilesCache newFiles cur more fc))
  ↔ NoDup (FileItem.key <$>
             filter (λ f, FileItem.key f ∉ FileItem.key <$> files fc)
               newFiles).
Proof.
  intros Hold. rewrite appendToFilesCache_files, fmap_app. split.
  - by intros (_ & _ & Hnew)%NoDup_app.
  - intros Hnew. apply NoDup_app. split; [done|]. split; [|done].
    intros k Hin Hin'. apply list_elem_of_fmap in Hin' as (f & -> & Hf).
    by apply list_elem_of_filter in Hf as [Hf _].
Qed.

(** X7.  When the keys already listed are unique, the keys of the list
    after [appendToFilesCache] are unique exactly if the keys of the files
    of the batch that are not listed yet are unique among themselves; in
    particular they are when the keys of the whole batch are.  The batch
    is compared only with the files already listed, not with itself: a
    batch that holds a file with a new key twice adds it twice, and the
    keys of the list are not unique any more. *)
Theorem appendToFilesCache_unique_keys newFiles cur more fc :
  NoDup (FileItem.key <$> files fc) →
  (NoDup (FileItem.key <$> newFiles) →
   NoDup (FileItem.key <$> files (appendToFilesCache newFiles cur more fc)))
  ∧ (NoDup (FileItem.key <$>
              files (appendToFilesCache newFiles cur more fc))
     ↔ NoDup (FileItem.key <$>
                filter (λ f, FileItem.key f ∉ FileItem.key <$> files fc)
                  newFiles))
  ∧ (∀ f, FileItem.key f ∉ FileItem.key <$> files fc →
          files (appendToFilesCache [f; f] cur more fc)
          = files fc ++ [f; f]
          ∧ ¬ NoDup (FileItem.key <$>
                       files (appendToFilesCache [f; f] cur more fc))).
Proof.
  intros Hold. split; [|split].
  - intros Hnew. apply appended_keys_NoDup; [done|].
    by apply new_keys_NoDup.
  - by apply appended_keys_NoDup.
  - intros f Hf.
    assert (files (appendToFilesCache [f; f] cur more fc)
            = files fc ++ [f; f]) as Heq.
    { rewrite appendToFilesCache_files. f_equal. apply filter_all.
      intros g Hg. apply elem_of_cons in Hg as [->|Hg]; [done|].
      apply elem_of_cons in Hg as [->|Hg]; [done|].
      by apply elem_of_nil in Hg. }
    split; [done|]. rewrite Heq, fmap_app.
    intros (_ & _ & Hdup)%NoDup_app. simpl in Hdup.
    apply NoDup_cons in Hdup as [Hdup _]. apply Hdup. left.
Qed.

Lemma setThumbnail_all_snoc calls call (tc : ThumbnailCache) :
  setThumbnail_all (calls ++ [call]) tc
  = setThumbnail call.1 call.2 (setThumbnail_all calls tc).
Proof. unfold setThumbnail_all. by rewrite foldl_app. Qed.

(** X8.  The thumbnail cache never forgets: after any run of
    [setThumbnail] calls, [getThumbnail] gives for every key the value of
    the last call for it, and for a key that no call named what the cache
    held before. *)
Theorem getThumbnail_latest key calls (tc : ThumbnailCache) :
  getThumbnail key (setThumbnail_all calls tc)
  = match latest_thumbnail key calls with
    | Some dataUrl => Some dataUrl
    | None => getThumbnail key tc
    end.
Proof.
  induction calls as [|[k v] calls IH] using rev_ind; [done|].
  rewrite setThumbnail_all_snoc. unfold latest_thumbnail, getThumbnail in *.
  rewrite filter_app, filter_cons, filter_nil. simpl.
  destruct (decide (k = key)) as [->|Hne].
  - unfold setThumbnail. by rewrite last_snoc, get_set_eq.
  - rewrite app_nil_r. unfold setThumbnail. by rewrite get_set_ne.
Qed.
End FilesCacheFacts.

Lemma appendToFilesCache_unique_keys_witness :
  let fc := appendToFilesCache first_page (Some "b.pdf") true
              filesCache_initial in
  let c := FileItem.mk "c.pdf" 30 "2024-01-03" in
  NoDup (FileItem.key <$>
           files (appendToFilesCache second_page (Some "c.pdf") false fc))
  ∧ files (appendToFilesCache [c; c] None false fc) = files fc ++ [c; c]
  ∧ ¬ NoDup (FileItem.key <$>
               files (appendToFilesCache [c; c] None false fc)).
Proof.
  intros fc c. split.
  - apply (appendToFilesCache_unique_keys second_page (Some "c.pdf") false fc);
      by_compute.
  - apply (appendToFilesCache_unique_keys [c; c] None false fc);
      by_compute.
Defined.

(** ** File ids *)

Section FileIds.
Import Strings.Ascii.

Lemma append_cons a (s t : string) : String a s +:+ t = String a (s +:+ t).
Proof. reflexivity. Qed.

Lemma append_nil_l (t : string) : "" +:+ t = t.
Proof. reflexivity. Qed.


Lemma append_assoc (s1 s2 s3 : string) :
  (s1 +:+ s2) +:+ s3 = s1 +:+ (s2 +:+ s3).
Proof.
  induction s1 as [|a s1 IH]; [done|]. by rewrite !append_cons, IH.
Qed.

Lemma substring_all (s : string) :
  String.substring 0 (String.length s) s = s.
Proof. induction s as [|a s IH]; simpl; [done|by rewrite IH]. Qed.

(** A string is its leading digits and a rest that starts with none. *)
Lemma digits_split (s : string) :
  ∃ rest, s = JsString.digits s +:+ rest ∧ JsString.digits rest = "".
Proof.
  induction s as [|a s (rest & IH & Hrest)]; [by exists ""|]. simpl.
  destruct (JsString.is_digit a) eqn:Ha.
  - exists rest. by rewrite append_cons, <- IH.
  - exists (String a s). simpl. by rewrite Ha.
Qed.

Lemma digits_idemp (s : string) :
  JsString.digits (JsString.digits s) = JsString.digits s.
Proof.
  induction s as [|a s IH]; [done|]. simpl.
  destruct (JsString.is_digit a) eqn:Ha; [|done].
  simpl. by rewrite Ha, IH.
Qed.

Lemma prefix_split (p s : string) :
  String.prefix p s = true →
  s = p +:+ String.substring (String.length p)
              (String.length s - String.length p) s.
Proof.
  revert s. induction p as [|a p IH]; intros s.
  - intros _. cbn [String.length]. rewrite Nat.sub_0_r, substring_all.
    done.
  - destruct s as [|b s]; [done|]. cbn [String.prefix].
    destruct (ascii_dec a b) as [<-|]; [|done].
    intros Hp. rewrite append_cons. f_equal. by apply IH.
Qed.

Lemma prefix_append (p s : string) : String.prefix p (p +:+ s) = true.
Proof.
  induction p as [|a p IH]; [by destruct s|].
  rewrite append_cons. cbn [String.prefix].
  by destruct (ascii_dec a a).
Qed.

Lemma prefix_EFTA (s : string) :
  String.prefix "EFTA" s = true →
  ∃ s', s = "EFTA" +:+ s' ∧
        String.substring 4 (String.length s - 4) s = s'.
Proof. intros Hp. eexists. split; [by apply prefix_split|done]. Qed.

Lemma match_EFTA_here_Some s m :
  JsString.match_EFTA_here s = Some m →
  ∃ d rest,
    s = m +:+ rest ∧ m = "EFTA" +:+ d ∧ d ≠ "" ∧
    JsString.digits d = d ∧ JsString.digits rest = "".
Proof.
  unfold JsString.match_EFTA_here.
  destruct (String.prefix "EFTA" s) eqn:Hp; [|done].
  destruct (prefix_EFTA s Hp) as (s' & -> & ->).
  case_decide as Hd; [done|]. intros [= <-].
  destruct (digits_split s') as (rest & Hs' & Hrest).
  exists (JsString.digits s'), rest.
  split; [|by rewrite digits_idemp].
  rewrite append_assoc. by rewrite <- Hs'.
Qed.

Lemma match_EFTA_Some s m :
  JsString.match_EFTA s = Some m →
  ∃ before d rest,
    s = before +:+ m +:+ rest ∧ m = "EFTA" +:+ d ∧ d ≠ "" ∧
    JsString.digits d = d ∧ JsString.digits rest = "".
Proof.
  induction s as [|a s IH]; [done|].
  cbn [JsString.match_EFTA].
  destruct (JsString.match_EFTA_here (String a s)) as [m'|] eqn:Hhere.
  - intros [= <-].
    destruct (match_EFTA_here_Some _ _ Hhere) as (d & rest & ? & ?).
    by exists "", d, rest.
  - intros (before & d & rest & -> & ?)%IH.
    by exists (String a before), d, rest.
Qed.

Lemma match_EFTA_id d :
  d ≠ "" → JsString.digits d = d →
  JsString.match_EFTA ("EFTA" +:+ d) = Some ("EFTA" +:+ d).
Proof.
  intros Hne Hd.
  assert (Hhere : JsString.match_EFTA_here ("EFTA" +:+ d)
                  = Some ("EFTA" +:+ d)).
  { assert (Hp : String.prefix "EFTA" ("EFTA" +:+ d) = true)
      by by apply prefix_append.
    unfold JsString.match_EFTA_here. rewrite Hp.
    destruct (prefix_EFTA ("EFTA" +:+ d) Hp) as (s' & Heq & ->).
    apply (inj (String.append "EFTA")) in Heq as <-.
    rewrite Hd. by rewrite decide_False. }
  change ("EFTA" +:+ d) with (String "E" ("FTA" +:+ d)) at 1.
  cbn [JsString.match_EFTA].
  change (String "E" ("FTA" +:+ d)) with ("EFTA" +:+ d).
  by rewrite Hhere.
Qed.

Lemma digits_append (d rest : string) :
  JsString.digits d = d → JsString.digits rest = "" →
  JsString.digits (d +:+ rest) = d.
Proof.
  intros Hd Hrest. induction d as [|a d IH]; [done|].
  rewrite append_cons. simpl in Hd |- *.
  destruct (JsString.is_digit a); [|done].
  injection Hd as Hd. by rewrite IH.
Qed.

Lemma digits_head (d : string) :
  d ≠ "" → JsString.digits d = d →
  ∃ a d', d = String a d' ∧ JsString.is_digit a = true.
Proof.
  destruct d as [|a d']; [done|]. intros _. simpl.
  destruct (JsString.is_digit a) eqn:Ha; [|done]. by exists a, d'.
Qed.

Lemma append_inj_length (s1 s2 t1 t2 : string) :
  String.length s1 = String.length s2 →
  s1 +:+ t1 = s2 +:+ t2 → s1 = s2 ∧ t1 = t2.
Proof.
  revert s2. induction s1 as [|a s1 IH]; intros [|b s2] Hlen; try done.
  rewrite !append_cons. intros [= -> Heq]. simpl in Hlen.
  destruct (IH s2) as [-> ->]; [lia|done|done].
Qed.

Lemma match_EFTA_here_start s a rest :
  JsString.is_digit a = true → s = "EFTA" +:+ String a rest →
  JsString.match_EFTA_here s
  = Some ("EFTA" +:+ JsString.digits (String a rest)).
Proof.
  intros Ha ->.
  assert (Hp : String.prefix "EFTA" ("EFTA" +:+ String a rest) = true)
    by by apply prefix_append.
  unfold JsString.match_EFTA_here. rewrite Hp.
  destruct (prefix_EFTA _ Hp) as (s' & Heq & ->).
  apply (inj (String.append "EFTA")) in Heq as <-.
  simpl JsString.digits. rewrite Ha. by rewrite decide_False.
Qed.

Lemma EFTA_match_starts key before m :
  EFTA_match_at key before m → EFTA_starts_at key before.
Proof.
  intros (d & rest & -> & -> & Hne & Hd & _).
  destruct (digits_head d Hne Hd) as (a & d' & -> & Ha).
  exists a, (d' +:+ rest). split; [done|].
  by rewrite append_assoc, append_cons.
Qed.

(** [match] finds the leftmost place where a match can start. *)
Lemma match_EFTA_leftmost s m :
  JsString.match_EFTA s = Some m →
  ∃ before,
    EFTA_match_at s before m ∧
    ∀ before', String.length before' < String.length before →
               ¬ EFTA_starts_at s before'.
Proof.
  induction s as [|a s IH]; [done|].
  cbn [JsString.match_EFTA].
  destruct (JsString.match_EFTA_here (String a s)) as [m'|] eqn:Hhere.
  - intros [= <-].
    destruct (match_EFTA_here_Some _ _ Hhere) as (d & rest & ? & ?).
    exists "". split; [by exists d, rest|]. simpl. lia.
  - intros (before & (d & rest & -> & Hm) & Hleft)%IH.
    exists (String a before). split; [by exists d, rest|].
    intros [|c before'] Hlen (a' & rest' & Ha' & Heq).
    + rewrite append_nil_l in Heq.
      by rewrite (match_EFTA_here_start _ a' rest' Ha' Heq) in Hhere.
    + rewrite !append_cons in Heq. injection Heq as -> Heq.
      apply (Hleft before'); [simpl in Hlen; lia|]. by exists a', rest'.
Qed.

(** X9.  [getFileId] gives the first [EFTA] number in the key, and the key
    itself when there is none.  When [EFTA] and a run of one or more
    digits, as long as it can be, stand in the key at a place before which
    no match of [/EFTA\d+/] can start, the result is that text: the
    leftmost match, with all its digits.  When [EFTA] and a digit stand
    nowhere in the key, the result is the key.  In every case the result
    is the key, or it is [EFTA] and a run of one or more digits that
    stands in the key and is followed by no further digit.  Taking the id
    of an id changes nothing. *)
Theorem getFileId_spec key :
  (∀ before m,
     EFTA_match_at key before m →
     (∀ before', String.length before' < String.length before →
                 ¬ EFTA_starts_at key before') →
     getFileId key = m) ∧
  ((∀ before, ¬ EFTA_starts_at key before) → getFileId key = key) ∧
  (getFileId key = key ∨
   ∃ before d rest,
     key = before +:+ getFileId key +:+ rest ∧
     getFileId key = "EFTA" +:+ d ∧ d ≠ "" ∧
     JsString.digits d = d ∧ JsString.digits rest = "") ∧
  getFileId (getFileId key) = getFileId key.
Proof.
  unfold getFileId at 1 2 3 4 5 7 8.
  destruct (JsString.match_EFTA key) as [m0|] eqn:Hm.
  - destruct (match_EFTA_leftmost _ _ Hm) as (before0 & Hat0 & Hleft0).
    split; [|split; [|split]].
    + intros before m Hat Hleft.
      destruct (Nat.lt_trichotomy (String.length before0)
                  (String.length before)) as [Hlt|[Hlen|Hlt]].
      * destruct (Hleft before0 Hlt). by eapply EFTA_match_starts.
      * destruct Hat0 as (d0 & rest0 & Hkey0 & -> & _ & Hd0 & Hrest0).
        destruct Hat as (d & rest & Hkey & -> & _ & Hd & Hrest).
        rewrite Hkey0 in Hkey.
        apply append_inj_length in Hkey as [_ Hkey]; [|done].
        rewrite !append_assoc in Hkey.
        apply (inj (String.append "EFTA")) in Hkey.
        apply (f_equal JsString.digits) in Hkey.
        rewrite !digits_append in Hkey by done. by rewrite Hkey.
      * destruct (Hleft0 before Hlt). by eapply EFTA_match_starts.
    + intros Hnone. destruct (Hnone before0).
      by eapply EFTA_match_starts.
    + right. destruct Hat0 as (d0 & rest0 & ?). by exists before0, d0, rest0.
    + destruct Hat0 as (d0 & rest0 & _ & -> & Hne & Hd & _).
      unfold getFileId. by rewrite match_EFTA_id.
  - split; [|split; [done|split; [by left|]]].
    + intros before m Hat%EFTA_match_starts _.
      destruct Hat as (a & rest & Ha & ->). exfalso.
      clear -Hm Ha. induction before as [|c before IH].
      * rewrite append_nil_l in Hm.
        destruct (String.append "EFTA" (String a rest)) as [|e s] eqn:Hs;
          [done|].
        cbn [JsString.match_EFTA] in Hm. rewrite <- Hs in Hm.
        by rewrite (match_EFTA_here_start _ a rest Ha eq_refl) in Hm.
      * rewrite append_cons in Hm. cbn [JsString.match_EFTA] in Hm.
        destruct (JsString.match_EFTA_here _); [done|]. by apply IH.
    + unfold getFileId. by rewrite Hm.
Qed.
End FileIds.

Lemma getFileId_spec_witness :
  getFileId "a/EFTA12-EFTA34.pdf" = "EFTA12".
Proof.
  apply (proj1 (getFileId_spec "a/EFTA12-EFTA34.pdf") "a/" "EFTA12").
  - by exists "12", "-EFTA34.pdf".
  - intros [|c [|c' before']] Hlen (a & rest & _ & Heq);
      [| |simpl in Hlen; lia]; by vm_compute in Heq.
Defined.

(** ** Arrays *)

Section Arrays.
Context {A : Type}.
Implicit Types (xs : list A) (p : A → bool).

Lemma findIndex_from_list_find p xs i :
  JsArray.findIndex_from p xs i
  = match list_find (λ x, p x = true) xs with
    | Some (j, _) => (i + Z.of_nat j)%Z
    | None => (-1)%Z
    end.
Proof.
  revert i. induction xs as [|x xs IH]; intros i; [done|]. simpl.
  destruct (p x) eqn:Hx.
  - rewrite decide_True by done. lia.
  - rewrite decide_False by done. rewrite IH.
    destruct (list_find _ xs) as [[j y]|]; simpl; lia.
Qed.

Lemma findIndex_list_find p xs :
  JsArray.findIndex p xs
  = match list_find (λ x, p x = true) xs with
    | Some (j, _) => Z.of_nat j
    | None => (-1)%Z
    end.
Proof.
  unfold JsArray.findIndex. rewrite findIndex_from_list_find.
  by destruct (list_find _ xs) as [[j y]|].
Qed.

Lemma at_index_nat xs (i : nat) : JsArray.at_index xs (Z.of_nat i) = xs !! i.
Proof.
  unfold JsArray.at_index.
  destruct (Z.ltb_spec (Z.of_nat i) 0); [lia|]. by rewrite Nat2Z.id.
Qed.

Lemma sort_insert_perm (cmp : A → A → Z) x xs :
  JsArray.sort_insert cmp x xs ≡ₚ x :: xs.
Proof.
  induction xs as [|y xs IH]; [done|]. simpl.
  destruct (cmp x y <=? 0)%Z; [done|].
  rewrite IH. apply Permutation_swap.
Qed.

Lemma sort_perm (cmp : A → A → Z) xs : JsArray.sort cmp xs ≡ₚ xs.
Proof.
  induction xs as [|x xs IH]; [done|].
  unfold JsArray.sort in *. simpl. by rewrite sort_insert_perm, IH.
Qed.

(** [slice] with bounds inside the array. *)
Lemma slice_take_drop xs (i n : nat) :
  JsArray.slice xs (Z.of_nat i) (Z.of_nat i + Z.of_nat n)
  = take n (drop i xs).
Proof.
  unfold JsArray.slice, JsArray.slice_bound.
  destruct (Z.ltb_spec (Z.of_nat i) 0); [lia|].
  destruct (Z.ltb_spec (Z.of_nat i + Z.of_nat n) 0); [lia|].
  destruct (decide (i ≤ length xs)) as [Hi|Hi].
  - rewrite (Z.min_l (Z.of_nat i)) by lia. rewrite Nat2Z.id.
    destruct (decide (i + n ≤ length xs)) as [Hn|Hn].
    + rewrite Z.min_l by lia. f_equal. lia.
    + rewrite Z.min_r by lia.
      rewrite !take_ge; [done|rewrite length_drop; lia..].
  - rewrite !Z.min_r by lia. rewrite Z.sub_diag. simpl.
    rewrite (drop_ge xs i) by lia. by rewrite take_nil.
Qed.
End Arrays.

Lemma take_five_lookups {A : Type} (xs : list A) :
  take 5 xs
  = omap id [xs !! 0; xs !! 1; xs !! 2; xs !! 3; xs !! 4].
Proof. by destruct xs as [|a [|b [|c [|d [|e xs]]]]]. Qed.

(** The first index of a key in a list without duplicates. *)
Lemma list_find_NoDup (keys : list string) (i : nat) (k : string) :
  NoDup keys → keys !! i = Some k →
  list_find (λ key, bool_decide (key = k) = true) keys = Some (i, k).
Proof.
  intros Hnd Hi. apply list_find_Some. split; [done|].
  split; [by apply bool_decide_eq_true|].
  intros j y Hj Hlt Hy. apply bool_decide_eq_true in Hy as ->.
  pose proof (NoDup_lookup _ _ _ _ Hnd Hi Hj). lia.
Qed.

Lemma list_find_key_NoDup (fs : list FileItem.t) (i : nat) (f : FileItem.t) :
  NoDup (FileItem.key <$> fs) → fs !! i = Some f →
  list_find (λ g, bool_decide (FileItem.key g = FileItem.key f) = true) fs
  = Some (i, f).
Proof.
  intros Hnd Hi. apply list_find_Some. split; [done|].
  split; [by apply bool_decide_eq_true|].
  intros j g Hj Hlt Hg. apply bool_decide_eq_true in Hg.
  assert (Hi' : (FileItem.key <$> fs) !! i = Some (FileItem.key f))
    by by rewrite list_lookup_fmap, Hi.
  assert (Hj' : (FileItem.key <$> fs) !! j = Some (FileItem.key f))
    by by rewrite list_lookup_fmap, Hj, <- Hg.
  pose proof (NoDup_lookup _ _ _ _ Hnd Hi' Hj'). lia.
Qed.

(** ** Moving between files *)

Section Navigation.
Variable localeCompare : string → string → Z.
Variable getFilesForCelebrity : string → Z → list string.
Implicit Types (files : list FileItem.t) (f : FilesContext.Filters).
Implicit Types (filters : option FilesContext.Filters).

Lemma sortedFiles_perm files :
  FilesContext.sortedFiles localeCompare files ≡ₚ files.
Proof. apply sort_perm. Qed.

Lemma getFilteredFileKeys_sorted files f k :
  k ∈ FilesContext.getFilteredFileKeys getFilesForCelebrity
        (FilesContext.sortedFiles localeCompare files) f ↔
  k ∈ FilesContext.getFilteredFileKeys getFilesForCelebrity files f.
Proof.
  unfold FilesContext.getFilteredFileKeys.
  destruct (selected_filter (FilesContext.celebrity f)); [done|].
  destruct (selected_filter (FilesContext.collection f)).
  - rewrite !list_elem_of_fmap. apply exist_proper. intros g.
    by rewrite !list_elem_of_filter, sortedFiles_perm.
  - by rewrite sortedFiles_perm.
Qed.

(** What [getAdjacentFile] moves in, up to order. *)
Lemma fileKeys_elem files filters k :
  k ∈ FilesContext.fileKeys localeCompare getFilesForCelebrity files filters
  ↔ match filters with
    | Some f =>
        k ∈ FilesContext.getFilteredFileKeys getFilesForCelebrity files f
    | None => k ∈ FileItem.key <$> files
    end.
Proof.
  unfold FilesContext.fileKeys. destruct filters as [f|].
  - destruct (bool_decide (FilesContext.collection f ≠ Some "All")
              || bool_decide (FilesContext.celebrity f ≠ Some "All"))
      eqn:Hany.
    + by rewrite sort_perm, getFilteredFileKeys_sorted.
    + apply orb_false_iff in Hany as [Hcol Hcel].
      apply bool_decide_eq_false in Hcol, Hcel.
      apply dec_stable in Hcol, Hcel.
      unfold FilesContext.getFilteredFileKeys. rewrite Hcol, Hcel. simpl.
      by rewrite sortedFiles_perm.
  - by rewrite sortedFiles_perm.
Qed.

Lemma getAdjacentFile_find files cur off filters :
  FilesContext.getAdjacentFile localeCompare getFilesForCelebrity files cur
    off filters
  = let keys :=
      FilesContext.fileKeys localeCompare getFilesForCelebrity files
        filters in
    match list_find (λ key, bool_decide (key = cur) = true) keys with
    | Some (i, _) =>
        if bool_decide (0 ≤ Z.of_nat i + off < Z.of_nat (length keys))%Z
        then keys !! Z.to_nat (Z.of_nat i + off)
        else None
    | None => None
    end.
Proof.
  unfold FilesContext.getAdjacentFile. cbv zeta.
  rewrite findIndex_list_find.
  destruct (list_find _ _) as [[i y]|]; [|done].
  destruct (Z.eqb_spec (Z.of_nat i) (-1)); [lia|].
  unfold JsArray.at_index.
  destruct (Z.ltb_spec (Z.of_nat i + off) 0),
    (Z.leb_spec (Z.of_nat (length
       (FilesContext.fileKeys localeCompare getFilesForCelebrity files
          filters))) (Z.of_nat i + off));
    simpl; case_bool_decide; (done || lia).
Qed.

(** X10.  [getAdjacentFile] never leaves the list it moves in: when it
    returns a path, that path and the current one are both among the keys
    that [getFilteredFileKeys] gives for the filters (the keys of all
    files when there are no filters); when the current path is not among
    them it returns [null] for every offset. *)
Theorem getAdjacentFile_in_list files cur off filters :
  let listed k :=
    match filters with
    | Some f =>
        k ∈ FilesContext.getFilteredFileKeys getFilesForCelebrity files f
    | None => k ∈ FileItem.key <$> files
    end in
  (∀ p,
     FilesContext.getAdjacentFile localeCompare getFilesForCelebrity files
       cur off filters = Some p → listed cur ∧ listed p) ∧
  (¬ listed cur →
   FilesContext.getAdjacentFile localeCompare getFilesForCelebrity files
     cur off filters = None).
Proof.
  intros listed.
  assert (Hlisted : ∀ k,
    k ∈ FilesContext.fileKeys localeCompare getFilesForCelebrity files
          filters ↔ listed k) by apply fileKeys_elem.
  rewrite getAdjacentFile_find. cbv zeta.
  destruct (list_find _ _) as [[i y]|] eqn:Hfind.
  - apply list_find_Some in Hfind as (Hi & ->%bool_decide_eq_true & _).
    split.
    + intros p Hp. case_bool_decide; [|done]. split.
      * apply Hlisted. by eapply list_elem_of_lookup_2.
      * apply Hlisted. by eapply list_elem_of_lookup_2.
    + intros Hnot. destruct Hnot. apply Hlisted.
      by eapply list_elem_of_lookup_2.
  - done.
Qed.

(** X11.  In a list without duplicates the steps of [getAdjacentFile]
    add up: from the file that an offset [a] leads to, an offset [b] leads
    where [a + b] leads from the start.  So the offset [-a] leads back,
    and the offset [0] stays. *)
Theorem getAdjacentFile_steps_add_up files cur a b filters p :
  NoDup (FilesContext.fileKeys localeCompare getFilesForCelebrity files
           filters) →
  FilesContext.getAdjacentFile localeCompare getFilesForCelebrity files cur
    a filters = Some p →
  FilesContext.getAdjacentFile localeCompare getFilesForCelebrity files p
    b filters
  = FilesContext.getAdjacentFile localeCompare getFilesForCelebrity files
      cur (a + b) filters ∧
  FilesContext.getAdjacentFile localeCompare getFilesForCelebrity files p
    (- a) filters = Some cur ∧
  FilesContext.getAdjacentFile localeCompare getFilesForCelebrity files cur
    0 filters = Some cur.
Proof.
  intros Hnd. rewrite !getAdjacentFile_find. cbv zeta.
  destruct (list_find _ _) as [[i y]|] eqn:Hfind; [|done].
  apply list_find_Some in Hfind as (Hi & ->%bool_decide_eq_true & _).
  case_bool_decide as Ha; [|done]. intros Hp.
  rewrite (list_find_NoDup _ _ _ Hnd Hp).
  rewrite Z2Nat.id by lia.
  assert (Hlen : i < length
    (FilesContext.fileKeys localeCompare getFilesForCelebrity files
       filters)) by by eapply lookup_lt_Some.
  split; [|split].
  - replace (Z.of_nat i + a + b)%Z with (Z.of_nat i + (a + b))%Z by lia.
    done.
  - rewrite bool_decide_eq_true_2 by lia.
    replace (Z.of_nat i + a + - a)%Z with (Z.of_nat i) by lia.
    by rewrite Nat2Z.id.
  - rewrite bool_decide_eq_true_2 by lia.
    rewrite Z.add_0_r. by rewrite Nat2Z.id.
Qed.

(** The keys are unique when the files' keys are and no celebrity is
    selected. *)
Lemma fileKeys_NoDup files filters :
  NoDup (FileItem.key <$> files) →
  match filters with
  | Some f => selected_filter (FilesContext.celebrity f) = None
  | None => True
  end →
  NoDup (FilesContext.fileKeys localeCompare getFilesForCelebrity files
           filters).
Proof.
  intros Hnd Hcel.
  assert (Hsorted :
    NoDup (FileItem.key <$> FilesContext.sortedFiles localeCompare files))
    by by rewrite sortedFiles_perm.
  unfold FilesContext.fileKeys. destruct filters as [f|]; [|done].
  destruct (_ || _); [|done]. rewrite sort_perm.
  unfold FilesContext.getFilteredFileKeys. rewrite Hcel.
  destruct (selected_filter (FilesContext.collection f)); [|done].
  eapply sublist_NoDup; [done|]. apply fmap_sublist, sublist_filter.
Qed.

Lemma getAdjacentFile_forward files filters cur (i n : nat) :
  let keys :=
    FilesContext.fileKeys localeCompare getFilesForCelebrity files
      filters in
  NoDup keys → keys !! i = Some cur →
  FilesContext.getAdjacentFile localeCompare getFilesForCelebrity files cur
    (Z.of_nat n) filters = keys !! (i + n).
Proof.
  intros keys Hnd Hi. rewrite getAdjacentFile_find. cbv zeta.
  fold keys. rewrite (list_find_NoDup _ _ _ Hnd Hi).
  replace (Z.of_nat i + Z.of_nat n)%Z with (Z.of_nat (i + n)) by lia.
  rewrite Nat2Z.id. case_bool_decide as Hb; [done|].
  symmetry. apply lookup_ge_None. lia.
Qed.

Lemma push_truthy (os : list (option string)) (acc : list string) :
  foldl (λ paths o,
           match o with
           | Some path => if truthy path then paths ++ [path] else paths
           | None => paths
           end) acc os
  = acc ++ filter (λ s, s ≠ "") (omap id os).
Proof.
  revert acc. induction os as [|[s|] os IH]; intros acc; simpl.
  - by rewrite app_nil_r.
  - rewrite IH, filter_cons. unfold truthy.
    case_bool_decide; case_decide; try done.
    by rewrite <- app_assoc.
  - apply IH.
Qed.

(** X12.  Each view prefetches the next five entries of its own list.
    On the file page, when the keys of the page's list [fileKeys] are
    unique and the current path is at index [i] of it, [nextPaths] holds
    the up to five keys that follow index [i] in that list, those that are
    not empty.  In the browser, when the keys of [filteredFiles] are
    unique and the open file, whose key is not empty, is at index [j] of
    it, [nextFiles] holds the up to five files that follow index [j] in
    [filteredFiles].  The two lists are ordered and filtered by each view
    separately, and nothing is stated about how the two windows relate. *)
Theorem next_five files f filePath (i : nat)
    (filteredFiles : list FileItem.t) (j : nat) (open : FileItem.t) :
  let keys :=
    FilesContext.fileKeys localeCompare getFilesForCelebrity files
      (Some f) in
  (NoDup keys → keys !! i = Some filePath →
   FilePageNav.nextPaths localeCompare getFilesForCelebrity files filePath f
   = filter (λ s, s ≠ "") (take 5 (drop (S i) keys))) ∧
  (NoDup (FileItem.key <$> filteredFiles) →
   filteredFiles !! j = Some open → FileItem.key open ≠ "" →
   Browser.nextFiles filteredFiles (Some (FileItem.key open))
   = take 5 (drop (S j) filteredFiles)).
Proof.
  intros keys. split.
  - intros Hnd Hi. unfold FilePageNav.nextPaths.
    change (seqZ 1 5) with (Z.of_nat <$> [1; 2; 3; 4; 5]).
    rewrite foldl_fmap. simpl foldl.
    rewrite !(getAdjacentFile_forward files (Some f) filePath i _ Hnd Hi).
    fold keys. rewrite take_five_lookups, !lookup_drop.
    replace (S i + 0) with (i + 1) by lia.
    replace (S i + 1) with (i + 2) by lia.
    replace (S i + 2) with (i + 3) by lia.
    replace (S i + 3) with (i + 4) by lia.
    replace (S i + 4) with (i + 5) by lia.
    exact (push_truthy
             [keys !! (i + 1); keys !! (i + 2); keys !! (i + 3);
              keys !! (i + 4); keys !! (i + 5)] []).
  - intros Hnd Hj Hopen. unfold Browser.nextFiles, Browser.selectedFileIndex.
    unfold truthy. rewrite bool_decide_eq_true_2 by done.
    rewrite findIndex_list_find, (list_find_key_NoDup _ _ _ Hnd Hj).
    destruct (Z.leb_spec 0 (Z.of_nat j)); [|lia].
    replace (Z.of_nat j + 1)%Z with (Z.of_nat (S j)) by lia.
    replace (Z.of_nat j + 6)%Z with (Z.of_nat (S j) + Z.of_nat 5)%Z by lia.
    apply slice_take_drop.
Qed.
End Navigation.

(** ** The modal of the browser *)

Section ModalFacts.
Variable filteredFiles : list FileItem.t.
Implicit Types (openFile : option string).

Lemma selectedFileIndex_Some openFile i :
  Browser.selectedFileIndex filteredFiles openFile = Some i →
  ∃ (n : nat) f k,
    i = Z.of_nat n ∧ openFile = Some k ∧ filteredFiles !! n = Some f ∧
    FileItem.key f = k.
Proof.
  unfold Browser.selectedFileIndex. destruct openFile as [k|]; [|done].
  destruct (truthy k); [|done]. rewrite findIndex_list_find.
  destruct (list_find _ _) as [[n f]|] eqn:Hfind; [|done].
  apply list_find_Some in Hfind as (Hn & Hk%bool_decide_eq_true & _).
  destruct (Z.leb_spec 0 (Z.of_nat n)); [|done].
  intros [= <-]. by exists n, f, k.
Qed.

(** X13.  The handlers of the modal are safe for every list and every
    value of [openFile]: they never read outside the list, they leave
    [openFile] alone when [hasPrev] or [hasNext] is false, and otherwise
    they set it to the key of a file of the list.  With nothing open, or
    with a key that is not in the list, there is no selected file and
    neither direction is offered. *)
Theorem modal_handlers_stay_in_list openFile :
  (∃ o, Browser.handlePrev filteredFiles openFile = Some o ∧
        (if Browser.hasPrev filteredFiles openFile
         then ∃ f, f ∈ filteredFiles ∧ o = Some (FileItem.key f)
         else o = openFile)) ∧
  (∃ o, Browser.handleNext filteredFiles openFile = Some o ∧
        (if Browser.hasNext filteredFiles openFile
         then ∃ f, f ∈ filteredFiles ∧ o = Some (FileItem.key f)
         else o = openFile)) ∧
  ((∀ k, openFile = Some k → k ∉ FileItem.key <$> filteredFiles) →
   Browser.selectedFile filteredFiles openFile = None ∧
   Browser.hasPrev filteredFiles openFile = false ∧
   Browser.hasNext filteredFiles openFile = false).
Proof.
  unfold Browser.handlePrev, Browser.handleNext, Browser.hasPrev,
    Browser.hasNext, Browser.selectedFile.
  destruct (Browser.selectedFileIndex filteredFiles openFile) as [i|]
    eqn:Hsel.
  - destruct (selectedFileIndex_Some _ _ Hsel)
      as (n & f & k & -> & -> & Hn & Hk).
    assert (Hlen : n < length filteredFiles) by by eapply lookup_lt_Some.
    split; [|split].
    + destruct (Z.ltb_spec 0 (Z.of_nat n)); [|by eexists].
      replace (Z.of_nat n - 1)%Z with (Z.of_nat (n - 1)) by lia.
      rewrite at_index_nat.
      destruct (lookup_lt_is_Some_2 filteredFiles (n - 1)) as [g Hg];
        [lia|].
      rewrite Hg. simpl. eexists. split; [done|]. exists g.
      split; [by eapply list_elem_of_lookup_2|done].
    + destruct (Z.ltb_spec (Z.of_nat n)
                  (Z.of_nat (length filteredFiles) - 1)); [|by eexists].
      replace (Z.of_nat n + 1)%Z with (Z.of_nat (n + 1)) by lia.
      rewrite at_index_nat.
      destruct (lookup_lt_is_Some_2 filteredFiles (n + 1)) as [g Hg];
        [lia|].
      rewrite Hg. simpl. eexists. split; [done|]. exists g.
      split; [by eapply list_elem_of_lookup_2|done].
    + intros Hout. destruct (Hout k eq_refl).
      apply list_elem_of_fmap. exists f.
      split; [done|by eapply list_elem_of_lookup_2].
  - split; [by eexists|]. split; [by eexists|done].
Qed.

(** X14.  With unique, non-empty keys the modal walks the list one file
    at a time: on the file at index [i] that file is the selected one,
    [hasPrev] says that [i] is not the first index and [hasNext] that it
    is not the last, [handleNext] opens the file at [i + 1] and
    [handlePrev] the file at [i - 1], and each stays where it is at its
    end of the list. *)
Theorem modal_walks_the_list (i : nat) f :
  NoDup (FileItem.key <$> filteredFiles) →
  Forall (λ g, FileItem.key g ≠ "") filteredFiles →
  filteredFiles !! i = Some f →
  let openFile := Some (FileItem.key f) in
  Browser.selectedFile filteredFiles openFile = Some f ∧
  Browser.hasPrev filteredFiles openFile = bool_decide (0 < i) ∧
  Browser.hasNext filteredFiles openFile
  = bool_decide (S i < length filteredFiles) ∧
  Browser.handlePrev filteredFiles openFile
  = Some (Some (FileItem.key (default f (filteredFiles !! (i - 1))))) ∧
  Browser.handleNext filteredFiles openFile
  = Some (Some (FileItem.key (default f (filteredFiles !! (S i))))).
Proof.
  intros Hnd Hkeys Hi openFile.
  assert (Hlen : i < length filteredFiles) by by eapply lookup_lt_Some.
  assert (Hsel : Browser.selectedFileIndex filteredFiles openFile
                 = Some (Z.of_nat i)).
  { unfold Browser.selectedFileIndex, openFile, truthy.
    rewrite bool_decide_eq_true_2.
    - rewrite findIndex_list_find, (list_find_key_NoDup _ _ _ Hnd Hi).
      by destruct (Z.leb_spec 0 (Z.of_nat i)); [|lia].
    - rewrite Forall_forall in Hkeys.
      by eapply Hkeys, list_elem_of_lookup_2. }
  unfold Browser.selectedFile, Browser.hasPrev, Browser.hasNext,
    Browser.handlePrev, Browser.handleNext.
  rewrite Hsel. rewrite at_index_nat.
  split; [done|]. split; [|split; [|split]].
  - destruct (Z.ltb_spec 0 (Z.of_nat i)); case_bool_decide; (done || lia).
  - destruct (Z.ltb_spec (Z.of_nat i)
                (Z.of_nat (length filteredFiles) - 1));
      case_bool_decide; (done || lia).
  - destruct (Z.ltb_spec 0 (Z.of_nat i)).
    + replace (Z.of_nat i - 1)%Z with (Z.of_nat (i - 1)) by lia.
      rewrite at_index_nat.
      destruct (lookup_lt_is_Some_2 filteredFiles (i - 1)) as [g Hg];
        [lia|].
      by rewrite Hg.
    + replace (i - 1) with i by lia. by rewrite Hi.
  - destruct (Z.ltb_spec (Z.of_nat i)
                (Z.of_nat (length filteredFiles) - 1)).
    + replace (Z.of_nat i + 1)%Z with (Z.of_nat (S i)) by lia.
      rewrite at_index_nat.
      destruct (lookup_lt_is_Some_2 filteredFiles (S i)) as [g Hg];
        [lia|].
      by rewrite Hg.
    + rewrite (proj2 (lookup_ge_None filteredFiles (S i))) by lia. done.
Qed.
End ModalFacts.

(** ** What the prefetch effects schedule *)

Section Schedule.
Import Strings.Ascii.

Lemma split_no_comma (s : string) :
  has_no_comma s → JsString.split JsString.comma s = [s].
Proof.
  unfold has_no_comma. induction s as [|a s IH]; [done|]. simpl.
  intros [Ha Hs]%not_elem_of_cons.
  rewrite decide_False by done. by rewrite IH.
Qed.

Lemma split_append (s rest : string) :
  has_no_comma s →
  JsString.split JsString.comma (s +:+ String JsString.comma rest)
  = s :: JsString.split JsString.comma rest.
Proof.
  unfold has_no_comma. induction s as [|a s IH].
  - intros _. rewrite append_nil_l. cbn [JsString.split].
    by rewrite decide_True.
  - rewrite append_cons. simpl. intros [Ha Hs]%not_elem_of_cons.
    rewrite decide_False by done. by rewrite IH.
Qed.

Lemma split_join (keys : list string) :
  keys ≠ [] → Forall has_no_comma keys →
  JsString.split JsString.comma (JsArray.join "," keys) = keys.
Proof.
  induction keys as [|k keys IH]; [done|]. intros _ [Hk Hkeys]%Forall_cons.
  destruct keys as [|k' keys]; [by apply split_no_comma|].
  cbn [JsArray.join]. rewrite append_cons, append_nil_l.
  rewrite split_append by done. f_equal. by apply IH.
Qed.

Lemma join_truthy (keys : list string) :
  keys ≠ [] → Forall (λ k, k ≠ "") keys →
  truthy (JsArray.join "," keys) = true.
Proof.
  destruct keys as [|k keys]; [done|]. intros _ [Hk _]%Forall_cons.
  apply truthy_spec. cbn [JsArray.join].
  destruct k as [|a k]; [done|]. by destruct keys.
Qed.

Lemma prefetched_keys (keys : list string) :
  keys ≠ [] → Forall plain_key keys →
  truthy (JsArray.join "," keys) = true ∧
  filter (λ s, truthy s = true)
    (JsString.split JsString.comma (JsArray.join "," keys)) = keys.
Proof.
  intros Hne Hkeys.
  assert (H1 : Forall (λ k, k ≠ "") keys).
  { eapply Forall_impl; [exact Hkeys|]. by intros k [? _]. }
  assert (H2 : Forall has_no_comma keys).
  { eapply Forall_impl; [exact Hkeys|]. by intros k [_ ?]. }
  split; [by apply join_truthy|]. rewrite split_join by done.
  apply filter_all. intros k Hk. apply truthy_spec.
  rewrite Forall_forall in H1. by apply H1.
Qed.

(** X15.  The prefetch effect of the modal never asks for the empty key,
    and for keys that are not empty and hold no comma it asks for exactly
    the [nextFiles] it was given, in their order, 100 ms apart; while the
    file is loading it asks for nothing. *)
Theorem modal_prefetch_schedule loading (nextFiles : list FileItem.t) :
  (∀ delay key,
     (delay, key) ∈ Browser.prefetch_schedule loading nextFiles →
     key ≠ "") ∧
  (Forall (λ f, plain_key (FileItem.key f)) nextFiles →
   Browser.prefetch_schedule loading nextFiles
   = if loading then []
     else imap (λ index key, ((Z.of_nat index * 100)%Z, key))
            (FileItem.key <$> nextFiles)).
Proof.
  unfold Browser.prefetch_schedule. split.
  - intros delay key. destruct (_ || _); [by intros ?%elem_of_nil|].
    intros (i & k & [= -> ->] & Hi)%elem_of_lookup_imap_1.
    apply list_elem_of_lookup_2, list_elem_of_filter in Hi as [Hi _].
    by apply truthy_spec.
  - intros Hkeys. destruct loading; [done|]. simpl.
    destruct nextFiles as [|f nextFiles]; [done|].
    destruct (prefetched_keys (FileItem.key <$> f :: nextFiles))
      as [-> ->]; [done|by apply Forall_fmap|done].
Qed.

(** X16.  The prefetch effect of the file page asks for the next paths,
    100 ms apart, and then for the previous one at 600 ms; on the last
    file of the list, where there is no next path, it asks for nothing,
    not even for the previous file. *)
Theorem page_prefetch_schedule loading (nextPaths : list string)
    (prevPath : option string) :
  FilePageNav.prefetch_schedule loading [] prevPath = [] ∧
  (Forall plain_key nextPaths →
   FilePageNav.prefetch_schedule loading nextPaths prevPath
   = if loading || bool_decide (nextPaths = []) then []
     else imap (λ index path, ((Z.of_nat index * 100)%Z, path)) nextPaths
            ++ match prevPath with
               | Some p => if truthy p then [(600%Z, p)] else []
               | None => []
               end).
Proof.
  unfold FilePageNav.prefetch_schedule. split.
  - by destruct loading.
  - intros Hkeys. destruct loading; [done|]. simpl.
    destruct nextPaths as [|k nextPaths]; [done|].
    rewrite bool_decide_eq_false_2 by done.
    by destruct (prefetched_keys (k :: nextPaths)) as [-> ->].
Qed.
End Schedule.

(** ** The browser, the file page and the file ids *)

Section Views.
Variable localeCompare : string → string → Z.
Variable getFilesForCelebrity : string → Z → list string.
Variable getTime : string → option Z.
Implicit Types (files : list FileItem.t).

Lemma filteredFiles_elem files collectionFilter celebrityFilter sortBy f :
  f ∈ Browser.filteredFiles localeCompare getFilesForCelebrity getTime files
        collectionFilter celebrityFilter sortBy ↔
  f ∈ files ∧
  (collectionFilter ≠ "All" →
   String.prefix collectionFilter (FileItem.key f) = true) ∧
  (celebrityFilter ≠ "All" →
   FileItem.key f ∈ getFilesForCelebrity celebrityFilter 99).
Proof.
  unfold Browser.filteredFiles. rewrite sort_perm.
  destruct (decide (celebrityFilter ≠ "All")) as [Hcel|Hcel];
    destruct (decide (collectionFilter ≠ "All")) as [Hcol|Hcol];
    rewrite ?list_elem_of_filter, ?elem_of_list_to_set; tauto.
Qed.

(** X17.  What the browser lists, the file page can move through: under
    the same two filters, every file of the browser's list has its key in
    the list of [getAdjacentFile], which finds it there. *)
Theorem browser_files_are_navigable files collectionFilter celebrityFilter
    sortBy f :
  let filters :=
    Some (FilePageNav.filters (Some collectionFilter)
            (Some celebrityFilter)) in
  f ∈ Browser.filteredFiles localeCompare getFilesForCelebrity getTime
        (FilesContext.sortedFiles localeCompare files)
        collectionFilter celebrityFilter sortBy →
  FileItem.key f
    ∈ FilesContext.fileKeys localeCompare getFilesForCelebrity files filters
  ∧ FilesContext.getAdjacentFile localeCompare getFilesForCelebrity files
      (FileItem.key f) 0 filters = Some (FileItem.key f).
Proof.
  intros filters (Hf & Hcol & Hcel)%filteredFiles_elem.
  rewrite sortedFiles_perm in Hf.
  assert (Hin : FileItem.key f
    ∈ FilesContext.fileKeys localeCompare getFilesForCelebrity files
        filters).
  { apply fileKeys_elem. unfold filters, FilePageNav.filters.
    unfold FilesContext.getFilteredFileKeys, selected_filter. simpl.
    destruct (truthy celebrityFilter && bool_decide (celebrityFilter ≠ "All"))
      eqn:Hc.
    - apply andb_true_iff in Hc as [_ Hc%bool_decide_eq_true].
      destruct (truthy collectionFilter
                && bool_decide (collectionFilter ≠ "All")) eqn:Hk.
      + apply andb_true_iff in Hk as [_ Hk%bool_decide_eq_true].
        apply list_elem_of_filter. auto.
      + auto.
    - destruct (truthy collectionFilter
                && bool_decide (collectionFilter ≠ "All")) eqn:Hk.
      + apply andb_true_iff in Hk as [_ Hk%bool_decide_eq_true].
        apply list_elem_of_fmap. exists f. split; [done|].
        apply list_elem_of_filter. auto.
      + apply list_elem_of_fmap. by exists f. }
  split; [done|]. rewrite getAdjacentFile_find. cbv zeta.
  destruct (list_find _ _) as [[i y]|] eqn:Hfind.
  - apply list_find_Some in Hfind as (Hi & ->%bool_decide_eq_true & _).
    apply lookup_lt_Some in Hi as Hlen.
    rewrite bool_decide_eq_true_2 by lia.
    rewrite Z.add_0_r. by rewrite Nat2Z.id.
  - apply list_find_None in Hfind. rewrite Forall_forall in Hfind.
    destruct (Hfind _ Hin). by apply bool_decide_eq_true.
Qed.

Lemma fileIdToPath_get (fs : list FileItem.t) (m : JsMap.t string) fileId :
  JsMap.get fileId
    (foldl (λ map file,
              JsMap.set (getFileId (FileItem.key file)) (FileItem.key file)
                map) m fs)
  = match
      last (filter (λ f, getFileId (FileItem.key f) = fileId) fs)
    with
    | Some f => Some (FileItem.key f)
    | None => JsMap.get fileId m
    end.
Proof.
  induction fs as [|f fs IH] using rev_ind; [done|].
  rewrite foldl_app, filter_app, filter_cons, filter_nil. simpl.
  destruct (decide (getFileId (FileItem.key f) = fileId)) as [<-|Hne].
  - by rewrite last_snoc, JsMapFacts.get_set_eq.
  - by rewrite app_nil_r, JsMapFacts.get_set_ne.
Qed.

Lemma filter_unique {A B : Type} `{EqDecision B} (g : A → B) (l : list A)
    (x : A) :
  NoDup (g <$> l) → x ∈ l → filter (λ y, g y = g x) l = [x].
Proof.
  induction l as [|y l IH]; [by intros _ ?%elem_of_nil|].
  rewrite fmap_cons. intros [Hy Hl]%NoDup_cons [->|Hx]%elem_of_cons.
  - rewrite filter_cons_True by done. f_equal.
    apply filter_none. intros z Hz Heq. apply Hy.
    apply list_elem_of_fmap. by exists z.
  - rewrite filter_cons_False; [by apply IH|].
    intros Heq. apply Hy. apply list_elem_of_fmap. by exists x.
Qed.

(** X18.  [getFilePath] inverts [getFileId]: what it returns for a file id
    is the key of a file that has this id, it returns [null] exactly when
    no file has the id, and when no two files share an id it returns, for
    the id of each file, the key of that file. *)
Theorem getFilePath_inverts_getFileId files :
  (∀ fileId path,
     FilesContext.getFilePath localeCompare files fileId = Some path →
     path ∈ FileItem.key <$> files ∧ getFileId path = fileId) ∧
  (∀ fileId,
     FilesContext.getFilePath localeCompare files fileId = None ↔
     fileId ∉ (λ f, getFileId (FileItem.key f)) <$> files) ∧
  (NoDup ((λ f, getFileId (FileItem.key f)) <$> files) →
   ∀ f, f ∈ files →
     FilesContext.getFilePath localeCompare files
       (getFileId (FileItem.key f)) = Some (FileItem.key f)).
Proof.
  unfold FilesContext.getFilePath, FilesContext.fileIdToPath.
  split; [|split].
  - intros fileId path. rewrite fileIdToPath_get.
    destruct (last _) as [f|] eqn:Hlast; [|done]. intros [= <-].
    apply last_Some_elem_of, list_elem_of_filter in Hlast as [Hid Hf].
    split; [|done]. apply list_elem_of_fmap. exists f.
    split; [done|]. by rewrite <- (sortedFiles_perm localeCompare files).
  - intros fileId. rewrite fileIdToPath_get.
    rewrite <- (sortedFiles_perm localeCompare files) at 2.
    destruct (last _) as [f|] eqn:Hlast.
    + apply last_Some_elem_of, list_elem_of_filter in Hlast as [Hid Hf].
      split; [done|]. intros Hout. destruct Hout.
      apply list_elem_of_fmap. by exists f.
    + split; [|done]. intros _ (f & -> & Hf)%list_elem_of_fmap.
      apply last_None in Hlast.
      by eapply (filter_nil_not_elem_of _ _ f) in Hlast.
  - intros Hnd f Hf. rewrite fileIdToPath_get.
    rewrite (filter_unique (λ f, getFileId (FileItem.key f))).
    + done.
    + by rewrite (sortedFiles_perm localeCompare files).
    + by rewrite (sortedFiles_perm localeCompare files).
Qed.
End Views.

(** ** The navigation on three files *)

Lemma appendToFilesCache_dedupes_witness :
  let fc := appendToFilesCache first_page (Some "b.pdf") true
              filesCache_initial in
  let fc' := appendToFilesCache second_page None false fc in
  files fc `prefix_of` files fc' ∧
  (∀ k, k ∈ FileItem.key <$> files fc' ↔
        k ∈ FileItem.key <$> files fc ∨ k ∈ FileItem.key <$> second_page) ∧
  (∀ k f, list_find (λ f, FileItem.key f = k) (files fc) = Some f →
          list_find (λ f, FileItem.key f = k) (files fc') = Some f) ∧
  cursor fc' = None ∧ hasMore fc' = false ∧
  appendToFilesCache second_page None false fc' = fc'.
Proof. intros fc fc'. apply appendToFilesCache_dedupes. Defined.

Lemma getAdjacentFile_in_list_witness :
  "VOL00001/EFTA00000001.pdf" ∈ FileItem.key <$> library ∧
  "VOL00001/EFTA00000002.pdf" ∈ FileItem.key <$> library.
Proof.
  apply (proj1 (getAdjacentFile_in_list code_unit_order celebrity_files
                  library "VOL00001/EFTA00000001.pdf" 1 None)
           "VOL00001/EFTA00000002.pdf").
  by vm_compute.
Defined.

Lemma getAdjacentFile_steps_add_up_witness :
  FilesContext.getAdjacentFile code_unit_order celebrity_files library
    "VOL00001/EFTA00000002.pdf" 1 None
  = FilesContext.getAdjacentFile code_unit_order celebrity_files library
      "VOL00001/EFTA00000001.pdf" (1 + 1) None ∧
  FilesContext.getAdjacentFile code_unit_order celebrity_files library
    "VOL00001/EFTA00000002.pdf" (- 1) None
  = Some "VOL00001/EFTA00000001.pdf" ∧
  FilesContext.getAdjacentFile code_unit_order celebrity_files library
    "VOL00001/EFTA00000001.pdf" 0 None
  = Some "VOL00001/EFTA00000001.pdf".
Proof.
  apply getAdjacentFile_steps_add_up.
  - by_compute.
  - by vm_compute.
Defined.

Lemma next_five_witness :
  let keys :=
    FilesContext.fileKeys code_unit_order celebrity_files library
      (Some (FilePageNav.filters None None)) in
  FilePageNav.nextPaths code_unit_order celebrity_files library
    "VOL00001/EFTA00000001.pdf" (FilePageNav.filters None None)
  = filter (λ s, s ≠ "") (take 5 (drop 1 keys)) ∧
  Browser.nextFiles sorted_library (Some "VOL00001/EFTA00000001.pdf")
  = take 5 (drop 1 sorted_library).
Proof.
  intros keys.
  destruct (next_five code_unit_order celebrity_files library
              (FilePageNav.filters None None) "VOL00001/EFTA00000001.pdf" 0
              sorted_library 0
              (FileItem.mk "VOL00001/EFTA00000001.pdf" 100 "2025-01-01"))
    as [Hpage Hbrowser].
  split.
  - apply Hpage; [by_compute|by vm_compute].
  - apply Hbrowser; [by_compute|reflexivity|done].
Defined.

Lemma modal_handlers_stay_in_list_witness :
  Browser.selectedFile sorted_library (Some "missing.pdf") = None ∧
  Browser.hasPrev sorted_library (Some "missing.pdf") = false ∧
  Browser.hasNext sorted_library (Some "missing.pdf") = false.
Proof.
  apply (modal_handlers_stay_in_list sorted_library (Some "missing.pdf")).
  intros k [= <-]. by_compute.
Defined.

Lemma modal_walks_the_list_witness :
  let f := FileItem.mk "VOL00001/EFTA00000002.pdf" 200 "2025-01-02" in
  let openFile := Some (FileItem.key f) in
  Browser.selectedFile sorted_library openFile = Some f ∧
  Browser.hasPrev sorted_library openFile = bool_decide (0 < 1) ∧
  Browser.hasNext sorted_library openFile
  = bool_decide (2 < length sorted_library) ∧
  Browser.handlePrev sorted_library openFile
  = Some (Some (FileItem.key (default f (sorted_library !! (1 - 1))))) ∧
  Browser.handleNext sorted_library openFile
  = Some (Some (FileItem.key (default f (sorted_library !! 2)))).
Proof.
  intros f. apply (modal_walks_the_list sorted_library 1 f).
  - by_compute.
  - by repeat constructor.
  - reflexivity.
Defined.

Lemma modal_prefetch_schedule_witness :
  Browser.prefetch_schedule false (drop 1 sorted_library)
  = imap (λ index key, ((Z.of_nat index * 100)%Z, key))
      (FileItem.key <$> drop 1 sorted_library).
Proof.
  apply (modal_prefetch_schedule false (drop 1 sorted_library)).
  repeat constructor; (done || by_compute).
Defined.

Lemma page_prefetch_schedule_witness :
  FilePageNav.prefetch_schedule false
    ["VOL00001/EFTA00000002.pdf"; "VOL00002/EFTA00000003.pdf"]
    (Some "VOL00001/EFTA00000001.pdf")
  = [(0%Z, "VOL00001/EFTA00000002.pdf");
     (100%Z, "VOL00002/EFTA00000003.pdf");
     (600%Z, "VOL00001/EFTA00000001.pdf")].
Proof.
  apply (page_prefetch_schedule false
           ["VOL00001/EFTA00000002.pdf"; "VOL00002/EFTA00000003.pdf"]
           (Some "VOL00001/EFTA00000001.pdf")).
  repeat constructor; (done || by_compute).
Defined.

Lemma browser_files_are_navigable_witness :
  let f := FileItem.mk "VOL00002/EFTA00000003.pdf" 300 "2025-01-03" in
  let filters :=
    Some (FilePageNav.filters (Some "VOL00002") (Some "Jane Doe")) in
  FileItem.key f
    ∈ FilesContext.fileKeys code_unit_order celebrity_files library filters
  ∧ FilesContext.getAdjacentFile code_unit_order celebrity_files library
      (FileItem.key f) 0 filters = Some (FileItem.key f).
Proof.
  intros f filters.
  apply (browser_files_are_navigable code_unit_order celebrity_files no_dates
           library "VOL00002" "Jane Doe" "size-desc" f).
  vm_compute. constructor.
Defined.

Lemma getFilePath_inverts_getFileId_witness :
  FilesContext.getFilePath code_unit_order library
    (getFileId "VOL00001/EFTA00000002.pdf")
  = Some "VOL00001/EFTA00000002.pdf".
Proof.
  apply (proj2 (proj2 (getFilePath_inverts_getFileId code_unit_order library))
           ltac:(by_compute)
           (FileItem.mk "VOL00001/EFTA00000002.pdf" 200 "2025-01-02")).
  do 2 right. left.
Defined.

(** ** More of the prefetch and of the load *)

Section MoreAsync.
Variable NODE_ENV : string.
Variable fuel : nat.
Import JsMapFacts.

Lemma keeps_set_run {A : Type} inflight (s : Susp A) env :
  keeps_set inflight s →
  match run s env with
  | Finished w' _ | Failed w' _ | Pending w' => prefetchingSet w' = inflight
  | NeverReturns => True
  end.
Proof.
  revert inflight env.
  induction s as [w a|w err| |X w op k IH]; intros inflight env;
    try done.
  intros [Hw Hk]. destruct env as [|r env]; [done|].
  unfold run. cbn [run_rest].
  rewrite <- Hw, <- (prefetchingSet_after_reply r w). apply IH, Hk.
Qed.

Lemma coordinated_loop_size turns w0 w' pool' :
  prefetchingSet w0 = ∅ →
  Forall (prefetch_turn NODE_ENV fuel) turns →
  event_loop turns (w0, []) = Some (w', pool') →
  size (prefetchingSet w') = length pool' ∧
  (pool' = [] → prefetchingSet w' = ∅).
Proof.
  intros Hw0 Hturns Hloop.
  destruct (prefetch_loop_coordinated NODE_ENV fuel turns (w0, [])
              (w', pool') Hturns (coordinated_start w0 Hw0) Hloop)
    as (keys & Hnd & Hprod & Hset).
  simpl in Hprod, Hset.
  assert (prefetchingSet w' = list_to_set keys) as Heq.
  { apply set_eq. intros k. by rewrite Hset, elem_of_list_to_set. }
  apply Forall2_length in Hprod.
  split.
  - by rewrite Heq, size_list_to_set, Hprod.
  - intros ->. destruct keys; [|done]. by rewrite Heq.
Qed.

(** X19.  A prefetch of the file browser that is resumed on its own, no
    other call running between its suspensions, leaves the in-flight set
    exactly as it found it, however it ends: after a hit, after a
    duplicate call, after a success and after a swallowed failure alike.
    It never rejects, and while it is suspended the set holds its key next
    to the keys that were in flight before, and the cache is as it was.
    When prefetches share the thread, in a loop that starts with an empty
    set and no suspended call and that only makes and resumes prefetches,
    in any order, the set holds after every turn as many keys as there are
    suspended calls, and it is empty again whenever none is suspended. *)
Theorem prefetch_restores_in_flight_set X w env :
  match run (FileBrowser.prefetchPdf NODE_ENV fuel X w) env with
  | Finished w' _ => prefetchingSet w' = prefetchingSet w
  | Pending w' =>
      (X ∉ prefetchingSet w) ∧
      prefetchingSet w' = {[X]} ∪ prefetchingSet w ∧
      pdfPagesCache w' = pdfPagesCache w
  | Failed _ _ => False
  | NeverReturns => True
  end ∧
  (∀ turns w0 w' pool',
     prefetchingSet w0 = ∅ →
     Forall (prefetch_turn NODE_ENV fuel) turns →
     event_loop turns (w0, []) = Some (w', pool') →
     size (prefetchingSet w') = length pool' ∧
     (pool' = [] → prefetchingSet w' = ∅)).
Proof.
  split; [|apply coordinated_loop_size].
  destruct (JsMap.get X (pdfPagesCache w)) as [v|] eqn:Hget.
  { by rewrite (fb_prefetch_hit NODE_ENV fuel X v w Hget). }
  destruct (decide (X ∈ prefetchingSet w)) as [Hin|Hout].
  { by rewrite (fb_prefetch_in_flight NODE_ENV fuel X w Hget Hin). }
  pose proof (fb_prefetch_pending NODE_ENV fuel X w env) as Hpending.
  rewrite fb_prefetch_claims in * by done. rewrite run_swallowed in *.
  pose proof (keeps_set_run _ _ env
                (keeps_set_prefetch_body NODE_ENV fuel X
                   (FileBrowser.prefetchingSet_add X w))) as Hset.
  assert (Hrelease : ∀ w',
    prefetchingSet w'
    = prefetchingSet (FileBrowser.prefetchingSet_add X w) →
    prefetchingSet (FileBrowser.prefetchingSet_delete X w')
    = prefetchingSet w).
  { intros w' Hw'. simpl in *. rewrite Hw'. apply set_eq. intros k.
    rewrite elem_of_difference, elem_of_union, elem_of_singleton.
    split; [by intros [[->|?] ?]|].
    intros Hk. split; [by right|]. by intros ->. }
  destruct (run _ env) as [w' []|w' err| |w']; auto.
  destruct (Hpending w' Hget Hout eq_refl) as [_ Hcache]. auto.
Qed.

Lemma guarded_try_run (body : Async unit) w env :
  run (try_finally
         (try_catch body
            (λ err,
               c ← gets cancelled;
               if c : bool then mret tt
               else set_state (SetError (Some (error_message err)))))
         (c ← gets cancelled;
          if c : bool then mret tt else set_state (SetLoading false)) w)
    env
  = match run (body w) env with
    | Finished wb _ =>
        Finished
          (if cancelled wb then wb else apply_write (SetLoading false) wb)
          tt
    | Failed wb err =>
        Finished
          (if cancelled wb then wb
           else apply_write (SetLoading false)
                  (apply_write (SetError (Some (error_message err))) wb))
          tt
    | NeverReturns => NeverReturns
    | Pending wb => Pending wb
    end.
Proof.
  unfold run, try_finally, try_catch.
  rewrite run_rest_finally, run_rest_catch.
  destruct (run_rest (body w) env) as [[wb []|wb err| |wb] env']; simpl;
    try done.
  - unfold mbind, async_bind, gets. simpl. by destruct (cancelled wb).
  - unfold mbind, async_bind, gets. simpl.
    destruct (cancelled wb) eqn:Hc; simpl; by rewrite ?Hc.
Qed.

(** X20.  The direct load never rejects: what [loadPages] and [loadPdf]
    do is decided by their [try] block.  When the block returns, the
    loading flag is cleared; when it throws, the error message is put
    into the state (the message of an [Error], ["Failed to load PDF"]
    for anything else) and the loading flag is cleared; and when the view
    has been torn down in the meantime neither is written. *)
Theorem load_outcome filePath w env :
  let settle_load (body : Async unit) : Outcome unit :=
    match run (body w) env with
    | Finished wb _ =>
        Finished
          (if cancelled wb then wb else apply_write (SetLoading false) wb)
          tt
    | Failed wb err =>
        Finished
          (if cancelled wb then wb
           else apply_write (SetLoading false)
                  (apply_write (SetError (Some (error_message err))) wb))
          tt
    | NeverReturns => NeverReturns
    | Pending wb => Pending wb
    end in
  run (FileBrowser.loadPages NODE_ENV fuel filePath w) env
  = settle_load (FileBrowser.loadPages_body NODE_ENV fuel filePath) ∧
  run (FilePage.loadPdf NODE_ENV fuel filePath w) env
  = settle_load (FilePage.loadPdf_body NODE_ENV fuel filePath) ∧
  (∀ w' err,
     run (FileBrowser.loadPages NODE_ENV fuel filePath w) env
     ≠ Failed w' err ∧
     run (FilePage.loadPdf NODE_ENV fuel filePath w) env ≠ Failed w' err).
Proof.
  intros settle_load. unfold settle_load.
  unfold FileBrowser.loadPages, FilePage.loadPdf.
  rewrite !guarded_try_run. split; [done|]. split; [done|].
  intros w' err.
  by destruct (run (FileBrowser.loadPages_body _ _ _ _) env),
    (run (FilePage.loadPdf_body _ _ _ _) env).
Qed.

Lemma setPdfPages_get k p (c c' : PdfPagesCache) :
  setPdfPages fuel k p c = Some c' → JsMap.get k c' = Some p.
Proof.
  unfold setPdfPages. destruct (evict_loop _ _) as [c2|]; [|done].
  simpl. intros [= <-]. apply get_set_eq.
Qed.

(** The load effect on a key that the cache holds. *)
Lemma load_effect_on_cached filePath cachedPages w :
  JsMap.get filePath (pdfPagesCache w) = Some cachedPages →
  (cachedPages ≠ [] →
   ∃ w' w'',
     FileBrowser.load_effect NODE_ENV fuel filePath w = Returned w' tt ∧
     st_pages w' = cachedPages ∧ st_loading w' = false ∧
     st_error w' = None ∧
     pdfPagesCache w' = (getPdfPages filePath (pdfPagesCache w)).2 ∧
     trace w'
     = trace w ++ [StateSet (SetError None);
                   StateSet (SetPages cachedPages);
                   StateSet (SetLoading false)] ∧
     FilePage.load_effect NODE_ENV fuel filePath w = Returned w'' tt ∧
     st_pages w'' = cachedPages ∧ st_loading w'' = false ∧
     st_error w'' = None ∧
     st_totalPages w'' = Z.of_nat (length cachedPages) ∧
     trace w''
     = trace w ++ [StateSet (SetError None);
                   StateSet (SetPages cachedPages);
                   StateSet (SetTotalPages (Z.of_nat (length cachedPages)));
                   StateSet (SetLoading false)]) ∧
  (cachedPages = [] →
   ∃ w1 w2,
     suspended_at (FileBrowser.load_effect NODE_ENV fuel filePath w)
     = Some w1 ∧ st_loading w1 = true ∧
     suspended_at (FilePage.load_effect NODE_ENV fuel filePath w)
     = Some w2 ∧ st_loading w2 = true).
Proof.
  intros Hget. split.
  - intros Hne.
    unfold FileBrowser.load_effect, FilePage.load_effect.
    unfold mbind, async_bind, set_state, modify, do_getPdfPages.
    cbn [susp_bind apply_write log pdfPagesCache].
    unfold getPdfPages. rewrite Hget.
    assert (Hlen : 0 < length cachedPages).
    { destruct cachedPages; [done|simpl; lia]. }
    cbn [susp_bind]. rewrite !decide_True by done.
    do 2 eexists.
    split; [reflexivity|]. simpl.
    repeat (split; [simpl; by rewrite <- ?app_assoc|]).
    simpl. by rewrite <- ?app_assoc.
  - intros ->.
    unfold FileBrowser.load_effect, FilePage.load_effect.
    unfold mbind, async_bind, set_state, modify, do_getPdfPages.
    cbn [susp_bind apply_write log pdfPagesCache].
    unfold getPdfPages. rewrite Hget. cbn [susp_bind].
    rewrite !decide_False by (simpl; lia).
    unfold FileBrowser.loadPages, FilePage.loadPdf, try_finally, try_catch.
    unfold FileBrowser.loadPages_body, FilePage.loadPdf_body.
    unfold mbind, async_bind, do_getPdfManifest. simpl.
    destruct (option_bind _ _ _ _) as [entry|];
      [destruct (decide (0 < pages entry)%Z)|]; simpl;
      do 2 eexists; done.
Qed.

(** X21.  Opening a document whose pages are cached shows them at once:
    the load effect returns without suspending, having written the error
    (none), the cached pages and the loading flag (false), in the file
    page also the page count; it calls nothing outside, and the cache
    only sees the read.  A cached empty list of pages does not count: the
    effect then starts loading as for a miss. *)
Theorem load_effect_cache_hit filePath cachedPages w :
  JsMap.get filePath (pdfPagesCache w) = Some cachedPages →
  (cachedPages ≠ [] →
   ∃ w' w'',
     FileBrowser.load_effect NODE_ENV fuel filePath w = Returned w' tt ∧
     st_pages w' = cachedPages ∧ st_loading w' = false ∧
     st_error w' = None ∧
     pdfPagesCache w' = (getPdfPages filePath (pdfPagesCache w)).2 ∧
     trace w'
     = trace w ++ [StateSet (SetError None);
                   StateSet (SetPages cachedPages);
                   StateSet (SetLoading false)] ∧
     FilePage.load_effect NODE_ENV fuel filePath w = Returned w'' tt ∧
     st_pages w'' = cachedPages ∧ st_loading w'' = false ∧
     st_error w'' = None ∧
     st_totalPages w'' = Z.of_nat (length cachedPages) ∧
     trace w''
     = trace w ++ [StateSet (SetError None);
                   StateSet (SetPages cachedPages);
                   StateSet (SetTotalPages (Z.of_nat (length cachedPages)));
                   StateSet (SetLoading false)]) ∧
  (cachedPages = [] →
   ∃ w1 w2,
     suspended_at (FileBrowser.load_effect NODE_ENV fuel filePath w)
     = Some w1 ∧ st_loading w1 = true ∧
     suspended_at (FilePage.load_effect NODE_ENV fuel filePath w)
     = Some w2 ∧ st_loading w2 = true).
Proof. apply load_effect_on_cached. Qed.
End MoreAsync.

Lemma prefetch_restores_in_flight_set_witness :
  let p := FileBrowser.prefetchPdf "production" 1 in
  match
    event_loop
      [Call (p "X.pdf"); Call (p "Y.pdf"); Resume 0 ok; Call (p "X.pdf");
       Resume 1 no_document; Resume 0 ok] (fresh_world, [])
  with
  | Some (w', pool') =>
      size (prefetchingSet w') = length pool' ∧
      (pool' = [] → prefetchingSet w' = ∅)
  | None => True
  end.
Proof.
  intros p.
  destruct (event_loop _ (fresh_world, [])) as [[w' pool']|] eqn:Hloop;
    [|done].
  refine (proj2 (prefetch_restores_in_flight_set "production" 1 "X.pdf"
                   fresh_world [])
            _ fresh_world w' pool' eq_refl _ Hloop).
  repeat constructor; by eexists.
Defined.

(** ** The load on the manifest path *)

Section ManifestLoad.
Variable NODE_ENV : string.
Variable fuel : nat.
Import JsMapFacts.

(** The [try] block of [loadPages] on the manifest path, resumed once. *)
Lemma fb_manifest_load_run Z N m w r env :
  pdfManifest w = Some m → m !! Z = Some {| pages := N |} → (0 < N)%Z →
  cancelled w = false →
  let urls := FileBrowser.getPageImageUrl NODE_ENV Z <$> seqZ 1 N in
  run (FileBrowser.loadPages_body NODE_ENV fuel Z w) (r :: env)
  = if tears_down r then Finished (teardown (log ManifestRead w)) tt
    else
      match setPdfPages fuel Z urls (pdfPagesCache w) with
      | Some c =>
          Finished
            (apply_write (SetLoading false)
               (log (CacheSet Z urls)
                  (with_cache c
                     (apply_write (SetPages urls) (log ManifestRead w)))))
            tt
      | None => NeverReturns
      end.
Proof.
  intros Hm Hentry HN Hlive urls.
  unfold FileBrowser.loadPages_body, mbind, async_bind, do_getPdfManifest.
  unfold run. cbn [susp_bind]. rewrite Hm. cbn [option_bind].
  rewrite Hentry. cbn [pages].
  destruct (decide (0 < N)%Z); [| lia].
  rewrite loadPagesFromImages_urls by done. fold urls.
  cbn [susp_bind yield run_rest]. unfold after_reply, gets.
  destruct (tears_down r); cbn [susp_bind]; [done|].
  cbn [cancelled log]. rewrite Hlive.
  unfold set_state, modify, do_setPdfPages. cbn [susp_bind].
  cbn [pdfPagesCache apply_write log].
  by destruct (setPdfPages fuel Z urls (pdfPagesCache w)).
Qed.

(** X22.  The direct load of the file browser prefers the manifest too.
    For a key with a manifest entry of [N > 0] pages it calls nothing
    outside: it shows the [N] page-image URLs, stores them in the cache
    and clears the loading flag, and when the document is opened again
    the load effect shows the same pages from the cache without
    suspending.  When the view is torn down while the load waits, it
    writes nothing. *)
Theorem load_prefers_manifest Z N m w r env :
  pdfManifest w = Some m → m !! Z = Some {| pages := N |} → (0 < N)%Z →
  cancelled w = false →
  let urls := FileBrowser.getPageImageUrl NODE_ENV Z <$> seqZ 1 N in
  match run (FileBrowser.loadPages NODE_ENV fuel Z w) (r :: env) with
  | Finished w' _ =>
      if tears_down r then
        trace w' = trace w ++ [ManifestRead; TornDown] ∧
        st_pages w' = st_pages w ∧ st_loading w' = st_loading w ∧
        pdfPagesCache w' = pdfPagesCache w
      else
        st_pages w' = urls ∧ st_loading w' = false ∧
        st_error w' = st_error w ∧
        setPdfPages fuel Z urls (pdfPagesCache w) = Some (pdfPagesCache w') ∧
        trace w'
        = trace w ++ [ManifestRead; StateSet (SetPages urls);
                      CacheSet Z urls; StateSet (SetLoading false);
                      StateSet (SetLoading false)] ∧
        ∃ w'',
          FileBrowser.load_effect NODE_ENV fuel Z w' = Returned w'' tt ∧
          st_pages w'' = urls ∧ st_loading w'' = false
  | NeverReturns =>
      tears_down r = false ∧
      setPdfPages fuel Z urls (pdfPagesCache w) = None
  | Failed _ _ | Pending _ => False
  end.
Proof.
  intros Hm Hentry HN Hlive urls.
  unfold FileBrowser.loadPages. rewrite guarded_try_run.
  rewrite (fb_manifest_load_run Z N m) by done. fold urls.
  destruct (tears_down r).
  { simpl. by rewrite <- app_assoc. }
  destruct (setPdfPages fuel Z urls (pdfPagesCache w)) as [c|] eqn:Hset;
    [|done].
  cbn [cancelled apply_write log with_cache]. rewrite Hlive.
  cbn [st_pages st_loading st_error pdfPagesCache trace apply_write log
         with_cache].
  repeat (split; [by rewrite <- ?app_assoc|]).
  assert (Hurls : urls ≠ []).
  { intros Hnil. apply (f_equal length) in Hnil.
    unfold urls in Hnil. rewrite length_fmap, length_seqZ in Hnil.
    simpl in Hnil. lia. }
  edestruct (load_effect_on_cached NODE_ENV fuel Z urls) as [Hhit _];
    [|destruct (Hhit Hurls) as (w'' & _ & Heff & Hp & Hl & _)].
  2:{ exists w''. split; [exact Heff|]. by split. }
  cbn [pdfPagesCache]. exact (setPdfPages_get fuel Z urls _ c Hset).
Qed.

(** X23.  The renderer is the fallback it is meant to be.  The [try]
    block of [prefetchPdf] and that of [loadPages] start by reading the
    manifest, and the first thing they wait for is the import of the
    renderer exactly when [getPageCount] has no positive page count for
    the key: without a manifest, with the empty manifest, without an
    entry, or with an entry of no pages. *)
Theorem renderer_is_the_fallback X w :
  let has_images :=
    ∃ n, getPageCount (pdfManifest w) X = Some n ∧ (0 < n)%Z in
  (∃ w1,
     suspended_at (FileBrowser.prefetch_body NODE_ENV fuel X w) = Some w1 ∧
     (trace w1 = trace w ++ [ManifestRead; Called ImportPdfjs] ∨
      trace w1 = trace w ++ [ManifestRead]) ∧
     (trace w1 = trace w ++ [ManifestRead; Called ImportPdfjs] ↔
      ¬ has_images)) ∧
  (∃ w1,
     suspended_at (FileBrowser.loadPages_body NODE_ENV fuel X w) = Some w1 ∧
     (trace w1 = trace w ++ [ManifestRead; Called ImportPdfjs] ∨
      trace w1 = trace w ++ [ManifestRead]) ∧
     (trace w1 = trace w ++ [ManifestRead; Called ImportPdfjs] ↔
      ¬ has_images)) ∧
  getPageCount (pdfManifest (setPdfManifest ∅ w)) X = None.
Proof.
  intros has_images.
  unfold has_images, getPageCount.
  unfold FileBrowser.prefetch_body, FileBrowser.loadPages_body.
  unfold mbind, async_bind, do_getPdfManifest. simpl.
  destruct (pdfManifest w) as [m|]; simpl;
    [destruct (m !! X) as [entry|] eqn:Hentry; simpl;
     [destruct (decide (0 < pages entry)%Z) as [Hpos|Hneg]|]|].
  - split; [|split; [|done]]; simpl; eexists;
      (split; [reflexivity|]); simpl;
      (split; [by right|]);
      (split; [intros Heq; by apply app_inv_head in Heq|]);
      intros Hnot; destruct Hnot; by exists (pages entry).
  - split; [|split; [|done]]; simpl; eexists;
      (split; [reflexivity|]); simpl; rewrite <- app_assoc;
      (split; [by left|]); (split; [|done]);
      intros _ (n & [= <-] & ?); lia.
  - split; [|split; [|done]]; simpl; eexists;
      (split; [reflexivity|]); simpl; rewrite <- app_assoc;
      (split; [by left|]); (split; [|done]);
      by intros _ (n & ? & ?).
  - split; [|split; [|done]]; simpl; eexists;
      (split; [reflexivity|]); simpl; rewrite <- app_assoc;
      (split; [by left|]); (split; [|done]);
      by intros _ (n & ? & ?).
Qed.
End ManifestLoad.

Lemma load_prefers_manifest_witness :
  let urls := FileBrowser.getPageImageUrl "production" "Z.pdf" <$> seqZ 1 3 in
  match run (FileBrowser.loadPages "production" 1 "Z.pdf" manifest_world)
          [ok]
  with
  | Finished w' _ =>
      if tears_down ok then
        trace w' = trace manifest_world ++ [ManifestRead; TornDown] ∧
        st_pages w' = st_pages manifest_world ∧
        st_loading w' = st_loading manifest_world ∧
        pdfPagesCache w' = pdfPagesCache manifest_world
      else
        st_pages w' = urls ∧ st_loading w' = false ∧
        st_error w' = st_error manifest_world ∧
        setPdfPages 1 "Z.pdf" urls (pdfPagesCache manifest_world)
        = Some (pdfPagesCache w') ∧
        trace w'
        = trace manifest_world
            ++ [ManifestRead; StateSet (SetPages urls);
                CacheSet "Z.pdf" urls; StateSet (SetLoading false);
                StateSet (SetLoading false)] ∧
        ∃ w'',
          FileBrowser.load_effect "production" 1 "Z.pdf" w'
          = Returned w'' tt ∧
          st_pages w'' = urls ∧ st_loading w'' = false
  | NeverReturns =>
      tears_down ok = false ∧
      setPdfPages 1 "Z.pdf" urls (pdfPagesCache manifest_world) = None
  | Failed _ _ | Pending _ => False
  end.
Proof.
  apply (load_prefers_manifest "production" 1 "Z.pdf" 3
           {[ "Z.pdf" := {| pages := 3 |} ]} manifest_world ok []);
    reflexivity || lia.
Defined.

Lemma load_effect_cache_hit_witness :
  ∃ w' w'',
    FileBrowser.load_effect "production" 1 "X.pdf" cached_world
    = Returned w' tt ∧
    st_pages w' = ["X.pdf#1"] ∧ st_loading w' = false ∧
    st_error w' = None ∧
    pdfPagesCache w'
    = (getPdfPages "X.pdf" (pdfPagesCache cached_world)).2 ∧
    trace w'
    = trace cached_world
        ++ [StateSet (SetError None); StateSet (SetPages ["X.pdf#1"]);
            StateSet (SetLoading false)] ∧
    FilePage.load_effect "production" 1 "X.pdf" cached_world
    = Returned w'' tt ∧
    st_pages w'' = ["X.pdf#1"] ∧ st_loading w'' = false ∧
    st_error w'' = None ∧
    st_totalPages w'' = Z.of_nat (length ["X.pdf#1"]) ∧
    trace w''
    = trace cached_world
        ++ [StateSet (SetError None); StateSet (SetPages ["X.pdf#1"]);
            StateSet (SetTotalPages (Z.of_nat (length ["X.pdf#1"])));
            StateSet (SetLoading false)].
Proof.
  apply (load_effect_cache_hit "production" 1 "X.pdf" ["X.pdf#1"]
           cached_world); done.
Defined.

(** ** The renderer *)

Section Renderer.
Variable NODE_ENV : string.
Variable fuel : nat.

Lemma did_since_refl w : did_since w w [].
Proof. exists []. by rewrite app_nil_r. Qed.

Lemma did_since_trans w1 w2 w3 evs evs' :
  did_since w1 w2 evs → did_since w2 w3 evs' →
  did_since w1 w3 (evs ++ evs').
Proof.
  intros (new & H1 & <-) (new' & H2 & <-). exists (new ++ new').
  split; [by rewrite H2, H1, app_assoc|apply filter_app].
Qed.

Lemma did_since_log e w :
  is_teardown e = false → did_since w (log e w) [e].
Proof.
  intros He. exists [e]. split; [done|].
  by rewrite filter_cons_True.
Qed.

Lemma did_since_after_reply r w : did_since w (after_reply r w) [].
Proof.
  exists (if tears_down r then [TornDown] else []).
  split; [apply trace_after_reply|]. by destruct (tears_down r).
Qed.

Lemma did_since_await {X : Type} (op : ExtCall X) r w :
  did_since w (after_reply r (log (Called op) w)) [Called op].
Proof.
  apply (did_since_trans w (log (Called op) w) _ [Called op] []).
  - by apply did_since_log.
  - apply did_since_after_reply.
Qed.

Lemma await_run {X : Type} (op : ExtCall X) w r env :
  run_rest (await op w) (r :: env)
  = (match settle r _ op with
     | Fulfilled x => Finished (after_reply r (log (Called op) w)) x
     | Rejected err => Failed (after_reply r (log (Called op) w)) err
     end, env).
Proof. simpl. by destruct (settle r X op). Qed.

Lemma await_run_Finished {X : Type} (op : ExtCall X) w env w' x env' :
  run_rest (await op w) env = (Finished w' x, env') →
  ∃ r, env = r :: env' ∧ settle r _ op = Fulfilled x ∧
       w' = after_reply r (log (Called op) w).
Proof.
  destruct env as [|r env]; [done|]. rewrite await_run.
  destruct (settle r X op) eqn:Hr; [|done]. intros [= <- <- <-].
  by exists r.
Qed.

(** The render loop: one page after the other. *)
Lemma render_pages_run n p acc w env w' renderedPages env' :
  run_rest (render_pages n p acc w) env = (Finished w' renderedPages, env') →
  ∃ urls,
    renderedPages = acc ++ urls ∧ length urls = n ∧
    did_since w w' (page_calls n p) ∧
    pdfPagesCache w' = pdfPagesCache w ∧
    (∀ (k : nat) url, urls !! k = Some url →
       ∃ r, env !! (2 * k + 1) = Some r ∧
            settle r _ (RenderPage (p + Z.of_nat k)) = Fulfilled url).
Proof.
  revert p acc w env. induction n as [|n IH]; intros p acc w env.
  { intros [= <- <- <-]. exists []. rewrite app_nil_r.
    repeat split; [apply did_since_refl|done]. }
  cbn [render_pages]. rewrite !run_rest_mbind.
  destruct (run_rest (await (GetPage p) w) env) as [[w1 []|w1 e1| |w1] env1]
    eqn:Hget; try done.
  apply await_run_Finished in Hget as (r1 & -> & Hr1 & ->).
  rewrite run_rest_mbind.
  destruct (run_rest (await (RenderPage p) _) env1)
    as [[w2 url|w2 e2| |w2] env2] eqn:Hrender; try done.
  apply await_run_Finished in Hrender as (r2 & -> & Hr2 & ->).
  intros (urls & -> & Hlen & Hdid & Hcache & Hurls)%IH.
  exists (url :: urls). rewrite <- app_assoc.
  split; [done|]. split; [by rewrite <- Hlen|]. split; [|split].
  - change (page_calls (S n) p)
      with ([Called (GetPage p)] ++ [Called (RenderPage p)]
              ++ page_calls n (p + 1)).
    eapply did_since_trans; [apply did_since_await|].
    eapply did_since_trans; [apply did_since_await|done].
  - rewrite Hcache, pdfPagesCache_after_reply. cbn [pdfPagesCache log].
    by rewrite pdfPagesCache_after_reply.
  - intros [|k] url' Hk.
    + injection Hk as <-. exists r2. by rewrite Z.add_0_r.
    + destruct (Hurls k url' Hk) as (r & Hr & Hsettle). exists r.
      replace (2 * S k + 1) with (S (S (2 * k + 1))) by lia.
      split; [done|].
      by replace (p + Z.of_nat (S k))%Z with (p + 1 + Z.of_nat k)%Z by lia.
Qed.

(** The rendering path of both prefetch functions. *)
Lemma render_path_run (fileUrl filePath : string) w env w' :
  run
    ((_ ← await ImportPdfjs;
      numPages ← await (GetDocument fileUrl);
      renderedPages ← render_pages (Z.to_nat numPages) 1 [];
      if decide (0 < length renderedPages)%nat
      then do_setPdfPages fuel filePath renderedPages
      else mret tt) w) env = Finished w' tt →
  ∃ numPages renderedPages,
    (∃ r, env !! 1 = Some r ∧
          settle r _ (GetDocument fileUrl) = Fulfilled numPages) ∧
    length renderedPages = Z.to_nat numPages ∧
    (∀ (k : nat) url, renderedPages !! k = Some url →
       ∃ r, env !! (2 * k + 3) = Some r ∧
            settle r _ (RenderPage (Z.of_nat k + 1)) = Fulfilled url) ∧
    did_since w w'
      ([Called ImportPdfjs; Called (GetDocument fileUrl)]
         ++ page_calls (Z.to_nat numPages) 1
         ++ (if decide (0 < length renderedPages)
             then [CacheSet filePath renderedPages] else [])) ∧
    (if decide (0 < length renderedPages)
     then setPdfPages fuel filePath renderedPages (pdfPagesCache w)
          = Some (pdfPagesCache w')
     else pdfPagesCache w' = pdfPagesCache w).
Proof.
  unfold run. rewrite run_rest_mbind.
  destruct (run_rest (await ImportPdfjs w) env) as [[w1 []|w1 e1| |w1] env1]
    eqn:Himport; try done.
  apply await_run_Finished in Himport as (r1 & -> & Hr1 & ->).
  rewrite run_rest_mbind.
  destruct (run_rest (await (GetDocument fileUrl) _) env1)
    as [[w2 numPages|w2 e2| |w2] env2] eqn:Hdoc; try done.
  apply await_run_Finished in Hdoc as (r2 & -> & Hr2 & ->).
  rewrite run_rest_mbind.
  destruct (run_rest (render_pages _ _ _ _) env2)
    as [[w3 renderedPages|w3 e3| |w3] env3] eqn:Hloop; try done.
  apply render_pages_run in Hloop
    as (urls & -> & Hlen & Hdid & Hcache & Hurls).
  rewrite app_nil_l in *. intros Hstore.
  exists numPages, urls.
  split; [by exists r2|]. split; [done|]. split.
  { intros k url Hk. destruct (Hurls k url Hk) as (r & Hr & Hsettle).
    exists r. replace (2 * k + 3) with (S (S (2 * k + 1))) by lia.
    split; [done|]. by rewrite Z.add_comm. }
  assert (Hstart : did_since w w3
    ([Called ImportPdfjs; Called (GetDocument fileUrl)]
       ++ page_calls (Z.to_nat numPages) 1)).
  { change [Called ImportPdfjs; Called (GetDocument fileUrl)]
      with ([Called ImportPdfjs] ++ [Called (GetDocument fileUrl)]).
    rewrite <- app_assoc.
    eapply did_since_trans; [apply did_since_await|].
    eapply did_since_trans; [apply did_since_await|done]. }
  rewrite !pdfPagesCache_after_reply in Hcache. cbn [pdfPagesCache log] in Hcache.
  rewrite !pdfPagesCache_after_reply in Hcache. cbn [pdfPagesCache log] in Hcache.
  destruct (decide (0 < length urls)).
  - unfold do_setPdfPages in Hstore. rewrite Hcache in Hstore.
    destruct (setPdfPages fuel filePath urls (pdfPagesCache w)) as [c|];
      [|done].
    simpl in Hstore. injection Hstore as <-. split; [|done].
    rewrite app_assoc. eapply did_since_trans; [exact Hstart|].
    exists [CacheSet filePath urls]. done.
  - simpl in Hstore. injection Hstore as <-. split; [|done].
    rewrite app_nil_r. exact Hstart.
Qed.

(** X24.  The renderer works through a document in page order.  When the
    rendering path of a prefetch finishes, it has imported the renderer,
    opened the document, and then, for the pages 1 to [numPages] in
    increasing order, fetched each page and rendered it before it turned
    to the next; the pages it stores are the rendered data URLs in page
    order, as many as the document has pages, and a document without
    pages stores nothing. *)
Theorem renderer_works_in_page_order filePath w env w' :
  let page_url := FilePage.WORKER_URL NODE_ENV +:+ "/" +:+ filePath in
  let browser_url := FileBrowser.WORKER_URL NODE_ENV +:+ "/" +:+ filePath in
  let rendered (fileUrl : string) (w w' : World) : Prop :=
    ∃ numPages renderedPages,
      (∃ r, env !! 1 = Some r ∧
            settle r _ (GetDocument fileUrl) = Fulfilled numPages) ∧
      length renderedPages = Z.to_nat numPages ∧
      (∀ (k : nat) url, renderedPages !! k = Some url →
         ∃ r, env !! (2 * k + 3) = Some r ∧
              settle r _ (RenderPage (Z.of_nat k + 1)) = Fulfilled url) ∧
      did_since w w'
        ([Called ImportPdfjs; Called (GetDocument fileUrl)]
           ++ page_calls (Z.to_nat numPages) 1
           ++ (if decide (0 < length renderedPages)
               then [CacheSet filePath renderedPages] else [])) ∧
      (if decide (0 < length renderedPages)
       then setPdfPages fuel filePath renderedPages (pdfPagesCache w)
            = Some (pdfPagesCache w')
       else pdfPagesCache w' = pdfPagesCache w) in
  (run (FilePage.prefetch_body NODE_ENV fuel filePath w) env
   = Finished w' tt → rendered page_url w w') ∧
  (run (FileBrowser.prefetch_render NODE_ENV fuel filePath w) env
   = Finished w' tt → rendered browser_url w w').
Proof.
  intros page_url browser_url rendered. split; apply render_path_run.
Qed.
End Renderer.

Lemma renderer_works_in_page_order_witness :
  ∃ w',
    run (FilePage.prefetch_body "production" 1 "Y.pdf" fresh_world)
      [ok; ok; ok; ok; ok; ok; ok; ok] = Finished w' tt ∧
    ∃ numPages renderedPages,
      (∃ r, [ok; ok; ok; ok; ok; ok; ok; ok] !! 1 = Some r ∧
            settle r _
              (GetDocument (FilePage.WORKER_URL "production" +:+ "/"
                              +:+ "Y.pdf")) = Fulfilled numPages) ∧
      length renderedPages = Z.to_nat numPages ∧
      (∀ (k : nat) url, renderedPages !! k = Some url →
         ∃ r, [ok; ok; ok; ok; ok; ok; ok; ok] !! (2 * k + 3) = Some r ∧
              settle r _ (RenderPage (Z.of_nat k + 1)) = Fulfilled url) ∧
      did_since fresh_world w'
        ([Called ImportPdfjs;
          Called (GetDocument (FilePage.WORKER_URL "production" +:+ "/"
                                 +:+ "Y.pdf"))]
           ++ page_calls (Z.to_nat numPages) 1
           ++ (if decide (0 < length renderedPages)
               then [CacheSet "Y.pdf" renderedPages] else [])) ∧
      (if decide (0 < length renderedPages)
       then setPdfPages 1 "Y.pdf" renderedPages (pdfPagesCache fresh_world)
            = Some (pdfPagesCache w')
       else pdfPagesCache w' = pdfPagesCache fresh_world).
Proof.
  destruct (run (FilePage.prefetch_body "production" 1 "Y.pdf" fresh_world)
              [ok; ok; ok; ok; ok; ok; ok; ok]) as [w' []|w' err| |w'] eqn:Hrun.
  - exists w'. split; [done|].
    by apply (renderer_works_in_page_order "production" 1 "Y.pdf" fresh_world
                [ok; ok; ok; ok; ok; ok; ok; ok] w').
  - by vm_compute in Hrun.
  - by vm_compute in Hrun.
  - by vm_compute in Hrun.
Defined.

(** ** The URLs of the page images *)

Section PageUrls.
Variable NODE_ENV : string.
Import Strings.Ascii.

Lemma length_append (s t : string) :
  String.length (s +:+ t) = String.length s + String.length t.
Proof.
  induction s as [|a s IH]; [done|]. rewrite append_cons. simpl.
  by rewrite IH.
Qed.

Lemma append_inj_r (s1 s2 t : string) : s1 +:+ t = s2 +:+ t → s1 = s2.
Proof.
  revert s2. induction s1 as [|a s1 IH]; intros [|b s2] Heq; [done|..].
  - apply (f_equal String.length) in Heq.
    rewrite append_nil_l, append_cons in Heq. simpl in Heq.
    rewrite length_append in Heq. lia.
  - apply (f_equal String.length) in Heq.
    rewrite append_nil_l, append_cons in Heq. simpl in Heq.
    rewrite length_append in Heq. lia.
  - rewrite !append_cons in Heq. injection Heq as -> Heq.
    f_equal. by apply IH.
Qed.

Lemma padStart_3_inj a1 r1 a2 r2 :
  a1 ≠ "0"%char → a2 ≠ "0"%char →
  padStart 3 "0" (String a1 r1) = padStart 3 "0" (String a2 r2) →
  String a1 r1 = String a2 r2.
Proof.
  assert (H1 : ∀ a, padStart 3 "0" (String a "")
                    = String "0" (String "0" (String a ""))) by done.
  assert (H2 : ∀ a b, padStart 3 "0" (String a (String b ""))
                      = String "0" (String a (String b ""))) by done.
  assert (H3 : ∀ a b c r,
    padStart 3 "0" (String a (String b (String c r)))
    = String a (String b (String c r))).
  { intros a b c r. unfold padStart. rewrite decide_True; [done|].
    simpl. lia. }
  intros Ha1 Ha2.
  destruct r1 as [|b1 [|c1 r1]], r2 as [|b2 [|c2 r2]];
    rewrite ?H1, ?H2, ?H3; intros Heq; by simplify_eq.
Qed.

(** X26.  Different pages have different images.  For whole page numbers
    from 1 to [MAX_SAFE_INTEGER], the range in which the page number is
    printed as its decimal numeral, [getPageImageUrl] gives each page of a
    document its own URL, so the list that [loadPagesFromImages] builds
    for a page count in that range holds no URL twice. *)
Theorem getPageImageUrl_injective pdfKey :
  (∀ n m : Z,
     (1 ≤ n ≤ MAX_SAFE_INTEGER)%Z → (1 ≤ m ≤ MAX_SAFE_INTEGER)%Z →
     FileBrowser.getPageImageUrl NODE_ENV pdfKey n
     = FileBrowser.getPageImageUrl NODE_ENV pdfKey m → n = m) ∧
  (∀ pageCount : nat,
     (Z.of_nat pageCount ≤ MAX_SAFE_INTEGER)%Z →
     NoDup (FileBrowser.push_page_urls NODE_ENV pageCount pdfKey 1 [])).
Proof.
  assert (Hinj : ∀ n m : Z,
    (1 ≤ n ≤ MAX_SAFE_INTEGER)%Z → (1 ≤ m ≤ MAX_SAFE_INTEGER)%Z →
    FileBrowser.getPageImageUrl NODE_ENV pdfKey n
    = FileBrowser.getPageImageUrl NODE_ENV pdfKey m → n = m).
  { intros n m [Hn _] [Hm _]. unfold FileBrowser.getPageImageUrl. cbv zeta.
    intros Heq. do 4 apply (inj (String.append _)) in Heq.
    apply append_inj_r in Heq.
    destruct (pretty_page_head n Hn) as (a1 & r1 & E1 & Ha1).
    destruct (pretty_page_head m Hm) as (a2 & r2 & E2 & Ha2).
    rewrite E1, E2 in Heq. apply padStart_3_inj in Heq; [|done..].
    rewrite <- E1, <- E2 in Heq. by apply (inj pretty) in Heq. }
  split; [done|]. intros pageCount Hcount.
  rewrite push_page_urls_seqZ, app_nil_l.
  apply NoDup_fmap_2_strong; [|apply NoDup_seqZ].
  intros n m Hn%elem_of_seqZ Hm%elem_of_seqZ. apply Hinj; lia.
Qed.
End PageUrls.

Lemma getPageImageUrl_injective_witness :
  NoDup (FileBrowser.push_page_urls "production" 3 "Z.pdf" 1 []).
Proof.
  apply (proj2 (getPageImageUrl_injective "production" "Z.pdf") 3).
  by_compute.
Defined.

(** ** The load through the renderer *)

Section RenderedLoad.
Variable NODE_ENV : string.
Variable fuel : nat.

Lemma after_reply_live r w : tears_down r = false → after_reply r w = w.
Proof. unfold after_reply. by intros ->. Qed.

Lemma run_rest_gets {A B : Type} (f : World → A) (g : A → Async B) w env :
  run_rest ((gets f ≫= g) w) env = run_rest (g (f w) w) env.
Proof. done. Qed.

Lemma run_rest_set_state {B : Type} wr (g : unit → Async B) w env :
  run_rest ((set_state wr ≫= g) w) env
  = run_rest (g tt (apply_write wr w)) env.
Proof. done. Qed.

(** The render loop of the load effects, with the view in place. *)
Lemma load_render_pages_run n p acc w env w' rendered env' :
  Forall (λ r, tears_down r = false) env → cancelled w = false →
  run_rest (load_render_pages n p acc w) env = (Finished w' rendered, env') →
  ∃ urls,
    rendered = Some (acc ++ urls) ∧ length urls = n ∧
    cancelled w' = false ∧ pdfPagesCache w' = pdfPagesCache w ∧
    st_totalPages w' = st_totalPages w ∧ st_error w' = st_error w ∧
    st_pages w' = (if decide (n = 0) then st_pages w else acc ++ urls) ∧
    (∀ (k : nat) url, urls !! k = Some url →
       ∃ r, env !! (2 * k + 1) = Some r ∧
            settle r _ (RenderPage (p + Z.of_nat k)) = Fulfilled url).
Proof.
  revert p acc w env. induction n as [|n IH]; intros p acc w env Henv Hlive.
  { intros [= <- <- <-]. exists []. by rewrite app_nil_r. }
  cbn [load_render_pages]. rewrite run_rest_gets, Hlive.
  rewrite run_rest_mbind.
  destruct (run_rest (await (GetPage p) w) env) as [[w1 []|w1 e1| |w1] env1]
    eqn:Hget; try done.
  apply await_run_Finished in Hget as (r1 & -> & Hr1 & ->).
  apply Forall_cons in Henv as [Hlive1 Henv].
  rewrite (after_reply_live r1) by done.
  rewrite run_rest_mbind.
  destruct (run_rest (await (RenderPage p) _) env1)
    as [[w2 url|w2 e2| |w2] env2] eqn:Hrender; try done.
  apply await_run_Finished in Hrender as (r2 & -> & Hr2 & ->).
  apply Forall_cons in Henv as [Hlive2 Henv].
  rewrite (after_reply_live r2) by done.
  rewrite run_rest_set_state.
  intros (urls & -> & Hlen & Hc & Hcache & Htotal & Herr & Hpages & Hurls)
    %IH; [|done|done].
  exists (url :: urls). rewrite <- app_assoc.
  split; [done|]. split; [by rewrite <- Hlen|].
  split; [done|]. split; [done|]. split; [done|]. split; [done|].
  split.
  - rewrite Hpages. rewrite (decide_False (P := S n = 0)) by lia.
    destruct (decide (n = 0)) as [->|]; [|by rewrite <- app_assoc].
    destruct urls; [done|]. simpl in Hlen. lia.
  - intros [|k] url' Hk.
    + injection Hk as <-. exists r2. by rewrite Z.add_0_r.
    + destruct (Hurls k url' Hk) as (r & Hr & Hsettle). exists r.
      replace (2 * S k + 1) with (S (S (2 * k + 1))) by lia.
      split; [done|].
      by replace (p + Z.of_nat (S k))%Z with (p + 1 + Z.of_nat k)%Z by lia.
Qed.

(** X27.  With the view in place, the load of the file page shows the
    whole document in page order.  When the [try] block of [loadPdf]
    returns, the page count is the one of the document, the pages shown
    are the rendered data URLs of the pages 1 to [numPages] in that order,
    the loading flag is cleared and no error is set; the same pages are
    in the cache, and opening the document again shows them without
    suspending. *)
Theorem loadPdf_shows_all_pages filePath w env wb :
  Forall (λ r, tears_down r = false) env → cancelled w = false →
  run (FilePage.loadPdf_body NODE_ENV fuel filePath w) env
  = Finished wb tt →
  ∃ numPages renderedPages w',
    run (FilePage.loadPdf NODE_ENV fuel filePath w) env = Finished w' tt ∧
    (∃ r, env !! 1 = Some r ∧
          settle r _
            (GetDocument (FilePage.WORKER_URL NODE_ENV +:+ "/"
                            +:+ filePath)) = Fulfilled numPages) ∧
    length renderedPages = Z.to_nat numPages ∧
    (∀ (k : nat) url, renderedPages !! k = Some url →
       ∃ r, env !! (2 * k + 3) = Some r ∧
            settle r _ (RenderPage (Z.of_nat k + 1)) = Fulfilled url) ∧
    st_totalPages w' = numPages ∧ st_loading w' = false ∧
    st_error w' = st_error w ∧
    (renderedPages ≠ [] →
     st_pages w' = renderedPages ∧
     setPdfPages fuel filePath renderedPages (pdfPagesCache w)
     = Some (pdfPagesCache w') ∧
     ∃ w'',
       FilePage.load_effect NODE_ENV fuel filePath w' = Returned w'' tt ∧
       st_pages w'' = renderedPages ∧ st_loading w'' = false).
Proof.
  intros Henv Hlive Hbody.
  unfold FilePage.loadPdf. rewrite guarded_try_run, Hbody.
  revert Hbody. unfold run, FilePage.loadPdf_body. rewrite run_rest_mbind.
  destruct (run_rest (await ImportPdfjs w) env) as [[w1 []|w1 e1| |w1] env1]
    eqn:Himport; try done.
  apply await_run_Finished in Himport as (r1 & -> & Hr1 & ->).
  apply Forall_cons in Henv as [Hlive1 Henv].
  rewrite (after_reply_live r1) by done.
  rewrite run_rest_mbind.
  destruct (run_rest (await (GetDocument _) _) env1)
    as [[w2 numPages|w2 e2| |w2] env2] eqn:Hdoc; try done.
  apply await_run_Finished in Hdoc as (r2 & -> & Hr2 & ->).
  apply Forall_cons in Henv as [Hlive2 Henv].
  rewrite (after_reply_live r2) by done.
  rewrite run_rest_gets. cbn [cancelled log]. rewrite Hlive.
  rewrite run_rest_set_state, run_rest_mbind.
  destruct (run_rest (load_render_pages _ _ _ _) env2)
    as [[w3 rendered|w3 e3| |w3] env3] eqn:Hloop; try done.
  apply load_render_pages_run in Hloop
    as (urls & -> & Hlen & Hc & Hcache & Htotal & Herr & Hpages & Hurls);
    [|done|done].
  rewrite app_nil_l in *. rewrite run_rest_gets, Hc. cbn [negb andb].
  cbn [pdfPagesCache st_totalPages st_error apply_write log] in *.
  intros Hstore. exists numPages, urls.
  assert (Hfrom : ∀ (k : nat) url, urls !! k = Some url →
    ∃ r, (r1 :: r2 :: env2) !! (2 * k + 3) = Some r ∧
         settle r _ (RenderPage (Z.of_nat k + 1)) = Fulfilled url).
  { intros k url Hk. destruct (Hurls k url Hk) as (r & Hr & Hsettle).
    exists r. replace (2 * k + 3) with (S (S (2 * k + 1))) by lia.
    split; [done|]. by rewrite Z.add_comm. }
  case_bool_decide as Hpos.
  - unfold do_setPdfPages in Hstore. rewrite Hcache in Hstore.
    destruct (setPdfPages fuel filePath urls (pdfPagesCache w)) as [c|]
      eqn:Hset; [|done].
    simpl in Hstore. injection Hstore as <-.
    cbn [cancelled log with_cache]. rewrite Hc.
    eexists. split; [done|]. split; [by exists r2|]. split; [done|].
    split; [done|]. split; [done|]. split; [done|]. split; [done|].
    intros Hne. split.
    { cbn [st_pages apply_write log with_cache]. rewrite Hpages.
      rewrite decide_False; [done|]. lia. }
    split; [done|].
    edestruct (load_effect_on_cached NODE_ENV fuel filePath urls)
      as [Hhit _]; [|destruct (Hhit Hne)
        as (_ & w'' & _ & _ & _ & _ & _ & _ & Heff & Hp & Hl & _)].
    2:{ exists w''. split; [exact Heff|]. by split. }
    cbn [pdfPagesCache apply_write log with_cache].
    exact (setPdfPages_get fuel filePath urls _ c Hset).
  - simpl in Hstore. injection Hstore as <-. rewrite Hc.
    eexists. split; [done|]. split; [by exists r2|]. split; [done|].
    split; [done|]. split; [done|]. split; [done|]. split; [done|].
    intros Hne. destruct urls; [done|]. simpl in Hpos. lia.
Qed.
End RenderedLoad.

Lemma loadPdf_shows_all_pages_witness :
  ∃ numPages renderedPages w',
    run (FilePage.loadPdf "production" 1 "Y.pdf" fresh_world)
      [ok; ok; ok; ok; ok; ok; ok; ok] = Finished w' tt ∧
    (∃ r, [ok; ok; ok; ok; ok; ok; ok; ok] !! 1 = Some r ∧
          settle r _
            (GetDocument (FilePage.WORKER_URL "production" +:+ "/"
                            +:+ "Y.pdf")) = Fulfilled numPages) ∧
    length renderedPages = Z.to_nat numPages ∧
    (∀ (k : nat) url, renderedPages !! k = Some url →
       ∃ r, [ok; ok; ok; ok; ok; ok; ok; ok] !! (2 * k + 3) = Some r ∧
            settle r _ (RenderPage (Z.of_nat k + 1)) = Fulfilled url) ∧
    st_totalPages w' = numPages ∧ st_loading w' = false ∧
    st_error w' = st_error fresh_world ∧
    (renderedPages ≠ [] →
     st_pages w' = renderedPages ∧
     setPdfPages 1 "Y.pdf" renderedPages (pdfPagesCache fresh_world)
     = Some (pdfPagesCache w') ∧
     ∃ w'',
       FilePage.load_effect "production" 1 "Y.pdf" w' = Returned w'' tt ∧
       st_pages w'' = renderedPages ∧ st_loading w'' = false).
Proof.
  destruct (run (FilePage.loadPdf_body "production" 1 "Y.pdf" fresh_world)
              [ok; ok; ok; ok; ok; ok; ok; ok]) as [wb []|wb err| |wb]
    eqn:Hrun.
  - apply (loadPdf_shows_all_pages "production" 1 "Y.pdf" fresh_world
             [ok; ok; ok; ok; ok; ok; ok; ok] wb);
      [by repeat constructor|done|done].
  - by vm_compute in Hrun.
  - by vm_compute in Hrun.
  - by vm_compute in Hrun.
Defined.

(** ** The extension of a key *)

Section Extension.
Variable NODE_ENV : string.
Import Strings.Ascii.




End Extension.



(** ** Two calls for one key *)

Lemma hoare_consequence {A : Type} (P : World → Prop) (m : Async A)
    (Q Q' : A → World → Prop) (R R' : World → Prop) :
  hoare P m Q' R' → (∀ a w, Q' a w → Q a w) → (∀ w, R' w → R w) →
  hoare P m Q R.
Proof.
  intros Hm HQ HR w env Hw. specialize (Hm w env Hw).
  destruct (run (m w) env); auto.
Qed.

Lemma count_events_app f evs evs' :
  count_events f (evs ++ evs')
  = count_events f evs + count_events f evs'.
Proof. induction evs as [|e evs IH]; simpl; [done|]. rewrite IH. lia. Qed.

(** A call parked in the pool and resumed reply by reply is the call run
    with these replies. *)
Lemma event_loop_resumes (s : Susp unit) pool env :
  match run s env with
  | Finished w' _ | Failed w' _ =>
      park s pool ≫= event_loop (Resume (length pool) <$> env)
      = Some (w', pool)
  | Pending w' =>
      ∃ task,
        park s pool ≫= event_loop (Resume (length pool) <$> env)
        = Some (w', pool ++ [task])
  | NeverReturns =>
      park s pool ≫= event_loop (Resume (length pool) <$> env) = None
  end.
Proof.
  assert (Hidle : ∀ env w,
    event_loop (Resume (length pool) <$> env) (w, pool) = Some (w, pool)).
  { intros env' w. induction env' as [|r env' IH]; [done|].
    cbn [fmap list_fmap event_loop turn snd].
    by rewrite (lookup_ge_None_2 pool (length pool)) by lia. }
  revert env. induction s as [w a|w err| |X w op k IH]; intros env.
  - apply Hidle.
  - apply Hidle.
  - done.
  - destruct env as [|r env]; [by eexists|].
    specialize (IH (settle r X op) (after_reply r w) env).
    unfold run in *. cbn [run_rest park mbind option_bind].
    cbn [fmap list_fmap event_loop turn snd fst].
    rewrite list_lookup_middle by done. cbn [task_k task_op mbind option_bind].
    rewrite delete_middle, app_nil_r. exact IH.
Qed.

Section OneOperation.
Variable NODE_ENV : string.
Variable fuel : nat.
Variable w0 : World.
Import JsMapFacts.

Lemma performed_same_trace w w' a b c :
  trace w' = trace w → performed w0 w a b c → performed w0 w' a b c.
Proof. intros Htrace (new & Hnew & ?). exists new. by rewrite Htrace. Qed.

Lemma performed_log e w a b c :
  performed w0 w a b c →
  performed w0 (log e w)
    (a + count_events is_manifest_read [e])
    (b + count_events is_path_start [e])
    (c + count_events is_document_open [e]).
Proof.
  intros (new & Hnew & <- & <- & <-). exists (new ++ [e]).
  cbn [trace log]. rewrite Hnew, <- app_assoc, !count_events_app. done.
Qed.

Lemma performed_after_reply r w a b c :
  performed w0 w a b c → performed w0 (after_reply r w) a b c.
Proof.
  unfold after_reply. destruct (tears_down r); [|done].
  intros (new & Hnew & <- & <- & <-). exists (new ++ [TornDown]).
  cbn [trace log teardown with_cancelled].
  rewrite Hnew, <- app_assoc, !count_events_app. simpl.
  by rewrite !Nat.add_0_r.
Qed.

Lemma hoare_await_performed {X : Type} (op : ExtCall X) a b c :
  hoare (λ w, performed w0 w a b c) (await op)
    (λ _ w, performed w0 w
              (a + count_events is_manifest_read [Called op])
              (b + count_events is_path_start [Called op])
              (c + count_events is_document_open [Called op]))
    (λ w, performed w0 w
            (a + count_events is_manifest_read [Called op])
            (b + count_events is_path_start [Called op])
            (c + count_events is_document_open [Called op])).
Proof.
  intros w [|r env] Hw; unfold run; simpl.
  - by apply performed_log.
  - destruct (settle r X op); simpl;
      by apply performed_after_reply, performed_log.
Qed.

Lemma hoare_render_pages_performed n pageNum acc :
  hoare (λ w, performed w0 w 1 1 1) (render_pages n pageNum acc)
    (λ _ w, performed w0 w 1 1 1) (λ w, performed w0 w 1 1 1).
Proof.
  revert pageNum acc. induction n as [|n IH]; intros pageNum acc; simpl.
  - apply hoare_mret.
  - eapply hoare_bind; [|intros ?].
    { eapply hoare_consequence;
        [apply (hoare_await_performed (GetPage pageNum) 1 1 1)|done..]. }
    eapply hoare_bind; [|intros dataUrl; apply IH].
    eapply hoare_consequence;
      [apply (hoare_await_performed (RenderPage pageNum) 1 1 1)|done..].
Qed.

Lemma hoare_setPdfPages_performed key value a b c R :
  hoare (λ w, performed w0 w a b c) (do_setPdfPages fuel key value)
    (λ _ w, performed w0 w a b c) R.
Proof.
  intros w env Hw. unfold run, do_setPdfPages.
  destruct (setPdfPages fuel key value (pdfPagesCache w)); [|done].
  simpl. apply (performed_log (CacheSet key value)) in Hw.
  simpl in Hw. rewrite !Nat.add_0_r in Hw.
  revert Hw. by apply performed_same_trace.
Qed.

(** The rendering path imports the renderer once and opens the document
    at most once, however it is resumed and however it ends. *)
Lemma hoare_prefetch_render X :
  hoare (λ w, performed w0 w 1 0 0)
    (FileBrowser.prefetch_render NODE_ENV fuel X)
    (λ _, rendering w0) (rendering w0).
Proof.
  unfold FileBrowser.prefetch_render. cbv zeta.
  eapply hoare_bind; [|intros ?].
  { eapply hoare_consequence;
      [apply (hoare_await_performed ImportPdfjs 1 0 0)|done|].
    intros w Hw. exists 0. split; [lia|done]. }
  eapply hoare_bind; [|intros numPages].
  { eapply hoare_consequence;
      [apply (hoare_await_performed (GetDocument _) 1 1 0)|done|].
    intros w Hw. exists 1. split; [lia|done]. }
  eapply hoare_bind; [|intros renderedPages].
  { eapply hoare_consequence;
      [apply hoare_render_pages_performed|done|].
    intros w Hw. exists 1. split; [lia|done]. }
  eapply hoare_consequence with (Q' := λ _ w, performed w0 w 1 1 1)
                                (R' := rendering w0); [| |done].
  - destruct (decide (0 < length renderedPages));
      [apply hoare_setPdfPages_performed|apply hoare_mret].
  - intros _ w Hw. exists 1. split; [lia|done].
Qed.
End OneOperation.

Section PrefetchTheorems.
Variable NODE_ENV : string.
Variable fuel : nat.
Import JsMapFacts.

(** The events of a prefetch up to its first suspension point. *)
Lemma fb_first_suspension_trace X w :
  JsMap.get X (pdfPagesCache w) = None → X ∉ prefetchingSet w →
  ∃ w1,
    suspended_at (FileBrowser.prefetchPdf NODE_ENV fuel X w) = Some w1 ∧
    trace w1
    = trace w
        ++ ManifestRead
           :: match pdfManifest w ≫= (.!! X) with
              | Some entry =>
                  if decide (0 < pages entry)%Z then []
                  else [Called ImportPdfjs]
              | None => [Called ImportPdfjs]
              end.
Proof.
  intros Hget Hin. rewrite fb_prefetch_claims by done.
  unfold try_finally, try_catch, FileBrowser.prefetch_body.
  unfold mbind at 1, async_bind at 1, do_getPdfManifest. simpl.
  destruct (pdfManifest w ≫= (.!! X)) as [entry|];
    [destruct (decide (0 < pages entry)%Z) |]; simpl;
    eexists; (split; [reflexivity |]); simpl; by rewrite <- ?app_assoc.
Qed.

(** What the [try] block does to the outside, however it is resumed. *)
Lemma prefetch_body_performed X w env :
  match run (FileBrowser.prefetch_body NODE_ENV fuel X w) env with
  | Finished w' _ | Failed w' _ =>
      ∃ opens, performed w w' 1 1 opens ∧ opens ≤ 1
  | Pending w' =>
      ∃ starts opens,
        performed w w' 1 starts opens ∧ starts ≤ 1 ∧ opens ≤ starts ∧
        (env ≠ [] → starts = 1)
  | NeverReturns => True
  end.
Proof.
  assert (Hread : performed w (log ManifestRead w) 1 0 0).
  { exists [ManifestRead]. done. }
  assert (Hrender :
    match run (FileBrowser.prefetch_render NODE_ENV fuel X
                 (log ManifestRead w)) env with
    | Finished w' _ | Failed w' _ =>
        ∃ opens, performed w w' 1 1 opens ∧ opens ≤ 1
    | Pending w' =>
        ∃ starts opens,
          performed w w' 1 starts opens ∧ starts ≤ 1 ∧ opens ≤ starts ∧
          (env ≠ [] → starts = 1)
    | NeverReturns => True
    end).
  { pose proof (hoare_prefetch_render NODE_ENV fuel w X
                  (log ManifestRead w) env Hread) as Hr.
    destruct (run _ env) as [w' []|w' err| |w'];
      [destruct Hr as (opens & ? & ?); by exists opens..|done|].
    destruct Hr as (opens & ? & ?). exists 1, opens. done. }
  unfold FileBrowser.prefetch_body.
  change (run ((do_getPdfManifest ≫= ?f) w) env)
    with (run (f (pdfManifest w) (log ManifestRead w)) env).
  cbv beta zeta.
  destruct (pdfManifest w ≫= (.!! X)) as [entry|]; [|exact Hrender].
  destruct (decide (0 < pages entry)%Z); [|exact Hrender].
  unfold FileBrowser.loadPagesFromImages.
  generalize (FileBrowser.push_page_urls NODE_ENV (Z.to_nat (pages entry))
                X 1 []). intros urls.
  assert (Hloaded : ∀ r,
    performed w (log (Called (LoadImages urls))
                   (after_reply r (log ManifestRead w))) 1 1 0).
  { intros r.
    apply (performed_log w (Called (LoadImages urls)) _ 1 0 0).
    by apply performed_after_reply. }
  destruct env as [|r1 [|r2 env]]; unfold run; simpl.
  - exists 0, 0. split; [done|]. split; [lia|]. split; [lia|done].
  - exists 1, 0. split; [apply Hloaded|]. split; [lia|]. split; [lia|done].
  - unfold do_setPdfPages. destruct (setPdfPages _ _ _ _); [|done].
    simpl. exists 0. split; [|lia].
    assert (performed w
              (after_reply r2
                 (log (Called (LoadImages urls))
                    (after_reply r1 (log ManifestRead w)))) 1 1 0) as Hw
      by apply performed_after_reply, Hloaded.
    apply (performed_log w (CacheSet X urls)) in Hw. simpl in Hw.
    revert Hw. by apply performed_same_trace.
Qed.

(** C2.  A call for a key that is neither cached nor in flight has the key
    in the in-flight set at its first suspension point, and at every
    later point where it is suspended; a second call that starts at any of
    these points returns at once and changes nothing.  Up to its first
    suspension point such a call has read the manifest, once, and on the
    rendering path it has imported the renderer; it has done nothing else
    to the outside.  A call that starts while the key is in flight returns
    without a manifest lookup, an image load or a rendering call: the
    trace and the set are as they were.  Hence two calls in a row, the
    second before the first is resumed, are to every later turn of the
    event loop what the first call alone is.  And when the two calls are
    made for a key that is neither cached nor in flight and the suspended
    one is then resumed reply by reply, the event loop ends where the
    first call alone ends when it is run with these replies, and between
    the start and that end the manifest was read exactly once, a path
    that produces pages (the batch of image loads, or the import of the
    renderer) was started at most once, exactly once as soon as one reply
    has come in, and at most one document was opened. *)
Theorem prefetch_claims_before_suspending X w :
  JsMap.wf (pdfPagesCache w) →
  (JsMap.get X (pdfPagesCache w) = None → X ∉ prefetchingSet w →
   ∃ w1,
     suspended_at (FileBrowser.prefetchPdf NODE_ENV fuel X w) = Some w1 ∧
     X ∈ prefetchingSet w1 ∧
     FileBrowser.prefetchPdf NODE_ENV fuel X w1 = Returned w1 tt) ∧
  (JsMap.get X (pdfPagesCache w) = None → X ∉ prefetchingSet w →
   ∀ env w',
     run (FileBrowser.prefetchPdf NODE_ENV fuel X w) env = Pending w' →
     X ∈ prefetchingSet w' ∧
     FileBrowser.prefetchPdf NODE_ENV fuel X w' = Returned w' tt) ∧
  (X ∈ prefetchingSet w →
   ∃ w',
     FileBrowser.prefetchPdf NODE_ENV fuel X w = Returned w' tt ∧
     trace w' = trace w ∧ prefetchingSet w' = prefetchingSet w) ∧
  (∀ pool turns,
     event_loop (Call (FileBrowser.prefetchPdf NODE_ENV fuel X)
                 :: Call (FileBrowser.prefetchPdf NODE_ENV fuel X) :: turns)
       (w, pool)
     = event_loop (Call (FileBrowser.prefetchPdf NODE_ENV fuel X) :: turns)
         (w, pool)) ∧
  (JsMap.get X (pdfPagesCache w) = None → X ∉ prefetchingSet w →
   ∃ w1,
     suspended_at (FileBrowser.prefetchPdf NODE_ENV fuel X w) = Some w1 ∧
     trace w1
     = trace w
         ++ ManifestRead
            :: match pdfManifest w ≫= (.!! X) with
               | Some entry =>
                   if decide (0 < pages entry)%Z then []
                   else [Called ImportPdfjs]
               | None => [Called ImportPdfjs]
               end) ∧
  (JsMap.get X (pdfPagesCache w) = None → X ∉ prefetchingSet w →
   ∀ pool env,
     let two_calls :=
       Call (FileBrowser.prefetchPdf NODE_ENV fuel X)
       :: Call (FileBrowser.prefetchPdf NODE_ENV fuel X)
       :: (Resume (length pool) <$> env) in
     match run (FileBrowser.prefetchPdf NODE_ENV fuel X w) env with
     | Finished w' _ =>
         event_loop two_calls (w, pool) = Some (w', pool) ∧
         ∃ opens, performed w w' 1 1 opens ∧ opens ≤ 1
     | Pending w' =>
         (∃ task, event_loop two_calls (w, pool)
                  = Some (w', pool ++ [task])) ∧
         ∃ starts opens,
           performed w w' 1 starts opens ∧ starts ≤ 1 ∧ opens ≤ starts ∧
           (env ≠ [] → starts = 1)
     | Failed _ _ => False
     | NeverReturns => event_loop two_calls (w, pool) = None
     end).
Proof.
  intros Hwf.
  assert (JsMap.get X (pdfPagesCache w) = None → X ∉ prefetchingSet w →
          ∃ w1,
            suspended_at (FileBrowser.prefetchPdf NODE_ENV fuel X w)
            = Some w1 ∧
            X ∈ prefetchingSet w1 ∧
            FileBrowser.prefetchPdf NODE_ENV fuel X w1 = Returned w1 tt)
    as Hclaim.
  { intros Hget Hnin.
    destruct (fb_first_suspension NODE_ENV fuel X w Hget Hnin)
      as (w1 & Hsusp & Hset & Hcache & _).
    exists w1. split; [done |].
    assert (X ∈ prefetchingSet w1)
      by (rewrite Hset; apply elem_of_union_l, elem_of_singleton; done).
    split; [done |]. apply fb_prefetch_in_flight; [| done].
    by rewrite Hcache. }
  assert (∀ pool turns,
    event_loop (Call (FileBrowser.prefetchPdf NODE_ENV fuel X)
                :: Call (FileBrowser.prefetchPdf NODE_ENV fuel X) :: turns)
      (w, pool)
    = event_loop (Call (FileBrowser.prefetchPdf NODE_ENV fuel X) :: turns)
        (w, pool)) as Hloop.
  { intros pool turns. cbn [event_loop turn fst snd].
    destruct (JsMap.get X (pdfPagesCache w)) as [v|] eqn:Hget.
    - rewrite (fb_prefetch_hit _ _ X v) by done. simpl.
      destruct (refresh_twice X v (pdfPagesCache w) Hwf) as [Hg Hs].
      rewrite (fb_prefetch_hit _ _ X v); [| exact Hg]. simpl.
      by rewrite Hs.
    - destruct (decide (X ∈ prefetchingSet w)) as [Hin|Hnin].
      + rewrite fb_prefetch_in_flight by done. simpl.
        by rewrite fb_prefetch_in_flight.
      + destruct (Hclaim eq_refl Hnin) as (w1 & Hsusp & _ & Hagain).
        destruct (FileBrowser.prefetchPdf NODE_ENV fuel X w)
          as [| | |T w1' op k]; try done.
        simpl in Hsusp. injection Hsusp as ->. simpl. by rewrite Hagain. }
  split; [exact Hclaim |]. split.
  { intros Hget Hfree env w' Hrun.
    destruct (fb_prefetch_pending NODE_ENV fuel X w env w' Hget Hfree Hrun)
      as [Hin Hcache].
    split; [done |]. apply fb_prefetch_in_flight; [| done].
    by rewrite Hcache. }
  split.
  { intros Hin. destruct (JsMap.get X (pdfPagesCache w)) as [v|] eqn:Hget.
    - eexists. split; [by apply fb_prefetch_hit | done].
    - exists w. by rewrite fb_prefetch_in_flight. }
  split; [exact Hloop |].
  split; [apply fb_first_suspension_trace |].
  intros Hget Hfree pool env two_calls. subst two_calls.
  rewrite Hloop.
  pose proof (event_loop_resumes
                (FileBrowser.prefetchPdf NODE_ENV fuel X w) pool env)
    as Hresumes.
  change (event_loop (Call ?f :: ?turns) (w, pool))
    with (park (f w) pool ≫= event_loop turns).
  revert Hresumes.
  rewrite (fb_prefetch_claims NODE_ENV fuel X w Hget Hfree).
  rewrite run_swallowed.
  pose proof (prefetch_body_performed X
                (FileBrowser.prefetchingSet_add X w) env) as Hdid.
  destruct (run _ env) as [w' []|w' err| |w']; intros Hresumes.
  - split; [exact Hresumes|].
    destruct Hdid as (opens & Hdid & ?). exists opens. split; [|done].
    destruct Hdid as (new & Hnew & ?). by exists new.
  - split; [exact Hresumes|].
    destruct Hdid as (opens & Hdid & ?). exists opens. split; [|done].
    destruct Hdid as (new & Hnew & ?). by exists new.
  - exact Hresumes.
  - split; [exact Hresumes|].
    destruct Hdid as (starts & opens & Hdid & ?). exists starts, opens.
    split; [|done]. destruct Hdid as (new & Hnew & ?). by exists new.
Qed.
End PrefetchTheorems.

Lemma prefetch_claims_before_suspending_witness :
  (∃ w1,
     suspended_at (FileBrowser.prefetchPdf "production" 1 "X.pdf" fresh_world)
     = Some w1 ∧
     "X.pdf" ∈ prefetchingSet w1 ∧
     FileBrowser.prefetchPdf "production" 1 "X.pdf" w1 = Returned w1 tt) ∧
  (∀ env w',
     run (FileBrowser.prefetchPdf "production" 1 "X.pdf" fresh_world) env
     = Pending w' →
     "X.pdf" ∈ prefetchingSet w' ∧
     FileBrowser.prefetchPdf "production" 1 "X.pdf" w' = Returned w' tt) ∧
  (∀ turns,
     event_loop (Call (FileBrowser.prefetchPdf "production" 1 "X.pdf")
                 :: Call (FileBrowser.prefetchPdf "production" 1 "X.pdf")
                 :: turns) (fresh_world, [])
     = event_loop (Call (FileBrowser.prefetchPdf "production" 1 "X.pdf")
                   :: turns) (fresh_world, [])) ∧
  (∃ w1,
     suspended_at (FileBrowser.prefetchPdf "production" 1 "X.pdf" fresh_world)
     = Some w1 ∧
     trace w1 = [ManifestRead; Called ImportPdfjs]) ∧
  match
    run (FileBrowser.prefetchPdf "production" 1 "X.pdf" fresh_world)
      [ok; ok; ok; ok; ok; ok; ok; ok]
  with
  | Finished w' _ =>
      event_loop
        [Call (FileBrowser.prefetchPdf "production" 1 "X.pdf");
         Call (FileBrowser.prefetchPdf "production" 1 "X.pdf");
         Resume 0 ok; Resume 0 ok; Resume 0 ok; Resume 0 ok;
         Resume 0 ok; Resume 0 ok; Resume 0 ok; Resume 0 ok]
        (fresh_world, [])
      = Some (w', []) ∧
      ∃ opens, performed fresh_world w' 1 1 opens ∧ opens ≤ 1
  | _ => False
  end.
Proof.
  destruct (prefetch_claims_before_suspending "production" 1 "X.pdf"
              fresh_world)
    as (Hclaim & Hpending & _ & Hloop & Htrace & Htwo).
  - apply NoDup_nil_2.
  - split; [apply Hclaim | split; [apply Hpending | split; [apply Hloop |]]].
    + reflexivity.
    + apply not_elem_of_empty.
    + reflexivity.
    + apply not_elem_of_empty.
    + split; [apply Htrace; [reflexivity | apply not_elem_of_empty] |].
      pose proof (Htwo eq_refl (not_elem_of_empty _) []
                    [ok; ok; ok; ok; ok; ok; ok; ok]) as Hrun.
      cbv zeta in Hrun.
      destruct (run _ [ok; ok; ok; ok; ok; ok; ok; ok])
        as [w' []|w' err| |w'] eqn:Houtcome;
        [exact Hrun | exact Hrun | by vm_compute in Houtcome
        | by vm_compute in Houtcome].
Defined.
